(** * Reed-Solomon codec over a prime field GF(q): encoder, Berlekamp-Welch
    unique decoder, interpolation-based list decoder and candidate filter.

    The development embeds the functions of [main.py] as executable Rocq
    functions over integers reduced modulo [q], lists of coefficients for
    polynomials and lists of rows for matrices, and states the properties
    of the codec against these definitions. *)

From Stdlib Require Import ZArith List Lia Bool Arith Znumtheory Zcong.
Import ListNotations.
Open Scope Z_scope.

(** ** Outcomes of a Python call: a returned value or a raised exception *)

Inductive exn : Set :=
| IndexError
| ZeroDivisionError
| ValueError
| ArithmeticError.

Inductive outcome (A : Type) : Type :=
| Returned (a : A)
| Raised (e : exn).

Arguments Returned {A} a.
Arguments Raised {A} e.

Definition bind {A B : Type} (m : outcome A) (f : A -> outcome B) : outcome B :=
  match m with
  | Returned a => f a
  | Raised e => Raised e
  end.

Notation "x <- m ;; f" := (bind m (fun x => f))
  (at level 61, m at next level, right associativity).

(** [range n] is Python's [range(n)], as integers. *)
Definition range (n : nat) : list Z := map Z.of_nat (seq 0 n).

(** [enumerate l] is Python's [enumerate(l)]. *)
Definition enumerate {A : Type} (l : list A) : list (Z * A) :=
  combine (range (length l)) l.

(** ** The field GF(q), on canonical representatives in [0, q) *)

(** Equality of two symbols as elements of GF(q). *)
Definition eqF (q a b : Z) : bool := (a mod q =? b mod q).

(** ** Univariate polynomials over GF(q)

    A polynomial is the list of its coefficients, lowest degree first.
    Sage keeps polynomials normalised: coefficients reduced modulo [q] and
    no zero leading coefficient, so that [p.list()] has [p.degree() + 1]
    entries and the zero polynomial has the empty list. *)

Definition poly := list Z.

(** Remove the zero coefficients at the high end of a coefficient list. *)
Fixpoint strip (p : list Z) : list Z :=
  match p with
  | [] => []
  | c :: p' =>
      match strip p' with
      | [] => if c =? 0 then [] else [c]
      | r => c :: r
      end
  end.

(** [ring q l] is Sage's [PolynomialRing(GF(q), 'x')(l)]: the polynomial
    with coefficient list [l]. *)
Definition ring (q : Z) (l : list Z) : poly :=
  strip (map (fun c => c mod q) l).

(** [p.list()]: the coefficients of a polynomial. *)
Definition coeffs (p : poly) : list Z := p.

(** [p[i]]: the coefficient of degree [i], zero beyond the degree. *)
Definition coeff (p : poly) (i : nat) : Z := nth i p 0.

(** [p.degree()]: the index of the last coefficient that is non-zero in
    GF(q), and [-1] for the zero polynomial. *)
Definition degree (q : Z) (p : poly) : Z :=
  Z.of_nat (length (ring q p)) - 1.

(** [p(x)]: evaluation in GF(q), by Horner's rule. *)
Fixpoint eval (q : Z) (p : poly) (x : Z) : Z :=
  match p with
  | [] => 0
  | c :: p' => (c + x * eval q p' x) mod q
  end.

(** ** Candidate filter *)

(** The inner loop of [get_factors_with_less_errors]: count the points
    where [factor(x) != y], leaving the loop as soon as the count exceeds
    [num_of_errors]. *)
Fixpoint count_errors (q : Z) (factor : poly) (pts : list (Z * Z))
  (num_of_errors current_errors : nat) : nat :=
  match pts with
  | [] => current_errors
  | (x, y) :: rest =>
      if negb (eqF q (eval q factor x) y) then
        let current_errors := S current_errors in
        if (num_of_errors <? current_errors)%nat then current_errors
        else count_errors q factor rest num_of_errors current_errors
      else count_errors q factor rest num_of_errors current_errors
  end.

Definition get_factors_with_less_errors (q : Z) (factors : list poly)
  (xs ys : list Z) (num_of_errors k : nat) : list poly :=
  fold_left
    (fun good_factors factor =>
       if Z.of_nat k <? degree q factor then good_factors
       else
         let current_errors :=
           count_errors q factor (combine xs ys) num_of_errors 0 in
         if (current_errors <=? num_of_errors)%nat
         then good_factors ++ [factor]
         else good_factors)
    factors [].

(** The number of points of [pts] a polynomial misses. *)
Definition mismatches (q : Z) (P : poly) (pts : list (Z * Z)) : nat :=
  length (filter (fun xy => negb (eqF q (eval q P (fst xy)) (snd xy))) pts).

(** ** The interpolation system of the list decoder *)

(** [D = int(sqrt(2 * k * n))]. *)
Definition interpolation_degree (k n : nat) : nat :=
  Z.to_nat (Z.sqrt (2 * Z.of_nat k * Z.of_nat n)).

(** The coefficient appended for the monomial [x^i y^j] at the point
    [(alpha, codeword[alpha])]. *)
Definition monomial_entry (q : Z) (alpha : nat) (c : Z) (i j : nat) : Z :=
  let y_coeff := if eqF q c 0 && (j =? 0)%nat then 1 else c in
  (Z.of_nat alpha ^ Z.of_nat i * y_coeff ^ Z.of_nat j) mod q.

(** The row [equations[alpha]] built by the three nested loops. *)
Definition list_equation (q : Z) (k D alpha : nat) (c : Z) : list Z :=
  flat_map
    (fun j => map (fun i => monomial_entry q alpha c i j)
                  (seq 0 (D - k * j + 1)))
    (seq 0 (D / k + 1)).

Definition list_equations (q : Z) (codeword : list Z) (k : nat)
  : list (list Z) :=
  let n := length codeword in
  let D := interpolation_degree k n in
  map (fun alpha => list_equation q k D alpha (nth alpha codeword 0))
      (seq 0 n).

(** The monomials [x^a y^b] of the system, in the order of its columns:
    pairs [(a, b)]. *)
Definition monomials (k D : nat) : list (nat * nat) :=
  flat_map (fun j => map (fun i => (i, j)) (seq 0 (D - k * j + 1)))
           (seq 0 (D / k + 1)).

(** ** Polynomial arithmetic used by interpolation and division *)

Fixpoint padd (p r : poly) : poly :=
  match p, r with
  | [], _ => r
  | _, [] => p
  | a :: p', b :: r' => (a + b) :: padd p' r'
  end.

Definition pscale (a : Z) (p : poly) : poly := map (Z.mul a) p.

Fixpoint pmul (p r : poly) : poly :=
  match p with
  | [] => []
  | a :: p' => padd (pscale a r) (0 :: pmul p' r)
  end.

(** The Lagrange basis polynomial of the node [xj] against the nodes
    [others]: the product of [(x - xm) / (xj - xm)]. *)
Definition basis_poly (q xj : Z) (others : list Z) : poly :=
  fold_right
    (fun xm acc => pmul (pscale (Z.invmod (xj - xm) q) [- xm; 1]) acc)
    [1] others.

(** The sum of [yj * basis_j] over the points [pts], the nodes already
    passed being [before]. *)
Fixpoint lagrange_sum (q : Z) (before : list Z) (pts : list (Z * Z)) : poly :=
  match pts with
  | [] => []
  | (xj, yj) :: rest =>
      padd (pscale yj (basis_poly q xj (before ++ map fst rest)))
           (lagrange_sum q (before ++ [xj]) rest)
  end.

(** Whether the nodes are pairwise distinct in GF(q). *)
Fixpoint distinct_nodes (q : Z) (xs : list Z) : bool :=
  match xs with
  | [] => true
  | x :: xs' => forallb (fun x' => negb (eqF q x x')) xs' && distinct_nodes q xs'
  end.

(** Sage's [ring.lagrange_polynomial(points)]: the polynomial of degree
    below [len(points)] through the points (the zero polynomial for no
    point).  Sage computes it from the table of divided differences, whose
    denominators are the differences of every two nodes: a
    [ZeroDivisionError] is raised when two nodes coincide in GF(q). *)
Definition lagrange_polynomial (q : Z) (pts : list (Z * Z)) : outcome poly :=
  if distinct_nodes q (map fst pts)
  then Returned (ring q (lagrange_sum q [] pts))
  else Raised ZeroDivisionError.

(** ** Encoder *)

Definition rs_encoder (q : Z) (msg : list Z) (n : nat) : outcome poly :=
  let k := length msg in
  let alphas_k := range k in
  lp <- lagrange_polynomial q (combine alphas_k msg) ;;
  let codeword := map (fun a => eval q lp a) (range n) in
  Returned (ring q codeword).

(** ** Matrices over GF(q): reduced row echelon form *)

Definition row := list Z.

Definition entry (r : row) (c : nat) : Z := nth c r 0.

Definition scale_row (q a : Z) (r : row) : row :=
  map (fun x => (a * x) mod q) r.

(** [r - a * p]. *)
Definition sub_row (q : Z) (r : row) (a : Z) (p : row) : row :=
  map (fun xy => (fst xy - a * snd xy) mod q) (combine r p).

(** Clear column [c] of [r] with the pivot row [p], whose entry there is 1. *)
Definition eliminate (q : Z) (c : nat) (p r : row) : row :=
  sub_row q r (entry r c) p.

(** The first row with a non-zero entry in column [c], and the rows
    before and after it. *)
Fixpoint find_pivot (c : nat) (rows : list row)
  : option (list row * row * list row) :=
  match rows with
  | [] => None
  | r :: rest =>
      if entry r c =? 0 then
        match find_pivot c rest with
        | None => None
        | Some (b, p, a) => Some (r :: b, p, a)
        end
      else Some ([], r, rest)
  end.

(** Gauss-Jordan elimination along the columns [cols]: [done] are the
    pivot rows found so far, [todo] the rows without a pivot yet. *)
Fixpoint gauss_jordan (q : Z) (cols : list nat) (done todo : list row)
  (pivots : list nat) : list row * list row * list nat :=
  match cols with
  | [] => (done, todo, pivots)
  | c :: cols' =>
      match find_pivot c todo with
      | None => gauss_jordan q cols' done todo pivots
      | Some (b, p, a) =>
          let p' := scale_row q (Z.invmod (entry p c) q) p in
          gauss_jordan q cols'
            (map (eliminate q c p') done ++ [p'])
            (map (eliminate q c p') (b ++ a))
            (pivots ++ [c])
      end
  end.

Definition reduce_rows (q : Z) (A : list row) : list row :=
  map (map (fun x => x mod q)) A.

(** Replace the entry of index [c]. *)
Fixpoint set_nth (c : nat) (v : Z) (l : list Z) : list Z :=
  match l, c with
  | [], _ => []
  | _ :: l', O => v :: l'
  | x :: l', S c' => x :: set_nth c' v l'
  end.

(** The product of a row of a matrix by a vector of unknowns. *)
Definition dot (r u : list Z) : Z :=
  fold_right Z.add 0 (map (fun xy => fst xy * snd xy) (combine r u)).

(** A linear equation: the coefficients of the unknowns and the right-hand
    side. *)
Definition equation := (list Z * Z)%type.

Definition head_entry (r : equation) : Z := hd 0 (fst r).

Definition tail_equation (r : equation) : equation := (tl (fst r), snd r).

(** The first equation whose first coefficient is not zero in GF(q). *)
Fixpoint find_pivot_equation (q : Z) (rows : list equation)
  : option (list equation * equation * list equation) :=
  match rows with
  | [] => None
  | r :: rest =>
      if head_entry r mod q =? 0 then
        match find_pivot_equation q rest with
        | None => None
        | Some (b, p, a) => Some (r :: b, p, a)
        end
      else Some ([], r, rest)
  end.

(** Divide an equation by its first coefficient. *)
Definition normalize_equation (q : Z) (p : equation) : equation :=
  let inv := Z.invmod (head_entry p) q in
  (map (fun x => (inv * x) mod q) (fst p), (inv * snd p) mod q).

(** Remove the first unknown from [r] with the normalised equation [p]:
    the equation [r - r_0 * p] on the other unknowns. *)
Definition eliminate_equation (q : Z) (p r : equation) : equation :=
  let a := head_entry r in
  (map (fun x => x mod q) (padd (tl (fst r)) (pscale (- a) (tl (fst p)))),
   (snd r - a * snd p) mod q).

(** Gaussian elimination with back substitution over [ncols] unknowns:
    an unknown without a pivot is free and set to zero; the system has no
    solution when an equation [0 = b] with [b] non-zero is left. *)
Fixpoint solve_equations (q : Z) (ncols : nat) (rows : list equation)
  : option (list Z) :=
  match ncols with
  | O => if forallb (fun r => snd r mod q =? 0) rows then Some [] else None
  | S ncols' =>
      match find_pivot_equation q rows with
      | None =>
          option_map (cons 0)
                     (solve_equations q ncols' (map tail_equation rows))
      | Some (b, p, a) =>
          let p' := normalize_equation q p in
          match solve_equations q ncols'
                  (map (eliminate_equation q p') (b ++ a)) with
          | None => None
          | Some x' => Some ((snd p' - dot (tl (fst p')) x') mod q :: x')
          end
      end
  end.

(** Sage's [A.solve_right(b)] over the field, for a matrix with [ncols]
    columns: the solution in which the unknowns without a pivot are zero,
    and a [ValueError] when the system has no solution. *)
Definition solve_right (q : Z) (ncols : nat) (A : list row) (b : list Z)
  : outcome (list Z) :=
  match solve_equations q ncols (combine A b) with
  | Some x => Returned x
  | None => Raised ValueError
  end.

(** The basis of the right kernel read off a reduced row echelon form:
    one vector per free column [f], with 1 at [f] and the negated entries
    of column [f] at the pivot columns. *)
Definition kernel_vector (q : Z) (ncols : nat) (done : list row)
  (pivots : list nat) (f : nat) : row :=
  fold_left (fun x cr => set_nth (fst cr) ((- entry (snd cr) f) mod q) x)
            (combine pivots done) (set_nth f 1 (repeat 0 ncols)).

(** Sage's [A.right_kernel().matrix()]: the basis of the right kernel in
    reduced row echelon form. *)
Definition right_kernel_matrix (q : Z) (A : list row) : list row :=
  let ncols := length (hd [] A) in
  let cols := seq 0 ncols in
  let '(done, _, pivots) := gauss_jordan q cols [] (reduce_rows q A) [] in
  let free := filter (fun c => negb (existsb (Nat.eqb c) pivots)) cols in
  let basis := map (kernel_vector q ncols done pivots) free in
  let '(echelon, _, _) := gauss_jordan q cols [] basis [] in
  echelon.

(** ** Division by a monic polynomial *)

(** [pmod q p e]: the remainder of [p] by the monic polynomial [e], as
    the list of its [length e - 1] low coefficients. *)
Fixpoint pmod (q : Z) (p e : poly) : poly :=
  let d := (length e - 1)%nat in
  match p with
  | [] => repeat 0 d
  | c :: p' =>
      let r := c mod q :: pmod q p' e in
      let a := nth d r 0 in
      firstn d (sub_row q r a e)
  end.

Definition is_zero (p : poly) : bool := forallb (fun c => c =? 0) p.

(** ** Unique decoder (Berlekamp-Welch) *)

Definition result_column (q : Z) (codeword : list Z) : list Z :=
  map (fun ae => ((-1) * snd ae * fst ae ^ 2) mod q) (enumerate codeword).

Definition equation_entry (q : Z) (codeword : list Z) (i j : nat) : Z :=
  let ci := nth i codeword 0 in
  if (j =? 0)%nat then ci mod q
  else if (j =? 1)%nat then (ci * Z.of_nat i) mod q
  else if (j =? 2)%nat then q - 1
  else (q - (Z.of_nat i ^ Z.of_nat (j - 2)) mod q) mod q.

Definition equations (q : Z) (codeword : list Z) : list row :=
  let n := length codeword in
  map (fun i => map (fun j => equation_entry q codeword i j) (seq 0 n))
      (seq 0 n).

(** The error locator [E] and the polynomial [Q] cut out of the solution. *)
Definition error_locator (q : Z) (num_of_errors : nat) (unknowns : list Z)
  : poly := ring q (firstn num_of_errors unknowns ++ [1]).

Definition q_polynomial (q : Z) (num_of_errors : nat) (unknowns : list Z)
  : poly := ring q (skipn num_of_errors unknowns).

Definition correct_symbol_indices (q : Z) (n : nat) (E : poly) : list Z :=
  filter (fun alpha => negb (eval q E alpha =? 0)) (range n).

(** [rs_decoder(codeword, k, num_of_errors, gf)].  The quotient [F = Q // E]
    is computed by the source and not used afterwards. *)
Definition rs_decoder (q : Z) (codeword : list Z) (k num_of_errors : nat)
  : outcome (option poly) :=
  let n := length codeword in
  match solve_right q n (equations q codeword) (result_column q codeword) with
  | Raised _ => Returned None
  | Returned unknowns =>
      let E := error_locator q num_of_errors unknowns in
      let Q := q_polynomial q num_of_errors unknowns in
      if is_zero (pmod q Q E) then
        let indices := correct_symbol_indices q n E in
        let correct_symbols :=
          map (fun index => nth (Z.to_nat index) codeword 0) indices in
        interpolated_symbols <-
          lagrange_polynomial q (combine indices correct_symbols) ;;
        let original_message_coefficients :=
          map (fun index => eval q interpolated_symbols index) (range k) in
        Returned (Some (ring q original_message_coefficients))
      else Returned None
  end.

(** ** Bivariate polynomials and the list decoder *)

(** A bivariate polynomial is the table of its coefficients: the entry of
    index [i] of the row of index [j] is the coefficient of [x^i y^j]. *)
Definition bipoly := list (list Z).

Fixpoint biadd (f g : bipoly) : bipoly :=
  match f, g with
  | [], _ => g
  | _, [] => f
  | a :: f', b :: g' => padd a b :: biadd f' g'
  end.

Definition bineg (f : bipoly) : bipoly := map (pscale (-1)) f.

(** The generator [y]. *)
Definition y_gen : bipoly := [[]; [1]].

(** Whether a monomial with a positive power of [x] (of [y]) occurs. *)
Definition uses_x (q : Z) (f : bipoly) : bool :=
  existsb (fun r => negb (is_zero (ring q (skipn 1 r)))) f.

Definition uses_y (q : Z) (f : bipoly) : bool :=
  existsb (fun r => negb (is_zero (ring q r))) (skipn 1 f).

(** Sage's [f.is_univariate()]: at most one generator occurs. *)
Definition is_univariate (q : Z) (f : bipoly) : bool :=
  negb (uses_x q f && uses_y q f).

(** Sage's [f.univariate_polynomial()] of a polynomial in one generator:
    its coefficients along that generator. *)
Definition univariate_polynomial (q : Z) (f : bipoly) : poly :=
  if uses_y q f then ring q (map (fun r => nth 0 r 0) f)
  else ring q (nth 0 f []).

Definition get_p_from_factor (q : Z) (factor : bipoly) : option poly :=
  if is_univariate q (biadd factor (bineg y_gen))
  then Some (univariate_polynomial q (biadd y_gen (bineg factor)))
  else None.

(** Cut the kernel vector into the rows [qij[j]], of the given lengths. *)
Fixpoint split_rows (lens : list nat) (unknowns : list Z) : list (list Z) :=
  match lens with
  | [] => []
  | l :: lens' => firstn l unknowns :: split_rows lens' (skipn l unknowns)
  end.

(** The bivariate polynomial [Q] assembled from the first row of the
    kernel basis; the kernel basis has no row when the kernel is trivial
    ([IndexError]), and [D // k] divides by zero when [k = 0]. *)
Definition interpolation_polynomial (q : Z) (codeword : list Z) (k : nat)
  : outcome bipoly :=
  let n := length codeword in
  let D := interpolation_degree k n in
  if (0 <? n)%nat && (k =? 0)%nat then Raised ZeroDivisionError
  else
    match right_kernel_matrix q (list_equations q codeword k) with
    | [] => Raised IndexError
    | unknowns :: _ =>
        Returned (split_rows (map (fun j => D - k * j + 1)%nat
                                  (seq 0 (D / k + 1)))
                             unknowns)
    end.

Section ListDecoder.

(** Sage's [Q.factor()]: the irreducible factors of a non-zero bivariate
    polynomial with their multiplicities.  Factorisation belongs to the
    algebra library and is taken as a parameter. *)
Variable factor : bipoly -> list (bipoly * nat).

(** The polynomials [P] of the factors of the form [y - P(x)]. *)
Definition factors_list (q : Z) (Q : bipoly) : list poly :=
  flat_map (fun f => match get_p_from_factor q (fst f) with
                     | Some p => [p]
                     | None => []
                     end)
           (factor Q).

Definition rs_list_decoder (q : Z) (codeword : list Z)
  (k num_of_errors : nat) : outcome (option (list (list Z))) :=
  let n := length codeword in
  Q <- interpolation_polynomial q codeword k ;;
  if forallb (fun r => is_zero (ring q r)) Q then Raised ArithmeticError
  else
    let factors_list := factors_list q Q in
    if (length factors_list =? 0)%nat then Returned None
    else
      let good_factors :=
        get_factors_with_less_errors q factors_list (range n) codeword
                                     num_of_errors k in
      let msg_list :=
        map (fun f => map (fun a => eval q f a) (range k)) good_factors in
      Returned (Some msg_list).

End ListDecoder.

(** The factorisation of an irreducible polynomial: the polynomial itself,
    once. *)
Definition factor_irreducible (Q : bipoly) : list (bipoly * nat) := [(Q, 1%nat)].

(** ** Error generator

    The calls of [random.randint] take their values from the list [draws]
    of the integers the generator yields, one per call; a run that needs
    more draws than the list has gives [None]. *)

(** [random.randint(a, b)]: the integer of [a..b] chosen by a draw. *)
Definition randint (a b draw : Z) : Z := a + draw mod (b - a + 1).

(** The first loop: indices are drawn until [num_of_errors] different
    ones are chosen. *)
Fixpoint choose_indices (len : nat) (num_of_errors : nat) (draws : list Z)
  (indices_to_change : list Z) : option (list Z * list Z) :=
  match draws with
  | [] =>
      if (length indices_to_change <? num_of_errors)%nat then None
      else Some (indices_to_change, draws)
  | d :: draws' =>
      if (length indices_to_change <? num_of_errors)%nat then
        let index := randint 0 (Z.of_nat len - 1) d in
        if existsb (Z.eqb index) indices_to_change
        then choose_indices len num_of_errors draws' indices_to_change
        else choose_indices len num_of_errors draws'
                            (indices_to_change ++ [index])
      else Some (indices_to_change, draws)
  end.

(** The inner loop: values are drawn until one is accepted. *)
Fixpoint choose_value (q : Z) (is_last : bool) (current_coeff : Z)
  (draws : list Z) : option (Z * list Z) :=
  match draws with
  | [] => None
  | d :: draws' =>
      let random_value := randint 0 q d in
      if is_last && (random_value =? 0)
      then choose_value q is_last current_coeff draws'
      else if negb (eqF q random_value current_coeff)
           then Some (random_value, draws')
           else choose_value q is_last current_coeff draws'
  end.

(** The second loop: the coefficient of every chosen index is replaced. *)
Fixpoint change_coeffs (q : Z) (coeffs : list Z) (indices : list Z)
  (draws : list Z) : option (list Z * list Z) :=
  match indices with
  | [] => Some (coeffs, draws)
  | index :: rest =>
      let current_coeff := nth (Z.to_nat index) coeffs 0 in
      match choose_value q (index =? Z.of_nat (length coeffs) - 1)
                         current_coeff draws with
      | None => None
      | Some (random_value, draws') =>
          change_coeffs q (set_nth (Z.to_nat index) random_value coeffs)
                        rest draws'
      end
  end.

(** The new codeword, the number of errors, and the draws left. *)
Definition error_generator (q : Z) (codeword : poly) (num_of_errors : nat)
  (draws : list Z) : option (poly * nat * list Z) :=
  let n := Z.to_nat (degree q codeword + 1) in
  let num_of_errors := if (n <? num_of_errors)%nat then n else num_of_errors in
  let coeffs := coeffs codeword in
  match choose_indices (length coeffs) num_of_errors draws [] with
  | None => None
  | Some (indices_to_change, draws) =>
      match change_coeffs q coeffs indices_to_change draws with
      | None => None
      | Some (coeffs, draws) => Some (ring q coeffs, num_of_errors, draws)
      end
  end.

(** ** Test harness *)

(** [a == b] for a list of field elements and a list of integers. *)
Definition list_eqF (q : Z) (a b : list Z) : bool :=
  (length a =? length b)%nat &&
  forallb (fun xy => eqF q (fst xy) (snd xy)) (combine a b).

(** The counters kept for one encoding length. *)
Record run_result : Set :=
  { runs : nat; ud : nat; ld : nat }.

(** The dictionary [results], in the order of insertion of its keys. *)
Fixpoint lookup (key : nat) (results : list (nat * run_result))
  : option run_result :=
  match results with
  | [] => None
  | (k, v) :: rest => if (k =? key)%nat then Some v else lookup key rest
  end.

(** [results[key] = v]. *)
Fixpoint store (key : nat) (v : run_result)
  (results : list (nat * run_result)) : list (nat * run_result) :=
  match results with
  | [] => [(key, v)]
  | (k, w) :: rest =>
      if (k =? key)%nat then (k, v) :: rest else (k, w) :: store key v rest
  end.

Section Harness.

Variable factor : bipoly -> list (bipoly * nat).

(** [test(msg, n, gf, errors)]: whether the unique decoder and the list
    decoder gave back the message; an assertion that fails, or any
    exception raised inside a [try], counts as a failure. *)
Definition test (q : Z) (msg : list Z) (n errors : nat) (draws : list Z)
  : option (outcome (bool * bool) * list Z) :=
  match rs_encoder q msg n with
  | Raised e => Some (Raised e, draws)
  | Returned encoded_msg =>
      match error_generator q encoded_msg errors draws with
      | None => None
      | Some (received_codeword, _, draws) =>
          match rs_decoder q (coeffs received_codeword) (length msg) errors
          with
          | Raised e => Some (Raised e, draws)
          | Returned unique_decoded =>
              let result0 :=
                match unique_decoded with
                | Some m => list_eqF q (coeffs m) msg
                | None => false
                end in
              let result1 :=
                match rs_list_decoder factor q (coeffs received_codeword)
                                      (length msg) errors with
                | Returned (Some list_decoded) =>
                    existsb (fun c => list_eqF q c msg) list_decoded
                | _ => false
                end in
              Some (Returned (result0, result1), draws)
          end
      end
  end.

(** The loop of [test_suite] over the runs [(msg, n, q, errors)]. *)
Fixpoint test_suite_loop (todo : list (list Z * nat * Z * nat))
  (results : list (nat * run_result)) (draws : list Z)
  : option (outcome (list (nat * run_result)) * list Z) :=
  match todo with
  | [] => Some (Returned results, draws)
  | (msg, n, q, errors) :: todo' =>
      let key := n in
      let run_result :=
        match lookup key results with
        | Some r => r
        | None => {| runs := 0; ud := 0; ld := 0 |}
        end in
      match test q msg n errors draws with
      | None => None
      | Some (Raised e, draws) => Some (Raised e, draws)
      | Some (Returned result, draws) =>
          let run_result :=
            {| runs := runs run_result + 1;
               ud := if fst result then ud run_result + 1 else ud run_result;
               ld := if snd result then ld run_result + 1 else ld run_result |}
          in
          test_suite_loop todo' (store key run_result results) draws
      end
  end.

Definition test_suite (todo : list (list Z * nat * Z * nat)) (draws : list Z)
  : option (outcome (list (nat * run_result)) * list Z) :=
  test_suite_loop todo [] draws.

End Harness.

(** ** Auxiliary notions for the statements *)

(** Evaluation over the integers, before reduction modulo [q]. *)
Fixpoint peval (p : poly) (x : Z) : Z :=
  match p with
  | [] => 0
  | c :: p' => c + x * peval p' x
  end.

(** A word over GF(q): every symbol is a canonical representative. *)
Definition in_field (q : Z) (l : list Z) : Prop :=
  Forall (fun c => 0 <= c < q) l.

(** The nodes are pairwise distinct in GF(q). *)
Definition distinct_mod (q : Z) (xs : list Z) : Prop :=
  NoDup (map (fun x => x mod q) xs).

(** The coefficient-form evaluation named by the specification: the sum of
    [msg[j] * x^j] over the positions [j] of the message, reduced modulo [q]. *)
Definition coefficient_form (q : Z) (msg : list Z) (x : Z) : Z :=
  fold_right Z.add 0 (map (fun jm => snd jm * x ^ fst jm) (enumerate msg)) mod q.

(** [x] satisfies the equation [r] in GF(q). *)
Definition sat (q : Z) (x : list Z) (r : equation) : Prop :=
  dot (fst r) x mod q = snd r mod q.

(** Division of [N] by [x - x0]: the quotient of the synthetic division. *)
Fixpoint sdiv (x0 : Z) (N : poly) : poly :=
  match N with
  | [] => []
  | _ :: N' =>
      match N' with
      | [] => []
      | _ => peval N' x0 :: sdiv x0 N'
      end
  end.

(** All the coefficients are zero in GF(q). *)
Definition zero_mod (q : Z) (N : poly) : Prop :=
  Forall (fun c => c mod q = 0) N.

(** Two coefficient lists of the same polynomial over GF(q). *)
Definition peq (q : Z) (p r : poly) : Prop :=
  forall i, nth i p 0 mod q = nth i r 0 mod q.

(** The sum of two remainders. *)
Definition vadd (q : Z) (R1 R2 : list Z) : list Z :=
  map (fun xy => (fst xy + snd xy) mod q) (combine R1 R2).

(** One step of [pmod]: the remainder of [c + x * R]. *)
Definition pstep (q : Z) (e : poly) (c : Z) (R : list Z) : list Z :=
  let d := (length e - 1)%nat in
  let r := c mod q :: R in
  firstn d (sub_row q r (nth d r 0) e).

(** The positions below [n] where the received word differs from the
    codeword. *)
Definition altered (q : Z) (received : list Z) (cw : poly) (n : nat)
  : list nat :=
  filter (fun i => negb (eqF q (nth i received 0) (coeff cw i))) (seq 0 n).

(** [Q(x, y)]: the value of a bivariate polynomial in GF(q). *)
Fixpoint bieval (q : Z) (Q : bipoly) (x y : Z) : Z :=
  match Q with
  | [] => 0
  | r :: Q' => (eval q r x + y * bieval q Q' x y) mod q
  end.

(** [x] is in the right kernel of the matrix of rows [A] over GF(q). *)
Definition in_kernel (q : Z) (A : list row) (x : list Z) : Prop :=
  Forall (fun a => dot a x mod q = 0) A.

(** Pivot columns with their rows, in reduced echelon form: a row has 1 in
    its own pivot column and 0 in the pivot columns of the other rows. *)
Definition reduced (pd : list (nat * row)) : Prop :=
  NoDup (map fst pd) /\
  (forall cd, In cd pd -> entry (snd cd) (fst cd) = 1) /\
  (forall cd cd', In cd pd -> In cd' pd -> fst cd <> fst cd' ->
                  entry (snd cd) (fst cd') = 0).

(** The state of the elimination once the columns [processed] are done. *)
Definition echelon_state (q : Z) (nc : nat) (processed : list nat)
  (done todo : list row) (pivots : list nat) : Prop :=
  length pivots = length done /\
  Forall (fun r => length r = nc) (done ++ todo) /\
  Forall (in_field q) todo /\
  reduced (combine pivots done) /\
  (forall c, In c pivots -> In c processed) /\
  (forall r c, In r todo -> In c processed -> entry r c = 0).

(** The sum of the values of [t] over a list. *)
Definition zsum {X : Type} (t : X -> Z) (L : list X) : Z :=
  fold_right Z.add 0 (map t L).

(** The coefficient of [x^i y^j] in a bivariate polynomial. *)
Definition bicoeff (f : bipoly) (i j : nat) : Z := nth i (nth j f []) 0.

(** [f] is the polynomial [y - P(x)] over GF(q). *)
Definition is_y_minus (q : Z) (f : bipoly) (P : poly) : Prop :=
  forall i j,
    bicoeff f i j mod q =
    match j, i with
    | O, _ => (- nth i P 0) mod q
    | S O, O => 1 mod q
    | _, _ => 0
    end.

(** [f] is a polynomial in [y] alone over GF(q): no monomial with a
    positive power of [x] occurs. *)
Definition in_y_alone (q : Z) (f : bipoly) : Prop :=
  forall i j, bicoeff f (S i) j mod q = 0.

(** The coefficients of a polynomial in [y] alone, along [y]. *)
Definition along_y (f : bipoly) : list Z := map (fun r => nth 0 r 0) f.

(** The polynomial [p] is read from the factor [f]: [f] is [y - P(x)] and
    [p] is [P], or [f] is a polynomial in [y] alone and [p] is [y - f(y)]
    taken as a polynomial in [x]. *)
Definition read_from (q : Z) (f : bipoly) (p : poly) : Prop :=
  (exists P, is_y_minus q f P /\ p = ring q P) \/
  (in_y_alone q f /\ p = ring q (along_y (biadd y_gen (bineg f)))).

(** The numbers of coefficients of the rows [qij[j]]. *)
Definition row_lengths (k D : nat) : list nat :=
  map (fun j => D - k * j + 1)%nat (seq 0 (D / k + 1)).

(** The number of runs with the encoding length [key]. *)
Definition runs_with (key : nat) (todo : list (list Z * nat * Z * nat))
  : nat :=
  length (filter (fun run => (snd (fst (fst run)) =? key)%nat) todo).

(** The counters agree with the numbers [count] of runs. *)
Definition counted (count : nat -> nat) (results : list (nat * run_result))
  : Prop :=
  forall key,
    match lookup key results with
    | Some r => runs r = count key /\ (1 <= runs r)%nat /\
                (ud r <= runs r)%nat /\ (ld r <= runs r)%nat
    | None => count key = 0%nat
    end.

(** * Properties *)

(** ** Candidate filter *)

Lemma mismatches_cons q P x y pts :
  mismatches q P ((x, y) :: pts) =
  ((if negb (eqF q (eval q P x) y) then 1 else 0) + mismatches q P pts)%nat.
Proof.
  unfold mismatches; simpl.
  destruct (negb (eqF q (eval q P x) y)); reflexivity.
Qed.

(** Leaving the loop early does not change the verdict of the test that
    follows it. *)
Lemma count_errors_verdict q P pts t : forall c,
  (count_errors q P pts t c <=? t)%nat = (c + mismatches q P pts <=? t)%nat.
Proof.
  induction pts as [|[x y] pts IH]; intro c.
  - simpl. unfold mismatches. simpl. now rewrite Nat.add_0_r.
  - rewrite mismatches_cons. simpl.
    destruct (negb (eqF q (eval q P x) y)).
    + destruct (Nat.ltb_spec t (S c)) as [Hlt|Hge].
      * destruct (Nat.leb_spec (S c) t); [lia|].
        symmetry. apply Nat.leb_gt. lia.
      * rewrite IH. f_equal. lia.
    + rewrite IH. reflexivity.
Qed.

Lemma filter_loop q xs ys num_of_errors k factors : forall acc,
  fold_left
    (fun good_factors factor =>
       if Z.of_nat k <? degree q factor then good_factors
       else
         let current_errors :=
           count_errors q factor (combine xs ys) num_of_errors 0 in
         if (current_errors <=? num_of_errors)%nat
         then good_factors ++ [factor]
         else good_factors)
    factors acc =
  acc ++ filter (fun P => (degree q P <=? Z.of_nat k) &&
                          (mismatches q P (combine xs ys) <=? num_of_errors)%nat)
                factors.
Proof.
  induction factors as [|P factors IH]; intro acc; simpl.
  - now rewrite app_nil_r.
  - rewrite IH, count_errors_verdict. simpl.
    destruct (Z.ltb_spec (Z.of_nat k) (degree q P));
      destruct (Z.leb_spec (degree q P) (Z.of_nat k)); try lia; simpl;
      [reflexivity|].
    destruct (mismatches q P (combine xs ys) <=? num_of_errors)%nat;
      [now rewrite <- app_assoc | reflexivity].
Qed.

(** C5 (as the code has it): the filter keeps, in their order, exactly the
    polynomials of degree at most [k] (not: below [k]) that miss at most
    [num_of_errors] of the points; those of degree above [k] are dropped. *)
Theorem filter_keeps_degree_at_most_k q factors xs ys num_of_errors k :
  get_factors_with_less_errors q factors xs ys num_of_errors k =
  filter (fun P => (degree q P <=? Z.of_nat k) &&
                   (mismatches q P (combine xs ys) <=? num_of_errors)%nat)
         factors.
Proof.
  unfold get_factors_with_less_errors. now rewrite filter_loop.
Qed.

(** C5, counterexample: the polynomial [x], of degree 1, passes the filter
    with degree bound [k = 1]. *)
Lemma filter_keeps_degree_k :
  In [0; 1] (get_factors_with_less_errors 7 [[0; 1]] [0; 1] [0; 1] 0 1) /\
  ~ degree 7 [0; 1] < 1.
Proof.
  split; [vm_compute; auto | vm_compute; discriminate].
Qed.

(** ** The interpolation system of the list decoder *)

Lemma nth_map_seq {A : Type} (f : nat -> A) (n i : nat) (d : A) :
  (i < n)%nat -> nth i (map f (seq 0 n)) d = f i.
Proof.
  intro Hi.
  rewrite (nth_indep _ d (f 0%nat)) by now rewrite length_map, length_seq.
  rewrite map_nth, seq_nth by assumption. reflexivity.
Qed.

(** The special case of the source for a zero symbol and [j = 0] gives the
    value of the monomial under the convention [0^0 = 1]. *)
Lemma monomial_entry_value q alpha c i j :
  monomial_entry q alpha c i j =
  (Z.of_nat alpha ^ Z.of_nat i * c ^ Z.of_nat j) mod q.
Proof.
  unfold monomial_entry.
  destruct (eqF q c 0); simpl; [|reflexivity].
  destruct (Nat.eqb_spec j 0) as [->|]; [|reflexivity].
  now rewrite !Z.pow_0_r.
Qed.

Lemma list_equation_monomials q k D alpha c :
  list_equation q k D alpha c =
  map (fun ab => (Z.of_nat alpha ^ Z.of_nat (fst ab) * c ^ Z.of_nat (snd ab)) mod q)
      (monomials k D).
Proof.
  unfold list_equation, monomials.
  induction (seq 0 (D / k + 1)) as [|j js IH]; simpl; [reflexivity|].
  rewrite map_app, map_map, IH. f_equal.
  apply map_ext. intro i. apply monomial_entry_value.
Qed.

Lemma in_monomials k D a b :
  In (a, b) (monomials k D) <-> (b <= D / k /\ a <= D - k * b)%nat.
Proof.
  unfold monomials. rewrite in_flat_map. split.
  - intros (j & Hj & Hin). apply in_map_iff in Hin.
    destruct Hin as (i & Heq & Hi). inversion Heq; subst.
    apply in_seq in Hj, Hi. lia.
  - intros [Hb Ha]. exists b. split.
    + apply in_seq. lia.
    + apply in_map_iff. exists a. split; [reflexivity|]. apply in_seq. lia.
Qed.

Lemma NoDup_tagged (g : nat -> nat) : forall len s,
  NoDup (flat_map (fun j => map (fun i => (i, j)) (seq 0 (g j))) (seq s len)).
Proof.
  induction len as [|len IH]; intro s; simpl; [constructor|].
  apply NoDup_app.
  - apply NoDup_map_NoDup_ForallPairs; [|apply seq_NoDup].
    intros i i' _ _ Heq. now inversion Heq.
  - apply IH.
  - intros [a b] Hin Hin'.
    apply in_map_iff in Hin. destruct Hin as (i & Heq & _).
    inversion Heq; subst.
    apply in_flat_map in Hin'. destruct Hin' as (j & Hj & Hin').
    apply in_map_iff in Hin'. destruct Hin' as (i' & Heq' & _).
    inversion Heq'; subst. apply in_seq in Hj. lia.
Qed.

Lemma interpolation_degree_spec k n :
  let D := Z.of_nat (interpolation_degree k n) in
  D * D <= 2 * Z.of_nat k * Z.of_nat n < (D + 1) * (D + 1).
Proof.
  unfold interpolation_degree.
  assert (H : 0 <= 2 * Z.of_nat k * Z.of_nat n) by lia.
  pose proof (Z.sqrt_spec _ H) as Hs. simpl in Hs.
  pose proof (Z.sqrt_nonneg (2 * Z.of_nat k * Z.of_nat n)).
  simpl. rewrite Z2Nat.id by assumption. lia.
Qed.

(** C8: the list decoder takes [D = floor(sqrt(2 k n))] and, for each
    received point, builds one row with one coefficient per monomial
    [x^a y^b] with [b <= D/k] and [a <= D - k b], equal to the monomial at
    [(alpha, codeword[alpha])] with [0^0 = 1]; a zero symbol contributes 1 to
    the monomials [y^0]. *)
Theorem list_system_shape q codeword k (Hk : (1 <= k)%nat) :
  let n := length codeword in
  let D := interpolation_degree k n in
  (Z.of_nat D * Z.of_nat D <= 2 * Z.of_nat k * Z.of_nat n
     < (Z.of_nat D + 1) * (Z.of_nat D + 1)) /\
  length (list_equations q codeword k) = n /\
  NoDup (monomials k D) /\
  (forall a b, In (a, b) (monomials k D) <->
               (b <= D / k /\ a <= D - k * b)%nat) /\
  (forall alpha, (alpha < n)%nat ->
     nth alpha (list_equations q codeword k) [] =
     map (fun ab => (Z.of_nat alpha ^ Z.of_nat (fst ab) *
                     nth alpha codeword 0 ^ Z.of_nat (snd ab)) mod q)
         (monomials k D)) /\
  (forall alpha a, eqF q (nth alpha codeword 0) 0 = true ->
     monomial_entry q alpha (nth alpha codeword 0) a 0 =
     (Z.of_nat alpha ^ Z.of_nat a * 1) mod q).
Proof.
  intros n D.
  split; [apply interpolation_degree_spec|].
  split; [unfold list_equations; now rewrite length_map, length_seq|].
  split; [apply NoDup_tagged|].
  split; [intros a b; apply in_monomials|].
  split.
  - intros alpha Halpha. unfold list_equations.
    rewrite nth_map_seq by assumption. apply list_equation_monomials.
  - intros alpha a _. rewrite monomial_entry_value. now rewrite Z.pow_0_r.
Qed.

Lemma list_system_shape_witness :
  (1 <= 1)%nat /\
  length (list_equations 7 [0; 1] 1) = 2%nat.
Proof.
  split; [lia|].
  exact (proj1 (proj2 (list_system_shape 7 [0; 1] 1%nat (le_n 1)))).
Defined.

(** ** Polynomial evaluation *)

Lemma eval_peval q p x : eval q p x = peval p x mod q.
Proof.
  induction p as [|c p IH]; simpl; [now rewrite Zmod_0_l|].
  rewrite IH. rewrite Zplus_mod, Zmult_mod_idemp_r, <- Zplus_mod. reflexivity.
Qed.

Lemma eval_mod q p x : eval q p x mod q = eval q p x.
Proof. rewrite eval_peval. apply Zmod_mod. Qed.

Lemma peval_padd p r x : peval (padd p r) x = peval p x + peval r x.
Proof.
  revert r. induction p as [|a p IH]; intros [|b r]; simpl; try lia.
  rewrite IH. ring.
Qed.

Lemma peval_pscale a p x : peval (pscale a p) x = a * peval p x.
Proof.
  induction p as [|c p IH]; simpl; [ring|]. fold (pscale a p). rewrite IH. ring.
Qed.

Lemma peval_pmul p r x : peval (pmul p r) x = peval p x * peval r x.
Proof.
  induction p as [|a p IH]; simpl; [reflexivity|].
  rewrite peval_padd, peval_pscale. simpl. rewrite IH. ring.
Qed.

Lemma peval_strip p x : peval (strip p) x = peval p x.
Proof.
  induction p as [|c p IH]; simpl; [reflexivity|].
  destruct (strip p) as [|d r] eqn:Hs.
  - simpl in IH. rewrite <- IH.
    destruct (Z.eqb_spec c 0) as [->|]; simpl; ring.
  - simpl in *. rewrite IH. reflexivity.
Qed.

Lemma eval_map_mod q p x : eval q (map (fun c => c mod q) p) x = eval q p x.
Proof.
  induction p as [|c p IH]; simpl; [reflexivity|].
  rewrite IH. now rewrite Zplus_mod_idemp_l.
Qed.

Lemma eval_ring q p x : eval q (ring q p) x = eval q p x.
Proof.
  unfold ring. rewrite eval_peval, peval_strip, <- eval_peval.
  apply eval_map_mod.
Qed.

(** ** Coefficients and lengths *)

Lemma nth_strip p i : nth i (strip p) 0 = nth i p 0.
Proof.
  revert i. induction p as [|c p IH]; intro i; simpl; [reflexivity|].
  destruct (strip p) as [|d r] eqn:Hs.
  - destruct (Z.eqb_spec c 0) as [->|].
    + destruct i; simpl; [reflexivity|]. rewrite <- IH. now destruct i.
    + destruct i; simpl; [reflexivity|]. rewrite <- IH. now destruct i.
  - destruct i; simpl; [reflexivity|]. apply IH.
Qed.

Lemma length_strip p : (length (strip p) <= length p)%nat.
Proof.
  induction p as [|c p IH]; simpl; [lia|].
  destruct (strip p); [destruct (c =? 0)|]; simpl in *; lia.
Qed.

Lemma length_ring q p : (length (ring q p) <= length p)%nat.
Proof.
  unfold ring. etransitivity; [apply length_strip|]. now rewrite length_map.
Qed.

Lemma coeff_ring q l i : coeff (ring q l) i = nth i l 0 mod q.
Proof.
  unfold coeff, ring. rewrite nth_strip.
  change 0 with ((fun c => c mod q) 0) at 1. now rewrite map_nth.
Qed.

Lemma length_padd p r : length (padd p r) = Nat.max (length p) (length r).
Proof.
  revert r. induction p as [|a p IH]; intros [|b r]; simpl; try lia.
  now rewrite IH.
Qed.

Lemma length_basis_poly q xj others :
  length (basis_poly q xj others) = S (length others).
Proof.
  induction others as [|xm others IH]; simpl; [reflexivity|].
  rewrite !length_padd. unfold pscale. simpl.
  rewrite !length_padd, !length_map. simpl. rewrite IH. lia.
Qed.

Lemma length_lagrange_sum q pts : forall seen,
  (length (lagrange_sum q seen pts) <= length seen + length pts)%nat.
Proof.
  induction pts as [|[xj yj] rest IH]; intro seen; simpl; [lia|].
  rewrite length_padd. unfold pscale. rewrite length_map, length_basis_poly.
  rewrite length_app, length_map.
  specialize (IH (seen ++ [xj])). rewrite length_app in IH. simpl in IH. lia.
Qed.

Lemma combine_mod q y b s vb vs :
  b mod q = vb -> s mod q = vs -> (y * b + s) mod q = (y * vb + vs) mod q.
Proof.
  intros <- <-.
  rewrite Zplus_mod, Zmult_mod, (Zplus_mod (y * (b mod q))),
          (Zmult_mod y (b mod q)), !Zmod_mod.
  reflexivity.
Qed.

(** ** Lagrange interpolation over GF(q), [q] prime *)

Section Interpolation.

Variable q : Z.
Hypothesis Hq : Z.prime q.

Let modq := fun x : Z => x mod q.

Lemma prime_gt_1 : 1 < q.
Proof. pose proof (Z.prime_ge_2 q Hq). lia. Qed.

Lemma basis_step xj xm others x :
  peval (basis_poly q xj (xm :: others)) x =
  Z.invmod (xj - xm) q * (x - xm) * peval (basis_poly q xj others) x.
Proof.
  unfold basis_poly. cbn [fold_right].
  rewrite peval_pmul, peval_pscale. cbn [peval]. ring.
Qed.

Lemma basis_at_node xj others :
  ~ In (modq xj) (map modq others) ->
  peval (basis_poly q xj others) xj mod q = 1.
Proof.
  induction others as [|xm others IH]; intro Hnot.
  - cbn [basis_poly fold_right peval].
    replace (1 + xj * 0) with 1 by ring. apply Z.mod_1_l, prime_gt_1.
  - rewrite basis_step, Zmult_mod.
    rewrite IH by (intro; apply Hnot; now right).
    rewrite Z.invmod_prime; [apply Z.mod_1_l, prime_gt_1 | exact Hq |].
    intro H0. apply Z.cong_iff_0 in H0. apply Hnot. left. now symmetry.
Qed.

Lemma basis_at_other xj others x :
  In (modq x) (map modq others) ->
  peval (basis_poly q xj others) x mod q = 0.
Proof.
  induction others as [|xm others IH]; intro Hin; [destruct Hin|].
  rewrite basis_step. destruct Hin as [Heq|Hin].
  - replace (Z.invmod (xj - xm) q * (x - xm) * peval (basis_poly q xj others) x)
      with ((x - xm) * (Z.invmod (xj - xm) q * peval (basis_poly q xj others) x))
      by ring.
    rewrite Zmult_mod.
    assert (H0 : (x - xm) mod q = 0) by (apply Z.cong_iff_0; now symmetry).
    rewrite H0. apply Zmod_0_l.
  - rewrite Zmult_mod, (IH Hin), Z.mul_0_r. apply Zmod_0_l.
Qed.

(** The interpolating sum vanishes at the nodes already passed and takes
    the prescribed value at each remaining node. *)
Lemma lagrange_sum_at pts : forall seen,
  distinct_mod q (seen ++ map fst pts) ->
  (forall x, In (modq x) (map modq seen) ->
             peval (lagrange_sum q seen pts) x mod q = 0) /\
  (forall xi yi, In (xi, yi) pts ->
                 peval (lagrange_sum q seen pts) xi mod q = yi mod q).
Proof.
  unfold distinct_mod. fold modq.
  induction pts as [|[xj yj] rest IH]; intros seen Hd.
  - split; [intros; apply Zmod_0_l | intros ? ? []].
  - simpl in Hd.
    assert (Hd' : NoDup (map modq ((seen ++ [xj]) ++ map fst rest)))
      by (now rewrite <- app_assoc).
    destruct (IH _ Hd') as [IHA IHB].
    rewrite map_app in Hd. simpl in Hd.
    pose proof (NoDup_remove_2 _ _ _ Hd) as Hxj.
    rewrite <- map_app in Hxj.
    assert (Hseen : In (modq xj) (map modq (seen ++ [xj])))
      by (rewrite map_app; apply in_or_app; right; now left).
    split.
    + intros x Hx. simpl. rewrite peval_padd, peval_pscale.
      rewrite (combine_mod q yj _ _ 0 0).
      * rewrite Z.mul_0_r. apply Zmod_0_l.
      * apply basis_at_other. rewrite map_app. apply in_or_app. now left.
      * apply IHA. rewrite map_app. apply in_or_app. now left.
    + intros xi yi [Heq|Hin]; simpl; rewrite peval_padd, peval_pscale.
      * inversion Heq; subst xi yi.
        rewrite (combine_mod q yj _ _ 1 0);
          [f_equal; ring | now apply basis_at_node | now apply IHA].
      * rewrite (combine_mod q yj _ _ 0 (yi mod q)).
        -- rewrite Z.mul_0_r, Z.add_0_l. apply Zmod_mod.
        -- apply basis_at_other. rewrite map_app. apply in_or_app. right.
           apply (in_map fst) in Hin. apply (in_map modq) in Hin. exact Hin.
        -- now apply IHB.
Qed.

Lemma distinct_nodes_spec xs :
  distinct_nodes q xs = true <-> distinct_mod q xs.
Proof.
  unfold distinct_mod. induction xs as [|x xs IH]; simpl.
  - split; [constructor | reflexivity].
  - rewrite andb_true_iff, IH, forallb_forall. split.
    + intros [Hall Hnd]. constructor; [|assumption].
      intro Hin. apply in_map_iff in Hin. destruct Hin as (x' & Heq & Hin).
      specialize (Hall _ Hin). unfold eqF in Hall.
      apply negb_true_iff, Z.eqb_neq in Hall. congruence.
    + intro Hnd. inversion Hnd as [|? ? Hnot Hnd']; subst. split; [|assumption].
      intros x' Hin. unfold eqF. apply negb_true_iff, Z.eqb_neq.
      intro Heq. apply Hnot. rewrite Heq.
      apply (in_map (fun x => x mod q)), Hin.
Qed.

(** Whenever [lagrange_polynomial] returns, the polynomial has fewer
    coefficients than there are points and goes through each of them. *)
Lemma lagrange_polynomial_spec pts lp :
  lagrange_polynomial q pts = Returned lp ->
  (length lp <= length pts)%nat /\
  (forall xi yi, In (xi, yi) pts -> eval q lp xi = yi mod q).
Proof.
  unfold lagrange_polynomial.
  destruct (distinct_nodes q (map fst pts)) eqn:Hd; [|discriminate].
  intro H. inversion H; subst lp. clear H.
  apply distinct_nodes_spec in Hd. split.
  - etransitivity; [apply length_ring|].
    apply (length_lagrange_sum q pts []).
  - intros xi yi Hin. rewrite eval_ring, eval_peval.
    now apply (proj2 (lagrange_sum_at pts [] Hd)).
Qed.

(** It returns as soon as the nodes are distinct. *)
Lemma lagrange_polynomial_returns pts :
  distinct_mod q (map fst pts) ->
  exists lp, lagrange_polynomial q pts = Returned lp.
Proof.
  intro Hd. unfold lagrange_polynomial.
  apply distinct_nodes_spec in Hd. rewrite Hd. eauto.
Qed.

End Interpolation.

(** ** Encoder *)

Lemma in_combine_seq (msg : list Z) : forall s i,
  (i < length msg)%nat ->
  In (Z.of_nat (s + i), nth i msg 0)
     (combine (map Z.of_nat (seq s (length msg))) msg).
Proof.
  induction msg as [|m msg IH]; intros s i Hi; simpl in *; [lia|].
  destruct i as [|i].
  - left. now rewrite Nat.add_0_r.
  - right. replace (s + S i)%nat with (S s + i)%nat by lia.
    apply IH. lia.
Qed.

Lemma in_combine_range (msg : list Z) i :
  (i < length msg)%nat ->
  In (Z.of_nat i, nth i msg 0) (combine (range (length msg)) msg).
Proof. intro Hi. exact (in_combine_seq msg 0 i Hi). Qed.

Lemma map_fst_combine {A B : Type} (l : list A) : forall (l' : list B),
  length l = length l' -> map fst (combine l l') = l.
Proof.
  induction l as [|a l IH]; intros [|b l'] Hlen; simpl in *;
    try discriminate; [reflexivity|].
  now rewrite IH by lia.
Qed.

Lemma length_range n : length (range n) = n.
Proof. unfold range. now rewrite length_map, length_seq. Qed.

Lemma in_range n x : In x (range n) <-> 0 <= x < Z.of_nat n.
Proof.
  unfold range. rewrite in_map_iff. split.
  - intros (i & <- & Hi). apply in_seq in Hi. lia.
  - intro Hx. exists (Z.to_nat x). split; [lia|]. apply in_seq. lia.
Qed.

Lemma NoDup_range n : NoDup (range n).
Proof.
  unfold range. apply NoDup_map_NoDup_ForallPairs; [|apply seq_NoDup].
  intros i j _ _ Heq. lia.
Qed.

Lemma nth_map_range (f : Z -> Z) n i :
  (i < n)%nat -> nth i (map f (range n)) 0 = f (Z.of_nat i).
Proof.
  intro Hi. unfold range. rewrite map_map.
  now apply (nth_map_seq (fun x => f (Z.of_nat x))).
Qed.

(** Integers of [0, q) that are distinct stay distinct in GF(q). *)
Lemma distinct_mod_small q xs :
  NoDup xs -> Forall (fun x => 0 <= x < q) xs -> distinct_mod q xs.
Proof.
  intros Hnd Hall. unfold distinct_mod.
  replace (map (fun x => x mod q) xs) with xs; [assumption|].
  rewrite <- (map_id xs) at 1. apply map_ext_in.
  intros x Hx. rewrite Forall_forall in Hall.
  symmetry. apply Z.mod_small. auto.
Qed.

Lemma distinct_mod_range q k : Z.of_nat k <= q -> distinct_mod q (range k).
Proof.
  intro Hk. apply distinct_mod_small; [apply NoDup_range|].
  apply Forall_forall. intros x Hx. apply in_range in Hx. lia.
Qed.

(** The codeword polynomial carries the values of the interpolating
    polynomial [lp] as its coefficients. *)
Lemma rs_encoder_inv q msg n cw :
  rs_encoder q msg n = Returned cw ->
  exists lp,
    lagrange_polynomial q (combine (range (length msg)) msg) = Returned lp /\
    cw = ring q (map (fun a => eval q lp a) (range n)) /\
    (forall i, (i < n)%nat -> coeff cw i = eval q lp (Z.of_nat i)).
Proof.
  unfold rs_encoder.
  destruct (lagrange_polynomial q (combine (range (length msg)) msg))
    as [lp|e] eqn:Hlp; simpl; [|discriminate].
  intro H. inversion H; subst cw. exists lp. repeat split.
  intros i Hi. rewrite coeff_ring, nth_map_range by assumption.
  apply eval_mod.
Qed.

Lemma rs_encoder_returns q msg n :
  Z.prime q -> Z.of_nat (length msg) <= q ->
  exists cw, rs_encoder q msg n = Returned cw.
Proof.
  intros Hq Hkq.
  destruct (lagrange_polynomial_returns q (combine (range (length msg)) msg))
    as [lp Hlp].
  - rewrite map_fst_combine by apply length_range.
    now apply distinct_mod_range.
  - unfold rs_encoder. rewrite Hlp. simpl. eauto.
Qed.

(** C10: the codeword agrees with the message on its first [k] positions;
    the encoder returns a codeword whenever the [k] nodes are distinct in
    GF(q). *)
Theorem encoder_systematic q msg n
  (Hq : Z.prime q) (Hmsg : in_field q msg)
  (Hk : (1 <= length msg)%nat) (Hn : (length msg <= n)%nat) :
  (Z.of_nat (length msg) <= q -> exists cw, rs_encoder q msg n = Returned cw) /\
  (forall cw, rs_encoder q msg n = Returned cw ->
     forall i, (i < length msg)%nat -> coeff cw i = nth i msg 0).
Proof.
  split; [now apply rs_encoder_returns|].
  intros cw Hcw i Hi.
  destruct (rs_encoder_inv _ _ _ _ Hcw) as (lp & Hlp & _ & Hcoeff).
  rewrite Hcoeff by lia.
  destruct (lagrange_polynomial_spec q Hq _ _ Hlp) as [_ Hval].
  rewrite (Hval _ _ (in_combine_range msg i Hi)).
  apply Z.mod_small. unfold in_field in Hmsg. rewrite Forall_forall in Hmsg.
  apply Hmsg, nth_In, Hi.
Qed.

Lemma prime_7 : Z.prime 7.
Proof.
  split; [lia|]. intros n Hn [c Hc].
  assert (0 < c < 7) by nia.
  assert (Hcases : c = 1 \/ c = 2 \/ c = 3 \/ c = 4 \/ c = 5 \/ c = 6) by lia.
  destruct Hcases as [->|[->|[->|[->|[->| ->]]]]]; lia.
Qed.

Lemma encoder_systematic_witness :
  exists cw, rs_encoder 7 [1; 2; 3] 6 = Returned cw /\
             coeff cw 0 = 1 /\ coeff cw 1 = 2 /\ coeff cw 2 = 3.
Proof.
  assert (Hf : in_field 7 [1; 2; 3]) by (repeat constructor; lia).
  assert (Hk : (1 <= length [1; 2; 3])%nat) by (simpl; lia).
  assert (Hn : (length [1; 2; 3] <= 6)%nat) by (simpl; lia).
  destruct (encoder_systematic 7 [1; 2; 3] 6%nat prime_7 Hf Hk Hn)
    as [Hret Hval].
  destruct Hret as [cw Hcw]; [simpl; lia|].
  exists cw. split; [exact Hcw|].
  repeat split.
  - apply (Hval cw Hcw 0%nat). simpl; lia.
  - apply (Hval cw Hcw 1%nat). simpl; lia.
  - apply (Hval cw Hcw 2%nat). simpl; lia.
Defined.

(** C3 (as the code has it): the symbol at the point [i] is the value at
    [i] of the polynomial of degree below [k] that takes the value [msg[j]]
    at each [j < k], for every [i < n]. *)
Theorem encoder_evaluates_interpolant q msg n
  (Hq : Z.prime q) (Hmsg : in_field q msg) (Hn : (length msg < n)%nat) :
  (Z.of_nat (length msg) <= q -> exists cw, rs_encoder q msg n = Returned cw) /\
  (forall cw, rs_encoder q msg n = Returned cw ->
     exists p,
       (length p <= length msg)%nat /\
       (forall j, (j < length msg)%nat -> eval q p (Z.of_nat j) = nth j msg 0) /\
       (forall i, (i < n)%nat -> coeff cw i = eval q p (Z.of_nat i))).
Proof.
  split; [now apply rs_encoder_returns|].
  intros cw Hcw.
  destruct (rs_encoder_inv _ _ _ _ Hcw) as (lp & Hlp & _ & Hcoeff).
  destruct (lagrange_polynomial_spec q Hq _ _ Hlp) as [Hlen Hval].
  exists lp. split; [|split; [|exact Hcoeff]].
  - rewrite length_combine, length_range, Nat.min_id in Hlen. exact Hlen.
  - intros j Hj. rewrite (Hval _ _ (in_combine_range msg j Hj)).
    apply Z.mod_small. unfold in_field in Hmsg. rewrite Forall_forall in Hmsg.
    apply Hmsg, nth_In, Hj.
Qed.

Lemma encoder_evaluates_interpolant_witness :
  exists cw, rs_encoder 7 [1; 2; 3] 6 = Returned cw.
Proof.
  assert (Hf : in_field 7 [1; 2; 3]) by (repeat constructor; lia).
  assert (Hn : (length [1; 2; 3] < 6)%nat) by (simpl; lia).
  apply (proj1 (encoder_evaluates_interpolant 7 [1; 2; 3] 6%nat prime_7 Hf Hn)).
  simpl; lia.
Defined.

(** C3, counterexample: in GF(7) the message [1, 2, 3] has the symbol 2 at
    the point 1, and coefficient-form value 1 + 2 + 3 = 6. *)
Lemma encoder_not_coefficient_form :
  exists cw, rs_encoder 7 [1; 2; 3] 6 = Returned cw /\
             coeff cw 1 = 2 /\ coefficient_form 7 [1; 2; 3] 1 = 6.
Proof. exists [1; 2; 3; 4; 5; 6]. vm_compute. auto. Qed.

Lemma strip_snoc l c :
  strip (l ++ [c]) = if c =? 0 then strip l else l ++ [c].
Proof.
  induction l as [|a l IH]; cbn [app strip].
  - destruct (c =? 0); reflexivity.
  - rewrite IH. destruct (c =? 0); [reflexivity|]. now destruct l.
Qed.

Lemma range_succ m : range (S m) = range m ++ [Z.of_nat m].
Proof. unfold range. now rewrite seq_S, map_app. Qed.

(** X19: the codeword polynomial has [n] coefficients exactly when the
    evaluation at the last point is not zero. *)
Lemma encoder_length q msg m cw :
  rs_encoder q msg (S m) = Returned cw ->
  exists lp,
    lagrange_polynomial q (combine (range (length msg)) msg) = Returned lp /\
    (length (coeffs cw) <= S m)%nat /\
    (length (coeffs cw) = S m <-> eval q lp (Z.of_nat m) <> 0).
Proof.
  intro Hcw.
  destruct (rs_encoder_inv _ _ _ _ Hcw) as (lp & Hlp & -> & _).
  exists lp. split; [exact Hlp|]. unfold coeffs.
  assert (Hle : (length (ring q (map (fun a => eval q lp a) (range (S m))))
                 <= S m)%nat).
  { etransitivity; [apply length_ring|].
    now rewrite length_map, length_range. }
  split; [exact Hle|].
  unfold ring in *. rewrite range_succ, !map_app in *. cbn [map] in *.
  rewrite eval_mod in *. rewrite strip_snoc in *.
  destruct (Z.eqb_spec (eval q lp (Z.of_nat m)) 0) as [H0|H0].
  - split; [|contradiction]. intro Hlen.
    pose proof (length_strip
                  (map (fun c => c mod q)
                       (map (fun a => eval q lp a) (range m)))) as Hs.
    rewrite !length_map, length_range in Hs. lia.
  - split; [auto|]. intros _.
    rewrite length_app, !length_map, length_range. cbn. lia.
Qed.

Lemma encoder_length_witness :
  exists lp,
    lagrange_polynomial 7 (combine (range (length [2; 1])) [2; 1]) =
      Returned lp /\
    Nat.le (length (coeffs ([2; 1]%Z : list Z))) 3 /\
    (length (coeffs ([2; 1]%Z : list Z)) = 3%nat <->
     eval 7 lp (Z.of_nat 2) <> 0).
Proof.
  assert (H : rs_encoder 7 [2; 1] 3 = Returned [2; 1]) by reflexivity.
  exact (encoder_length 7 [2; 1] 2 [2; 1] H).
Defined.

(** C9, at the failing input: the message [2, 1] over GF(7) has the
    evaluations 2, 1, 0 at the points 0, 1, 2, and the codeword returned
    for [n = 3] has two coefficients. *)
Theorem encoder_drops_trailing_zero :
  map (fun a => eval 7 [2; 6] a) (range 3) = [2; 1; 0] /\
  exists cw, rs_encoder 7 [2; 1] 3 = Returned cw /\
             length (coeffs cw) = 2%nat.
Proof.
  split; [reflexivity|]. exists [2; 1]. vm_compute. auto.
Qed.

(** ** Linear systems: the solver returns a solution whenever there is one *)

Lemma dot_cons a r b u : dot (a :: r) (b :: u) = a * b + dot r u.
Proof. reflexivity. Qed.

Lemma dot_nil_l u : dot [] u = 0.
Proof. reflexivity. Qed.

Lemma dot_nil_r r : dot r [] = 0.
Proof. destruct r; reflexivity. Qed.

Lemma dot_padd r1 r2 x : dot (padd r1 r2) x = dot r1 x + dot r2 x.
Proof.
  revert r2 x. induction r1 as [|a r1 IH]; intros [|b r2] [|c x];
    cbn [padd]; rewrite ?dot_nil_l, ?dot_nil_r; try lia.
  rewrite !dot_cons, IH. ring.
Qed.

Lemma dot_pscale a r x : dot (pscale a r) x = a * dot r x.
Proof.
  revert x. induction r as [|b r IH]; intros [|c x]; try (cbn; ring).
  cbn [pscale map]. fold (pscale a r). rewrite !dot_cons, IH. ring.
Qed.

Lemma dot_map_mod q r x :
  dot (map (fun c => c mod q) r) x mod q = dot r x mod q.
Proof.
  revert x. induction r as [|b r IH]; intros [|c x]; try reflexivity.
  cbn [map]. rewrite !dot_cons.
  rewrite Zplus_mod, IH, Zmult_mod_idemp_l, <- Zplus_mod. reflexivity.
Qed.

Lemma dot_scale_mod q a r x :
  dot (map (fun c => (a * c) mod q) r) x mod q = (a * dot r x) mod q.
Proof.
  rewrite <- dot_pscale. unfold pscale.
  rewrite <- (dot_map_mod q (map (Z.mul a) r)), map_map. reflexivity.
Qed.

(** The unknown of a column without pivot does not occur. *)
Lemma dot_tail q r xc xt :
  hd 0 r mod q = 0 -> dot r (xc :: xt) mod q = dot (tl r) xt mod q.
Proof.
  destruct r as [|h t]; intro Hh; [reflexivity|].
  cbn [hd tl] in *. rewrite dot_cons.
  rewrite Zplus_mod, Zmult_mod, Hh, Z.mul_0_l, Zmod_0_l, Z.add_0_l.
  apply Zmod_mod.
Qed.

Lemma dot_head r xc xt :
  dot r (xc :: xt) = hd 0 r * xc + dot (tl r) xt.
Proof. destruct r as [|h t]; [reflexivity|]. apply dot_cons. Qed.

Lemma find_pivot_equation_none q rows :
  find_pivot_equation q rows = None ->
  Forall (fun r => head_entry r mod q = 0) rows.
Proof.
  induction rows as [|r rows IH]; intro H; [constructor|].
  cbn [find_pivot_equation] in H.
  destruct (Z.eqb_spec (head_entry r mod q) 0) as [H0|]; [|discriminate].
  constructor; [assumption|]. apply IH.
  destruct (find_pivot_equation q rows) as [[[? ?] ?]|]; [discriminate|reflexivity].
Qed.

Lemma find_pivot_equation_some q rows b p a :
  find_pivot_equation q rows = Some (b, p, a) ->
  head_entry p mod q <> 0 /\
  (forall P : equation -> Prop,
     Forall P rows <-> P p /\ Forall P (b ++ a)).
Proof.
  revert b. induction rows as [|r rows IH]; intros b H; [discriminate|].
  cbn [find_pivot_equation] in H.
  destruct (Z.eqb_spec (head_entry r mod q) 0) as [H0|H0].
  - destruct (find_pivot_equation q rows) as [[[b' p'] a']|]; [|discriminate].
    inversion H; subst. destruct (IH b' eq_refl) as [Hp Hall].
    split; [assumption|]. intro P. cbn [app].
    rewrite !Forall_cons_iff, Hall. tauto.
  - inversion H; subst. split; [assumption|]. intro P. cbn [app].
    rewrite Forall_cons_iff. tauto.
Qed.

Section Solver.

Variable q : Z.
Hypothesis Hq : Z.prime q.

(** The normalised pivot equation has first coefficient 1 and the same
    solutions. *)
Lemma normalize_head p :
  head_entry p mod q <> 0 ->
  head_entry (normalize_equation q p) mod q = 1.
Proof.
  intro Hp. unfold normalize_equation, head_entry in *. cbn [fst].
  destruct (fst p) as [|h t]; cbn [hd map] in *.
  - now rewrite Zmod_0_l in Hp.
  - rewrite Zmod_mod. now apply Z.invmod_prime.
Qed.

Lemma sat_normalize p x :
  head_entry p mod q <> 0 ->
  (sat q x (normalize_equation q p) <-> sat q x p).
Proof.
  intro Hp. unfold sat, normalize_equation. cbn [fst snd].
  rewrite dot_scale_mod, Zmod_mod.
  set (inv := Z.invmod (head_entry p) q).
  assert (Hinv : (inv * head_entry p) mod q = 1)
    by now apply Z.invmod_prime.
  split; intro H.
  - assert (H' : (head_entry p * (inv * dot (fst p) x)) mod q =
                 (head_entry p * (inv * snd p)) mod q)
      by (rewrite Zmult_mod, H, <- Zmult_mod; reflexivity).
    replace (head_entry p * (inv * dot (fst p) x))
      with (inv * head_entry p * dot (fst p) x) in H' by ring.
    replace (head_entry p * (inv * snd p))
      with (inv * head_entry p * snd p) in H' by ring.
    rewrite Zmult_mod, Hinv, Z.mul_1_l, Zmod_mod in H'.
    rewrite (Zmult_mod (inv * head_entry p)), Hinv, Z.mul_1_l, Zmod_mod in H'.
    exact H'.
  - rewrite Zmult_mod, H, <- Zmult_mod. reflexivity.
Qed.

(** With [p] normalised and satisfied by [xc :: xt], the equation [r] and
    the equation obtained by eliminating the first unknown have the same
    solutions. *)
Lemma sat_eliminate p r xc xt :
  head_entry p mod q = 1 ->
  sat q (xc :: xt) p ->
  (sat q xt (eliminate_equation q p r) <-> sat q (xc :: xt) r).
Proof.
  unfold sat, eliminate_equation, head_entry. cbn [fst snd].
  intros Hp1 Hp.
  rewrite dot_map_mod, dot_padd, dot_pscale, Zmod_mod.
  rewrite dot_head in Hp. rewrite dot_head.
  set (h := hd 0 (fst r)) in *. set (hp := hd 0 (fst p)) in *.
  set (dr := dot (tl (fst r)) xt) in *. set (dp := dot (tl (fst p)) xt) in *.
  assert (Hdp : dp mod q = (snd p - xc) mod q).
  { apply Z.cong_iff_0. apply Z.cong_iff_0 in Hp.
    replace (dp - (snd p - xc)) with ((hp * xc + dp - snd p) - (hp - 1) * xc)
      by ring.
    rewrite Zminus_mod, Hp, Z.sub_0_l.
    rewrite Zmult_mod, Zminus_mod, Hp1, Z.mod_1_l by apply (prime_gt_1 q Hq).
    rewrite Z.sub_diag. reflexivity. }
  assert (Hlhs : (dr + - h * dp) mod q = (dr - h * (snd p - xc)) mod q).
  { rewrite Zplus_mod, (Zmult_mod (- h)), Hdp, <- Zmult_mod, <- Zplus_mod.
    f_equal. ring. }
  rewrite Hlhs, !Z.cong_iff_0.
  replace (dr - h * (snd p - xc) - (snd r - h * snd p))
    with (h * xc + dr - snd r) by ring.
  reflexivity.
Qed.

Lemma solve_equations_sound ncols : forall rows x,
  solve_equations q ncols rows = Some x ->
  length x = ncols /\ Forall (sat q x) rows.
Proof.
  induction ncols as [|ncols IH]; intros rows x H; cbn [solve_equations] in H.
  - destruct (forallb (fun r : list Z * Z => snd r mod q =? 0) rows) eqn:Hall;
      [|discriminate].
    inversion H; subst. split; [reflexivity|].
    apply Forall_forall. intros r Hr.
    rewrite forallb_forall in Hall. specialize (Hall r Hr).
    apply Z.eqb_eq in Hall. unfold sat. rewrite dot_nil_r, Hall.
    apply Zmod_0_l.
  - destruct (find_pivot_equation q rows) as [[[b p] a]|] eqn:Hpiv.
    + destruct (find_pivot_equation_some q rows b p a Hpiv) as [Hp Hrows].
      set (p' := normalize_equation q p) in *.
      destruct (solve_equations q ncols (map (eliminate_equation q p') (b ++ a)))
        as [x'|] eqn:Hrec; [|discriminate].
      inversion H; subst x. clear H.
      destruct (IH _ _ Hrec) as [Hlen Hsat].
      split; [cbn; now rewrite Hlen|].
      pose proof (normalize_head p Hp) as Hp1. fold p' in Hp1.
      assert (Hsp : sat q ((snd p' - dot (tl (fst p')) x') mod q :: x') p').
      { unfold sat. rewrite dot_head.
        fold (head_entry p').
        rewrite Zplus_mod, Zmult_mod, Hp1, Zmod_mod, Z.mul_1_l, Zmod_mod.
        rewrite <- Zplus_mod. f_equal. ring. }
      apply Hrows. split.
      * now apply (sat_normalize p _ Hp).
      * apply Forall_forall. intros r Hr.
        apply (sat_eliminate p' r _ _ Hp1 Hsp).
        rewrite Forall_forall in Hsat. apply Hsat. now apply in_map.
    + destruct (solve_equations q ncols (map tail_equation rows))
        as [x'|] eqn:Hrec; [|discriminate].
      cbn in H. inversion H; subst x. clear H.
      destruct (IH _ _ Hrec) as [Hlen Hsat].
      split; [cbn; now rewrite Hlen|].
      pose proof (find_pivot_equation_none q rows Hpiv) as Hz.
      apply Forall_forall. intros r Hr.
      rewrite Forall_forall in Hz, Hsat.
      unfold sat. rewrite dot_tail by apply (Hz r Hr).
      apply (Hsat (tail_equation r)). now apply in_map.
Qed.

Lemma solve_equations_complete ncols : forall rows x,
  length x = ncols -> Forall (sat q x) rows ->
  exists x', solve_equations q ncols rows = Some x'.
Proof.
  induction ncols as [|ncols IH]; intros rows x Hlen Hsat;
    cbn [solve_equations].
  - destruct x; [|discriminate].
    replace (forallb (fun r => snd r mod q =? 0) rows) with true; [eauto|].
    symmetry. apply forallb_forall. intros r Hr.
    rewrite Forall_forall in Hsat. specialize (Hsat r Hr).
    unfold sat in Hsat. rewrite dot_nil_r, Zmod_0_l in Hsat.
    apply Z.eqb_eq. now symmetry.
  - destruct x as [|xc xt]; [discriminate|].
    assert (Hlt : length xt = ncols) by (cbn in Hlen; lia).
    destruct (find_pivot_equation q rows) as [[[b p] a]|] eqn:Hpiv.
    + destruct (find_pivot_equation_some q rows b p a Hpiv) as [Hp Hrows].
      set (p' := normalize_equation q p) in *.
      apply Hrows in Hsat. destruct Hsat as [Hsp Hsat].
      pose proof (normalize_head p Hp) as Hp1. fold p' in Hp1.
      apply (sat_normalize p _ Hp) in Hsp. fold p' in Hsp.
      destruct (IH (map (eliminate_equation q p') (b ++ a)) xt Hlt) as [x' Hx'].
      * apply Forall_forall. intros r' Hr'. apply in_map_iff in Hr'.
        destruct Hr' as (r & <- & Hr).
        apply (sat_eliminate p' r xc xt Hp1 Hsp).
        rewrite Forall_forall in Hsat. now apply Hsat.
      * rewrite Hx'. eauto.
    + pose proof (find_pivot_equation_none q rows Hpiv) as Hz.
      destruct (IH (map tail_equation rows) xt Hlt) as [x' Hx'].
      * apply Forall_forall. intros r' Hr'. apply in_map_iff in Hr'.
        destruct Hr' as (r & <- & Hr).
        rewrite Forall_forall in Hz, Hsat.
        specialize (Hsat r Hr). unfold sat in *.
        rewrite dot_tail in Hsat by apply (Hz r Hr). exact Hsat.
      * rewrite Hx'. cbn. eauto.
Qed.

End Solver.

(** ** Roots of a polynomial over GF(q) *)

Lemma sdiv_spec x0 N x :
  peval N x = (x - x0) * peval (sdiv x0 N) x + peval N x0.
Proof.
  induction N as [|a N IH]; [cbn [sdiv peval]; ring|].
  destruct N as [|b N]; [cbn [sdiv peval]; ring|].
  change (sdiv x0 (a :: b :: N))
    with (peval (b :: N) x0 :: sdiv x0 (b :: N)).
  remember (b :: N) as N' eqn:HN'. clear HN'.
  cbn [peval]. rewrite IH. ring.
Qed.

Lemma length_sdiv x0 N : length (sdiv x0 N) = pred (length N).
Proof.
  induction N as [|a N IH]; [reflexivity|].
  destruct N as [|b N]; [reflexivity|].
  cbn [sdiv length] in *. now rewrite IH.
Qed.

Lemma zero_mod_sdiv q x0 N :
  zero_mod q (sdiv x0 N) -> peval N x0 mod q = 0 -> zero_mod q N.
Proof.
  unfold zero_mod. induction N as [|a N IH]; intros Hs H0; [constructor|].
  destruct N as [|b N].
  - constructor; [|constructor]. cbn in H0.
    now rewrite Z.mul_0_r, Z.add_0_r in H0.
  - cbn [sdiv] in Hs. inversion Hs as [|? ? Hhead Htail]; subst.
    specialize (IH Htail Hhead).
    constructor; [|assumption].
    cbn [peval] in H0, Hhead.
    rewrite Zplus_mod, (Zmult_mod x0), Hhead, Z.mul_0_r, Zmod_0_l, Z.add_0_r,
      Zmod_mod in H0.
    exact H0.
Qed.

Lemma zero_mod_peval q N x : zero_mod q N -> peval N x mod q = 0.
Proof.
  unfold zero_mod. induction 1 as [|c N Hc _ IH]; [reflexivity|].
  cbn [peval]. rewrite Zplus_mod, Hc, Zmult_mod, IH, Z.mul_0_r, Zmod_0_l.
  reflexivity.
Qed.

Section Roots.

Variable q : Z.
Hypothesis Hq : Z.prime q.

(** GF(q) has no zero divisors. *)
Lemma mul_mod_zero a b :
  (a * b) mod q = 0 -> a mod q <> 0 -> b mod q = 0.
Proof.
  intros Hab Ha.
  pose proof (Z.invmod_prime a q Hq Ha) as Hinv.
  assert (E : b mod q = (Z.invmod a q * (a * b)) mod q).
  { replace (Z.invmod a q * (a * b)) with (Z.invmod a q * a * b) by ring.
    now rewrite Zmult_mod, Hinv, Z.mul_1_l, Zmod_mod. }
  rewrite E, Zmult_mod, Hab, Z.mul_0_r. apply Zmod_0_l.
Qed.

(** A polynomial with as many roots, distinct in GF(q), as it has
    coefficients is zero. *)
Lemma roots_bound roots : forall N,
  distinct_mod q roots ->
  (length N <= length roots)%nat ->
  (forall x, In x roots -> peval N x mod q = 0) ->
  zero_mod q N.
Proof.
  unfold distinct_mod.
  induction roots as [|x0 roots IH]; intros N Hd Hlen Hroots.
  - destruct N; [constructor | cbn in Hlen; lia].
  - cbn [map] in Hd. inversion Hd as [|? ? Hnot Hd']; subst.
    assert (H0 : peval N x0 mod q = 0) by (apply Hroots; now left).
    apply (zero_mod_sdiv q x0); [|assumption].
    apply IH; [assumption | rewrite length_sdiv; cbn in Hlen; lia |].
    intros x Hx.
    apply (mul_mod_zero (x - x0)).
    + pose proof (sdiv_spec x0 N x) as Hs.
      assert (Hx0 : peval N x mod q = 0) by (apply Hroots; now right).
      rewrite Hs, Zplus_mod, H0, Z.add_0_r, Zmod_mod in Hx0. exact Hx0.
    + intro Heq. apply Z.cong_iff_0 in Heq. apply Hnot.
      rewrite <- Heq. now apply (in_map (fun x => x mod q)).
Qed.

End Roots.

(** ** Remainder by a monic polynomial *)

Lemma pmod_cons q c p e : pmod q (c :: p) e = pstep q e c (pmod q p e).
Proof. reflexivity. Qed.

Lemma nth_repeat_0 n i : nth i (repeat 0 n) 0 = 0.
Proof.
  revert i. induction n as [|n IH]; intros [|i]; cbn; auto.
Qed.

Section Remainder.

Variable q : Z.

(** The divisor: a monic polynomial of degree [d]. *)
Variable low : list Z.
Let e : poly := low ++ [1].
Let d : nat := length low.

Lemma length_e : (length e - 1)%nat = d.
Proof. unfold e, d. rewrite length_app. cbn. lia. Qed.

Lemma nth_e_top : nth d e 0 = 1.
Proof. unfold e, d. now rewrite nth_middle. Qed.

Lemma length_pstep c R : length R = d -> length (pstep q e c R) = d.
Proof.
  intro HR. unfold pstep, sub_row. rewrite length_e.
  rewrite length_firstn, length_map, length_combine.
  cbn [length]. rewrite HR. unfold e. rewrite length_app. cbn [length].
  unfold d. lia.
Qed.

Lemma nth_pstep c R i :
  length R = d -> (i < d)%nat ->
  nth i (pstep q e c R) 0 =
  (nth i (c mod q :: R) 0 - nth d (c mod q :: R) 0 * nth i e 0) mod q.
Proof.
  intros HR Hi. unfold pstep, sub_row. rewrite length_e.
  rewrite nth_firstn.
  destruct (Nat.ltb_spec i d) as [_|]; [|lia].
  set (top := nth d (c mod q :: R) 0).
  set (f := fun xy : Z * Z => (fst xy - top * snd xy) mod q).
  assert (Hf : f (0, 0) = 0) by (unfold f; cbn; now rewrite Z.mul_0_r).
  rewrite <- Hf at 1. rewrite map_nth, combine_nth.
  - reflexivity.
  - cbn [length]. rewrite HR. unfold e. rewrite length_app. cbn [length].
    unfold d. lia.
Qed.

Lemma length_pmod p : length (pmod q p e) = d.
Proof.
  induction p as [|c p IH].
  - cbn [pmod]. now rewrite length_e, repeat_length.
  - rewrite pmod_cons. now apply length_pstep.
Qed.

Lemma length_vadd R1 R2 :
  length R1 = d -> length R2 = d -> length (vadd q R1 R2) = d.
Proof.
  intros H1 H2. unfold vadd. rewrite length_map, length_combine. lia.
Qed.

Lemma nth_vadd R1 R2 i :
  length R1 = length R2 ->
  nth i (vadd q R1 R2) 0 = (nth i R1 0 + nth i R2 0) mod q.
Proof.
  intro Hlen. unfold vadd.
  set (f := fun xy : Z * Z => (fst xy + snd xy) mod q).
  assert (Hf : f (0, 0) = 0) by reflexivity.
  rewrite <- Hf at 1. rewrite map_nth, combine_nth by assumption.
  reflexivity.
Qed.

Lemma nth_cons_vadd c1 c2 R1 R2 i :
  length R1 = length R2 ->
  nth i ((c1 + c2) mod q :: vadd q R1 R2) 0 =
  (nth i (c1 mod q :: R1) 0 + nth i (c2 mod q :: R2) 0) mod q.
Proof.
  intro Hlen. destruct i as [|i]; cbn [nth].
  - apply Zplus_mod.
  - now apply nth_vadd.
Qed.

(** The step is additive. *)
Lemma pstep_add c1 c2 R1 R2 :
  length R1 = d -> length R2 = d ->
  pstep q e (c1 + c2) (vadd q R1 R2) =
  vadd q (pstep q e c1 R1) (pstep q e c2 R2).
Proof.
  intros H1 H2.
  apply (nth_ext _ _ 0 0).
  - rewrite length_pstep by now apply length_vadd.
    rewrite length_vadd; [reflexivity | now apply length_pstep ..].
  - intros i Hi.
    rewrite length_pstep in Hi by now apply length_vadd.
    rewrite nth_pstep by (try apply length_vadd; assumption).
    rewrite nth_vadd by now rewrite !length_pstep.
    rewrite !nth_pstep by assumption.
    rewrite !nth_cons_vadd by congruence.
    set (u1 := nth i (c1 mod q :: R1) 0). set (u2 := nth i (c2 mod q :: R2) 0).
    set (t1 := nth d (c1 mod q :: R1) 0). set (t2 := nth d (c2 mod q :: R2) 0).
    set (y := nth i e 0).
    rewrite <- Zplus_mod.
    rewrite Zminus_mod, Zmod_mod, Zmult_mod_idemp_l, <- Zminus_mod.
    f_equal. ring.
Qed.

Lemma pmod_canonical p : Forall (fun y => y mod q = y) (pmod q p e).
Proof.
  destruct p as [|c p].
  - cbn [pmod]. apply Forall_forall. intros y Hy.
    apply repeat_spec in Hy. subst. reflexivity.
  - cbn [pmod]. apply Forall_forall. intros y Hy.
    match type of Hy with
    | In _ (firstn ?n ?l) =>
        assert (Hy' : In y l)
          by (rewrite <- (firstn_skipn n l); apply in_or_app; now left)
    end.
    unfold sub_row in Hy'. apply in_map_iff in Hy'.
    destruct Hy' as (xy & <- & _). apply Zmod_mod.
Qed.

Lemma vadd_zero_l R :
  length R = d -> Forall (fun y => y mod q = y) R ->
  vadd q (repeat 0 d) R = R.
Proof.
  intros HR Hc. apply (nth_ext _ _ 0 0).
  - rewrite length_vadd; [now rewrite HR | apply repeat_length | assumption].
  - intros i _. rewrite nth_vadd by now rewrite repeat_length.
    rewrite nth_repeat_0, Z.add_0_l.
    destruct (Nat.lt_ge_cases i (length R)) as [Hi|Hi].
    + rewrite Forall_forall in Hc. apply Hc. now apply nth_In.
    + now rewrite nth_overflow.
Qed.

Lemma vadd_zero_r R :
  length R = d -> Forall (fun y => y mod q = y) R ->
  vadd q R (repeat 0 d) = R.
Proof.
  intros HR Hc. apply (nth_ext _ _ 0 0).
  - rewrite length_vadd; [now rewrite HR | assumption | apply repeat_length].
  - intros i _. rewrite nth_vadd by now rewrite repeat_length.
    rewrite nth_repeat_0, Z.add_0_r.
    destruct (Nat.lt_ge_cases i (length R)) as [Hi|Hi].
    + rewrite Forall_forall in Hc. apply Hc. now apply nth_In.
    + now rewrite nth_overflow.
Qed.

(** The remainder is additive. *)
Lemma pmod_padd p1 : forall p2,
  pmod q (padd p1 p2) e = vadd q (pmod q p1 e) (pmod q p2 e).
Proof.
  induction p1 as [|c1 p1 IH]; intros [|c2 p2].
  - cbn [padd pmod]. rewrite length_e. symmetry.
    apply vadd_zero_l; [apply repeat_length|].
    apply Forall_forall. intros y Hy. apply repeat_spec in Hy. now subst.
  - cbn [padd]. change (pmod q [] e) with (repeat 0 (length e - 1)).
    rewrite length_e. symmetry.
    apply vadd_zero_l; [apply length_pmod | apply pmod_canonical].
  - cbn [padd]. change (pmod q [] e) with (repeat 0 (length e - 1)).
    rewrite length_e. symmetry.
    apply vadd_zero_r; [apply length_pmod | apply pmod_canonical].
  - cbn [padd]. rewrite !pmod_cons, IH.
    apply pstep_add; apply length_pmod.
Qed.

(** A polynomial of degree below [d] is its own remainder. *)
Lemma pmod_short p :
  (length p <= d)%nat -> forall i, nth i (pmod q p e) 0 = nth i p 0 mod q.
Proof.
  induction p as [|c p IH]; intros Hlen i.
  - cbn [pmod]. rewrite nth_repeat_0. now destruct i.
  - cbn [length] in Hlen. rewrite pmod_cons.
    destruct (Nat.lt_ge_cases i d) as [Hi|Hi].
    + rewrite nth_pstep by (try apply length_pmod; assumption).
      assert (Htop : nth d (c mod q :: pmod q p e) 0 = 0).
      { destruct d as [|d'] eqn:Hd; [lia|]. cbn [nth].
        rewrite IH by lia. rewrite nth_overflow by lia. reflexivity. }
      rewrite Htop, Z.mul_0_l, Z.sub_0_r.
      destruct i as [|i]; cbn [nth]; [apply Zmod_mod|].
      rewrite IH by lia. apply Zmod_mod.
    + rewrite !nth_overflow; [reflexivity | cbn [length]; lia |].
      rewrite length_pstep; [assumption | apply length_pmod].
Qed.

(** A multiple of the divisor by a constant has remainder zero. *)
Lemma pmod_pscale_e a : pmod q (pscale a e) e = repeat 0 d.
Proof.
  apply (nth_ext _ _ 0 0); [now rewrite length_pmod, repeat_length|].
  intros i Hi. rewrite length_pmod in Hi. rewrite nth_repeat_0.
  assert (He : e = nth 0 e 0 :: tl e).
  { unfold e. destruct low; reflexivity. }
  assert (Hlt : length (tl e) = d).
  { unfold e, d. destruct low; cbn; [reflexivity|].
    rewrite length_app. cbn. lia. }
  rewrite He at 1. cbn [pscale map]. fold (pscale a (tl e)).
  rewrite pmod_cons.
  rewrite nth_pstep by (try apply length_pmod; assumption).
  assert (Hnth : forall j, nth j (pscale a (tl e)) 0 = a * nth (S j) e 0).
  { intro j. unfold pscale.
    replace 0 with (a * 0) at 1 by ring. rewrite map_nth.
    rewrite He at 2. reflexivity. }
  assert (Hshort : forall j, nth j (pmod q (pscale a (tl e)) e) 0 =
                             (a * nth (S j) e 0) mod q).
  { intro j. rewrite pmod_short; [now rewrite Hnth|].
    unfold pscale. rewrite length_map. lia. }
  assert (Hall : forall j, nth j ((a * nth 0 e 0) mod q ::
                                   pmod q (pscale a (tl e)) e) 0 =
                           (a * nth j e 0) mod q).
  { intros [|j]; cbn [nth]; [reflexivity | apply Hshort]. }
  rewrite !Hall, nth_e_top, Z.mul_1_r.
  rewrite Zminus_mod, Zmod_mod, Zmult_mod_idemp_l, <- Zminus_mod.
  rewrite Z.sub_diag. apply Zmod_0_l.
Qed.

Lemma pstep_zero c :
  c mod q = 0 -> pstep q e c (repeat 0 d) = repeat 0 d.
Proof.
  intro Hc.
  apply (nth_ext _ _ 0 0).
  - rewrite length_pstep by apply repeat_length. now rewrite repeat_length.
  - intros i Hi. rewrite length_pstep in Hi by apply repeat_length.
    rewrite nth_pstep by (try apply repeat_length; assumption).
    rewrite Hc, nth_repeat_0.
    assert (Hz : forall j, nth j (0 :: repeat 0 d) 0 = 0).
    { intros [|j]; cbn [nth]; [reflexivity | apply nth_repeat_0]. }
    rewrite !Hz, Z.mul_0_l, Z.sub_0_r. apply Zmod_0_l.
Qed.

(** A multiple of the divisor has remainder zero. *)
Lemma pmod_pmul_e p : pmod q (pmul p e) e = repeat 0 d.
Proof.
  induction p as [|a p IH].
  - cbn [pmul pmod]. now rewrite length_e.
  - cbn [pmul]. rewrite pmod_padd, pmod_pscale_e, pmod_cons, IH.
    rewrite pstep_zero by apply Zmod_0_l.
    apply vadd_zero_l; [apply repeat_length|].
    apply Forall_forall. intros y Hy. apply repeat_spec in Hy. now subst.
Qed.

(** The remainder depends on the dividend as a polynomial over GF(q). *)
Lemma pmod_peq_nil p : peq q [] p -> pmod q p e = repeat 0 d.
Proof.
  induction p as [|c p IH]; intro H.
  - cbn [pmod]. now rewrite length_e.
  - rewrite pmod_cons, IH.
    + apply pstep_zero. specialize (H 0%nat). cbn in H. now symmetry.
    + intro i. specialize (H (S i)). cbn [nth] in *.
      destruct i; exact H.
Qed.

Lemma pmod_peq p1 : forall p2,
  peq q p1 p2 -> pmod q p1 e = pmod q p2 e.
Proof.
  induction p1 as [|c1 p1 IH]; intros p2 H.
  - rewrite (pmod_peq_nil p2 H). cbn [pmod]. now rewrite length_e.
  - destruct p2 as [|c2 p2].
    + assert (H' : peq q [] (c1 :: p1)) by (intro i; symmetry; apply H).
      rewrite (pmod_peq_nil _ H'). cbn [pmod]. now rewrite length_e.
    + rewrite !pmod_cons.
      assert (Hc : c1 mod q = c2 mod q) by apply (H 0%nat).
      rewrite (IH p2) by (intro i; apply (H (S i))).
      unfold pstep. now rewrite Hc.
Qed.

End Remainder.

(** ** Unique decoder: the linear system *)

(** From the third column on, the entry of row [i] and column [j] is
    [- i^(j-2)] in GF(q). *)
Lemma equation_entry_power q codeword i j :
  (2 <= j)%nat ->
  equation_entry q codeword i j mod q = (- Z.of_nat i ^ Z.of_nat (j - 2)) mod q.
Proof.
  intro Hj. unfold equation_entry.
  destruct j as [|[|[|j]]]; try lia; cbn [Nat.eqb].
  - simpl. replace (q - 1) with (-1 + 1 * q) by ring. now rewrite Z_mod_plus_full.
  - rewrite Zmod_mod, Zminus_mod_idemp_r.
    replace (q - Z.of_nat i ^ Z.of_nat (S (S (S j)) - 2))
      with (- Z.of_nat i ^ Z.of_nat (S (S (S j)) - 2) + 1 * q) by ring.
    now rewrite Z_mod_plus_full.
Qed.

(** The columns of [Q]: their product with the coefficients [qs] is
    [- i^(s-2) * qs(i)] in GF(q). *)
Lemma dot_power_columns q codeword i qs : forall s,
  (2 <= s)%nat ->
  dot (map (equation_entry q codeword i) (seq s (length qs))) qs mod q =
  (- (Z.of_nat i ^ Z.of_nat (s - 2) * peval qs (Z.of_nat i))) mod q.
Proof.
  induction qs as [|c qs IH]; intros s Hs.
  - simpl. now rewrite Z.mul_0_r.
  - cbn [length seq map peval]. rewrite dot_cons.
    rewrite Zplus_mod, (IH (S s)) by lia.
    rewrite Zmult_mod, equation_entry_power by lia.
    rewrite <- Zmult_mod, <- Zplus_mod. f_equal.
    replace (S s - 2)%nat with (S (s - 2)) by lia.
    rewrite Nat2Z.inj_succ, Z.pow_succ_r by lia. ring.
Qed.

Lemma nth_map_enumerate (f : Z * Z -> Z) (l : list Z) : forall s i,
  (i < length l)%nat ->
  nth i (map f (combine (map Z.of_nat (seq s (length l))) l)) 0 =
  f (Z.of_nat (s + i), nth i l 0).
Proof.
  induction l as [|c l IH]; intros s i Hi; cbn [length] in *; [lia|].
  cbn [seq map combine]. destruct i as [|i]; cbn [nth].
  - now rewrite Nat.add_0_r.
  - replace (s + S i)%nat with (S s + i)%nat by lia. apply IH. lia.
Qed.

Lemma nth_result_column q codeword i :
  (i < length codeword)%nat ->
  nth i (result_column q codeword) 0 =
  (-1 * nth i codeword 0 * Z.of_nat i ^ 2) mod q.
Proof.
  intro Hi. unfold result_column, enumerate, range.
  now rewrite nth_map_enumerate.
Qed.

Lemma cong_neg_iff q a b c d :
  a - b = - (c - d) -> (a mod q = b mod q <-> c mod q = d mod q).
Proof.
  intro H. rewrite !Z.cong_iff_0, H. split; intro H0.
  - apply Z_mod_zero_opp_full in H0. now rewrite Z.opp_involutive in H0.
  - now apply Z_mod_zero_opp_full.
Qed.

(** The row of index [i] times the unknowns [e0, e1, qs], against the
    right-hand side: the equation [qs(i) = codeword[i] * (e0 + e1 i + i^2)]. *)
Lemma equation_meaning q codeword i e0 e1 qs :
  (i < length codeword)%nat ->
  length codeword = S (S (length qs)) ->
  (dot (nth i (equations q codeword) []) (e0 :: e1 :: qs) mod q =
   nth i (result_column q codeword) 0 mod q) <->
  eval q qs (Z.of_nat i) =
  (nth i codeword 0 * eval q [e0; e1; 1] (Z.of_nat i)) mod q.
Proof.
  intros Hi Hlen. unfold equations.
  rewrite nth_map_seq, nth_result_column by assumption.
  rewrite Hlen. cbn [seq map]. rewrite !dot_cons.
  pose proof (dot_power_columns q codeword i qs 2 (le_n 2)) as HX.
  set (X := dot (map (equation_entry q codeword i) (seq 2 (length qs))) qs) in *.
  set (c := nth i codeword 0). set (x := Z.of_nat i) in *.
  set (P := peval qs x) in *.
  unfold equation_entry. cbn [Nat.eqb]. fold c. fold x.
  assert (Hlhs : (c mod q * e0 + ((c * x) mod q * e1 + X)) mod q =
                 (c * e0 + (c * x * e1 + - P)) mod q).
  { rewrite Zplus_mod, Zmult_mod_idemp_l.
    rewrite (Zplus_mod ((c * x) mod q * e1) X), Zmult_mod_idemp_l, HX.
    rewrite <- (Zplus_mod (c * x * e1)), <- Zplus_mod. f_equal.
    change (2 - 2)%nat with 0%nat. simpl (Z.of_nat 0). rewrite Z.pow_0_r. ring. }
  rewrite Hlhs, Zmod_mod, !eval_peval, Zmult_mod_idemp_r. fold P.
  cbn [peval]. apply cong_neg_iff. ring.
Qed.

(** C4, at the failing input: for the word [1, 2, 3, 4] over GF(7) the
    system has the two columns of a monic quadratic [E] ([c_i] and
    [c_i * i]), two columns for [Q] ([-1] and [-i]) and the right-hand side
    [- c_i * i^2]; the declared bound is not an input of the construction.
    With the bound 0 there is no unknown of [E], and [Q(i) = c_i] has the
    Vandermonde rows [1, i, i^2, i^3] and the right-hand side [c_i]. *)
Theorem system_ignores_error_bound :
  equations 7 [1; 2; 3; 4] =
    [[1; 0; 6; 0]; [2; 2; 6; 6]; [3; 6; 6; 5]; [4; 5; 6; 4]] /\
  result_column 7 [1; 2; 3; 4] = [0; 5; 2; 6] /\
  equations 7 [1; 2; 3; 4] <>
    [[1; 0; 0; 0]; [1; 1; 1; 1]; [1; 2; 4; 1]; [1; 3; 2; 6]].
Proof.
  split; [reflexivity|]. split; [reflexivity|]. vm_compute. discriminate.
Qed.

(** ** Unique decoder: outcomes *)

(** No vector solves the system of the codeword [1, 2, 3, 4] over GF(7):
    it asks for a monic quadratic [E] and a [Q] of degree at most 1 with
    [Q(i) = (i + 1) E(i)] at four points. *)
Lemma no_solution_example e0 e1 q0 q1 :
  ~ (forall i, (i < 4)%nat ->
       dot (nth i (equations 7 [1; 2; 3; 4]) []) [e0; e1; q0; q1] mod 7 =
       nth i (result_column 7 [1; 2; 3; 4]) 0 mod 7).
Proof.
  intro H.
  assert (E : forall i, (i < 4)%nat ->
            peval [q0; q1] (Z.of_nat i) mod 7 =
            (nth i [1; 2; 3; 4] 0 * peval [e0; e1; 1] (Z.of_nat i)) mod 7).
  { intros i Hi. specialize (H i Hi).
    apply (equation_meaning 7 [1; 2; 3; 4] i e0 e1 [q0; q1]) in H;
      [|simpl; lia|reflexivity].
    now rewrite !eval_peval, Zmult_mod_idemp_r in H. }
  pose proof (E 0%nat ltac:(lia)) as E0.
  pose proof (E 1%nat ltac:(lia)) as E1.
  pose proof (E 2%nat ltac:(lia)) as E2.
  pose proof (E 3%nat ltac:(lia)) as E3.
  cbn [peval nth Z.of_nat Pos.of_succ_nat Pos.succ] in E0, E1, E2, E3.
  apply Z.cong_iff_ex in E0, E1, E2, E3.
  destruct E0 as [a Ha], E1 as [b Hb], E2 as [c Hc], E3 as [d Hd]. lia.
Qed.

(** C2, at the failing input: the message [1, 2] over GF(7) encodes for
    [n = 4] to [1, 2, 3, 4], and the decoder with the bound 0 returns no
    message for this codeword. *)
Theorem round_trip_fails :
  exists cw, rs_encoder 7 [1; 2] 4 = Returned cw /\
             coeffs cw = [1; 2; 3; 4] /\
             rs_decoder 7 (coeffs cw) 2 0 = Returned None.
Proof. exists [1; 2; 3; 4]. vm_compute. auto. Qed.

(** C1, at the failing input: the codeword [1, 2, 3, 4] of the message
    [1, 2] with its first symbol altered to 5 and the bound 1, within
    [floor((4 - 2) / 2)], is not decoded: the system has the single
    solution [5, 0, 4, 1], cut into [E = 5 + x] and [Q = 4 x + x^2], and [E]
    does not divide [Q]. *)
Theorem decoder_fails_within_radius :
  rs_encoder 7 [1; 2] 4 = Returned [1; 2; 3; 4] /\
  (1 <= (4 - 2) / 2)%nat /\
  solve_right 7 4 (equations 7 [5; 2; 3; 4]) (result_column 7 [5; 2; 3; 4]) =
    Returned [5; 0; 4; 1] /\
  rs_decoder 7 [5; 2; 3; 4] 2 1 = Returned None.
Proof.
  split; [reflexivity|]. split; [vm_compute; lia|].
  split; reflexivity.
Qed.

Lemma in_combine_map {A B : Type} (f : A -> B) (l : list A) (a : A) :
  In a l -> In (a, f a) (combine l (map f l)).
Proof.
  induction l as [|b l IH]; simpl; [tauto|].
  intros [->|Hin]; [now left | right; auto].
Qed.

Lemma correct_symbol_indices_distinct q n E :
  Z.of_nat n <= q -> distinct_mod q (correct_symbol_indices q n E).
Proof.
  intro Hn. unfold correct_symbol_indices. apply distinct_mod_small.
  - apply NoDup_filter, NoDup_range.
  - apply Forall_forall. intros x Hx. apply filter_In in Hx.
    destruct Hx as [Hx _]. apply in_range in Hx. lia.
Qed.

(** C7 (as the code has it): the decoder does not count the surviving
    positions.  When the system has a solution and [E] divides [Q], it
    interpolates through the survivors, however few, and returns the values
    of that polynomial at [0..k-1]. *)
Theorem decoder_interpolates_survivors q codeword k num_of_errors unknowns
  (Hq : Z.prime q) (Hn : Z.of_nat (length codeword) <= q)
  (Hsolve : solve_right q (length codeword) (equations q codeword)
                        (result_column q codeword) = Returned unknowns)
  (Hdiv : is_zero (pmod q (q_polynomial q num_of_errors unknowns)
                          (error_locator q num_of_errors unknowns)) = true) :
  let survivors := correct_symbol_indices q (length codeword)
                     (error_locator q num_of_errors unknowns) in
  exists p,
    (length p <= length survivors)%nat /\
    (forall i, In i survivors ->
               eval q p i = nth (Z.to_nat i) codeword 0 mod q) /\
    rs_decoder q codeword k num_of_errors =
    Returned (Some (ring q (map (fun index => eval q p index) (range k)))).
Proof.
  intro survivors.
  set (symbols := map (fun index => nth (Z.to_nat index) codeword 0) survivors).
  destruct (lagrange_polynomial_returns q (combine survivors symbols))
    as [p Hp].
  - subst symbols. rewrite map_fst_combine by now rewrite length_map.
    now apply correct_symbol_indices_distinct.
  - exists p. destruct (lagrange_polynomial_spec q Hq _ _ Hp) as [Hlen Hval].
    split; [|split].
    + subst symbols. rewrite length_combine, length_map, Nat.min_id in Hlen.
      exact Hlen.
    + intros i Hi. apply Hval. subst symbols.
      exact (in_combine_map
               (fun index => nth (Z.to_nat index) codeword 0) survivors i Hi).
    + unfold rs_decoder. rewrite Hsolve, Hdiv.
      fold survivors. fold symbols. rewrite Hp. reflexivity.
Qed.

(** C7, counterexample: for the word [0, 0, 1, 1] over GF(7) with [k = 3]
    and the bound 2, the solution is [E = (x - 2)(x - 3)] and [Q = 0]; the
    two positions 0 and 1 survive, fewer than [k], and the decoder returns
    the zero message. *)
Lemma decoder_returns_with_few_survivors :
  exists unknowns,
    solve_right 7 4 (equations 7 [0; 0; 1; 1]) (result_column 7 [0; 0; 1; 1]) =
      Returned unknowns /\
    correct_symbol_indices 7 4 (error_locator 7 2 unknowns) = [0; 1] /\
    rs_decoder 7 [0; 0; 1; 1] 3 2 = Returned (Some []).
Proof. exists [6; 2; 0; 0]. vm_compute. auto. Qed.

Lemma decoder_interpolates_survivors_witness :
  exists p,
    rs_decoder 7 [0; 0; 1; 1] 3 2 =
    Returned (Some (ring 7 (map (fun index => eval 7 p index) (range 3)))).
Proof.
  assert (Hn : Z.of_nat (length [0; 0; 1; 1]) <= 7) by (simpl; lia).
  assert (Hsolve : solve_right 7 (length [0; 0; 1; 1])
                     (equations 7 [0; 0; 1; 1])
                     (result_column 7 [0; 0; 1; 1]) = Returned [6; 2; 0; 0])
    by reflexivity.
  assert (Hdiv : is_zero (pmod 7 (q_polynomial 7 2 [6; 2; 0; 0])
                                 (error_locator 7 2 [6; 2; 0; 0])) = true)
    by reflexivity.
  destruct (decoder_interpolates_survivors 7 [0; 0; 1; 1] 3 2 [6; 2; 0; 0]
              prime_7 Hn Hsolve Hdiv) as (p & _ & _ & Hp).
  exists p. exact Hp.
Defined.

(** ** Unique decoder: two errors *)

Lemma nth_padd p : forall r i, nth i (padd p r) 0 = nth i p 0 + nth i r 0.
Proof.
  induction p as [|a p IH]; intros [|b r] [|i]; cbn [padd nth]; try lia.
  apply IH.
Qed.

Lemma nth_pscale a p i : nth i (pscale a p) 0 = a * nth i p 0.
Proof.
  unfold pscale. replace 0 with (a * 0) at 1 by ring. now rewrite map_nth.
Qed.

Lemma length_pscale a p : length (pscale a p) = length p.
Proof. apply length_map. Qed.

Lemma length_pmul p r :
  r <> [] -> (length (pmul p r) <= length p + length r - 1)%nat.
Proof.
  intro Hr. assert (Hl : (1 <= length r)%nat)
    by (destruct r; [contradiction | cbn; lia]).
  induction p as [|a p IH]; cbn [pmul length]; [lia|].
  rewrite length_padd, length_pscale. cbn [length]. lia.
Qed.

Lemma peval_app_zeros p m x : peval (p ++ repeat 0 m) x = peval p x.
Proof.
  induction p as [|c p IH]; cbn [app peval].
  - induction m as [|m IHm]; cbn [repeat peval]; [reflexivity|].
    rewrite IHm. ring.
  - now rewrite IH.
Qed.

Lemma zero_mod_nth q N i : zero_mod q N -> nth i N 0 mod q = 0.
Proof.
  unfold zero_mod. intro H. revert i.
  induction H as [|c N Hc _ IH]; intros [|i]; cbn [nth]; auto.
Qed.

Lemma in_combine_nth (A : list row) (b : list Z) ra rb :
  length A = length b ->
  In (ra, rb) (combine A b) ->
  exists i, (i < length A)%nat /\ nth i A [] = ra /\ nth i b 0 = rb.
Proof.
  intros Hlen Hin.
  destruct (In_nth _ _ ([], 0) Hin) as (i & Hi & Hnth).
  rewrite combine_nth in Hnth by assumption.
  rewrite length_combine in Hi. inversion Hnth; subst.
  exists i. repeat split. lia.
Qed.

Lemma nth_in_combine (A : list row) (b : list Z) i :
  length A = length b -> (i < length A)%nat ->
  In (nth i A [], nth i b 0) (combine A b).
Proof.
  intros Hlen Hi. rewrite <- combine_nth by assumption.
  apply nth_In. rewrite length_combine. lia.
Qed.

Lemma length_equations q codeword :
  length (equations q codeword) = length codeword.
Proof. unfold equations. now rewrite length_map, length_seq. Qed.

Lemma length_result_column q codeword :
  length (result_column q codeword) = length codeword.
Proof.
  unfold result_column, enumerate.
  rewrite length_map, length_combine, length_range. lia.
Qed.

(** Removing one value from a list without repetition removes at most one
    element. *)
Lemma filter_remove_one (a : Z) (l : list Z) :
  NoDup l ->
  (length l <= S (length (filter (fun i => negb (Z.eqb i a)) l)))%nat.
Proof.
  induction 1 as [|x l Hnot Hnd IH]; cbn [filter length]; [lia|].
  destruct (Z.eqb_spec x a) as [->|Hne]; cbn [negb length]; [|lia].
  replace (filter (fun i => negb (Z.eqb i a)) l) with l; [lia|].
  symmetry. apply forallb_filter_id. apply forallb_forall.
  intros y Hy. apply negb_true_iff, Z.eqb_neq. congruence.
Qed.

Lemma strip_monic l : strip (l ++ [1]) = l ++ [1].
Proof.
  induction l as [|c l IH]; [reflexivity|].
  cbn [app strip]. rewrite IH. now destruct l.
Qed.

Section BerlekampWelch.

Variable q : Z.
Hypothesis Hq : Z.prime q.

(** The polynomial of the message, the received word and the two
    positions outside of which the word agrees with the codeword. *)
Variables (lp : poly) (received : list Z) (k n : nat) (a b : Z).
Hypothesis Hlp : (length lp <= k)%nat.
Hypothesis Hlen : length received = n.
Hypothesis Hn : (k + 4 <= n)%nat.
Hypothesis Hnq : Z.of_nat n <= q.
Hypothesis Hgood : forall i, (i < n)%nat ->
  Z.of_nat i <> a -> Z.of_nat i <> b ->
  nth i received 0 mod q = eval q lp (Z.of_nat i).

(** The locator [(x - a)(x - b)] and the product of the message polynomial
    by it solve the system. *)
Lemma locator_solves_system i :
  (i < n)%nat ->
  let E0 := [a * b; - (a + b); 1] in
  let qs0 := pmul lp E0 ++ repeat 0 (n - 2 - length (pmul lp E0)) in
  eval q qs0 (Z.of_nat i) =
  (nth i received 0 * eval q E0 (Z.of_nat i)) mod q.
Proof.
  intros Hi E0 qs0. unfold qs0.
  rewrite !eval_peval, peval_app_zeros, peval_pmul, Zmult_mod_idemp_r.
  assert (HE : peval E0 (Z.of_nat i) = (Z.of_nat i - a) * (Z.of_nat i - b))
    by (unfold E0; cbn [peval]; ring).
  destruct (Z.eq_dec (Z.of_nat i) a) as [Ha|Ha].
  { rewrite HE, Ha, Z.sub_diag, Z.mul_0_l, !Z.mul_0_r. reflexivity. }
  destruct (Z.eq_dec (Z.of_nat i) b) as [Hb|Hb].
  { rewrite HE, Hb, Z.sub_diag, !Z.mul_0_r. reflexivity. }
  rewrite Zmult_mod, <- eval_peval, <- (Hgood i Hi Ha Hb), <- Zmult_mod.
  reflexivity.
Qed.

Lemma system_has_solution :
  exists e0 e1 qs,
    solve_right q n (equations q received) (result_column q received) =
      Returned (e0 :: e1 :: qs) /\
    length qs = (n - 2)%nat /\
    forall i, (i < n)%nat ->
      eval q qs (Z.of_nat i) =
      (nth i received 0 * eval q [e0; e1; 1] (Z.of_nat i)) mod q.
Proof.
  set (E0 := [a * b; - (a + b); 1]).
  set (qs0 := pmul lp E0 ++ repeat 0 (n - 2 - length (pmul lp E0))).
  assert (Hmul : (length (pmul lp E0) <= n - 2)%nat).
  { etransitivity; [apply length_pmul; discriminate|].
    unfold E0. cbn [length]. lia. }
  assert (Hqs0 : length qs0 = (n - 2)%nat).
  { unfold qs0. rewrite length_app, repeat_length. lia. }
  assert (HA : length (equations q received) = length (result_column q received))
    by now rewrite length_equations, length_result_column.
  destruct (solve_equations_complete q Hq n
              (combine (equations q received) (result_column q received))
              (a * b :: - (a + b) :: qs0)) as [u Hu].
  - cbn [length]. rewrite Hqs0. lia.
  - apply Forall_forall. intros [ra rb] Hin.
    destruct (in_combine_nth _ _ _ _ HA Hin) as (i & Hi & <- & <-).
    rewrite length_equations, Hlen in Hi.
    unfold sat. cbn [fst snd].
    apply (equation_meaning q received i (a * b) (- (a + b)) qs0).
    + now rewrite Hlen.
    + rewrite Hlen, Hqs0. lia.
    + now apply locator_solves_system.
  - destruct (solve_equations_sound q Hq n _ _ Hu) as [Hlu Hsat].
    destruct u as [|e0 [|e1 qs]]; cbn [length] in Hlu; try lia.
    exists e0, e1, qs. split; [|split].
    + unfold solve_right. now rewrite Hu.
    + lia.
    + intros i Hi.
      apply (equation_meaning q received i e0 e1 qs).
      * now rewrite Hlen.
      * rewrite Hlen. lia.
      * rewrite Forall_forall in Hsat.
        apply (Hsat (nth i (equations q received) [],
                     nth i (result_column q received) 0)).
        apply nth_in_combine; [assumption|].
        now rewrite length_equations, Hlen.
Qed.

(** A solution of the system: the coefficients [e0, e1] of the locator and
    the coefficients [qs] of [Q]. *)
Variables (e0 e1 : Z) (qs : list Z).
Hypothesis Hqs : length qs = (n - 2)%nat.
Hypothesis Hsys : forall i, (i < n)%nat ->
  eval q qs (Z.of_nat i) =
  (nth i received 0 * eval q [e0; e1; 1] (Z.of_nat i)) mod q.

Let Em : poly := [e0 mod q; e1 mod q] ++ [1].

Lemma one_mod : 1 mod q = 1.
Proof. apply Z.mod_1_l, prime_gt_1, Hq. Qed.

Lemma error_locator_monic :
  error_locator q 2 (e0 :: e1 :: qs) = Em.
Proof.
  unfold error_locator, ring. cbn [firstn app map]. rewrite one_mod.
  apply (strip_monic [e0 mod q; e1 mod q]).
Qed.

Lemma eval_locator x : eval q Em x = eval q [e0; e1; 1] x.
Proof.
  rewrite <- (eval_map_mod q [e0; e1; 1]). cbn [map]. now rewrite one_mod.
Qed.

Lemma in_range_nat x :
  In x (range n) -> exists i, (i < n)%nat /\ x = Z.of_nat i.
Proof.
  intro Hx. apply in_range in Hx. exists (Z.to_nat x). split; lia.
Qed.

(** [Q] and the product of the message polynomial by the locator agree
    outside the two positions, at [n - 2] points: they are one polynomial. *)
Lemma q_is_product :
  zero_mod q (padd qs (pscale (-1) (pmul lp Em))).
Proof.
  set (others := filter (fun i => negb (Z.eqb i a))
                        (filter (fun i => negb (Z.eqb i b)) (range n))).
  apply (roots_bound q Hq others).
  - apply distinct_mod_small.
    + apply NoDup_filter, NoDup_filter, NoDup_range.
    + apply Forall_forall. intros x Hx.
      apply filter_In in Hx. destruct Hx as [Hx _].
      apply filter_In in Hx. destruct Hx as [Hx _].
      apply in_range in Hx. lia.
  - rewrite length_padd, length_pscale.
    assert (Hmul : (length (pmul lp Em) <= n - 2)%nat).
    { etransitivity; [apply length_pmul; discriminate|].
      unfold Em. cbn [length app]. lia. }
    pose proof (filter_remove_one b (range n) (NoDup_range n)) as H1.
    pose proof (filter_remove_one a _
                  (NoDup_filter (fun i => negb (Z.eqb i b)) (NoDup_range n)))
      as H2.
    rewrite length_range in H1. fold others in H2. lia.
  - intros x Hx.
    apply filter_In in Hx. destruct Hx as [Hx Hxa].
    apply filter_In in Hx. destruct Hx as [Hx Hxb].
    apply negb_true_iff, Z.eqb_neq in Hxa, Hxb.
    destruct (in_range_nat x Hx) as (i & Hi & ->).
    rewrite peval_padd, peval_pscale, peval_pmul.
    replace (peval qs (Z.of_nat i) +
             -1 * (peval lp (Z.of_nat i) * peval Em (Z.of_nat i)))
      with (peval qs (Z.of_nat i) -
            peval lp (Z.of_nat i) * peval Em (Z.of_nat i)) by ring.
    apply Z.cong_iff_0.
    rewrite Zmult_mod, <- !eval_peval.
    rewrite (Hsys i Hi), eval_locator, <- (Hgood i Hi Hxa Hxb).
    now rewrite Zmult_mod_idemp_l.
Qed.

Lemma q_value x : eval q qs x = (eval q lp x * eval q Em x) mod q.
Proof.
  pose proof (zero_mod_peval q _ x q_is_product) as H.
  rewrite peval_padd, peval_pscale, peval_pmul in H.
  replace (peval qs x + -1 * (peval lp x * peval Em x))
    with (peval qs x - peval lp x * peval Em x) in H by ring.
  apply Z.cong_iff_0 in H.
  rewrite !eval_peval, <- Zmult_mod. exact H.
Qed.

(** The locator divides [Q]. *)
Lemma locator_divides :
  is_zero (pmod q (q_polynomial q 2 (e0 :: e1 :: qs))
                  (error_locator q 2 (e0 :: e1 :: qs))) = true.
Proof.
  rewrite error_locator_monic. unfold q_polynomial. cbn [skipn].
  assert (Hp : pmod q (ring q qs) Em = repeat 0 2).
  { unfold Em.
    rewrite (pmod_peq q [e0 mod q; e1 mod q] (ring q qs)
               (pmul lp ([e0 mod q; e1 mod q] ++ [1]))).
    - apply pmod_pmul_e.
    - fold Em. intro i. fold (coeff (ring q qs) i).
      rewrite coeff_ring, Zmod_mod.
      pose proof (zero_mod_nth q _ i q_is_product) as H.
      rewrite nth_padd, nth_pscale in H.
      replace (nth i qs 0 + -1 * nth i (pmul lp Em) 0)
        with (nth i qs 0 - nth i (pmul lp Em) 0) in H by ring.
      now apply Z.cong_iff_0. }
  rewrite Hp. reflexivity.
Qed.

Let survivors : list Z := correct_symbol_indices q n Em.

(** At a position where the locator does not vanish the received symbol
    is the symbol of the codeword. *)
Lemma survivor_correct x :
  In x survivors ->
  nth (Z.to_nat x) received 0 mod q = eval q lp x.
Proof.
  intro Hx. unfold survivors, correct_symbol_indices in Hx.
  apply filter_In in Hx. destruct Hx as [Hx HE].
  apply negb_true_iff, Z.eqb_neq in HE.
  destruct (in_range_nat x Hx) as (i & Hi & ->).
  rewrite Nat2Z.id.
  pose proof (Hsys i Hi) as H1. rewrite q_value, <- eval_locator in H1.
  assert (H0 : (eval q Em (Z.of_nat i) *
                (nth i received 0 - eval q lp (Z.of_nat i))) mod q = 0).
  { replace (eval q Em (Z.of_nat i) *
             (nth i received 0 - eval q lp (Z.of_nat i)))
      with (nth i received 0 * eval q Em (Z.of_nat i) -
            eval q lp (Z.of_nat i) * eval q Em (Z.of_nat i)) by ring.
    apply Z.cong_iff_0. now symmetry. }
  apply (mul_mod_zero q Hq) in H0; [|now rewrite eval_mod].
  apply Z.cong_iff_0 in H0. now rewrite eval_mod in H0.
Qed.

(** The locator has at most two roots among the positions. *)
Lemma many_survivors : (n - 2 <= length survivors)%nat.
Proof.
  unfold survivors, correct_symbol_indices.
  pose proof (filter_length (fun alpha => negb (eval q Em alpha =? 0))
                            (range n)) as Hsum.
  rewrite length_range in Hsum.
  set (roots := filter (fun x => negb (negb (eval q Em x =? 0))) (range n))
    in Hsum.
  destruct (Nat.le_gt_cases (length roots) 2) as [Hle|Hgt]; [lia|].
  exfalso.
  assert (Hz : zero_mod q Em).
  { apply (roots_bound q Hq roots).
    - apply distinct_mod_small.
      + apply NoDup_filter, NoDup_range.
      + apply Forall_forall. intros x Hx. apply filter_In in Hx.
        destruct Hx as [Hx _]. apply in_range in Hx. lia.
    - unfold Em. cbn [length app]. lia.
    - intros x Hx. apply filter_In in Hx. destruct Hx as [_ Hx].
      rewrite negb_involutive in Hx. apply Z.eqb_eq in Hx.
      now rewrite <- eval_peval. }
  pose proof (zero_mod_nth q Em 2 Hz) as H1. cbn in H1.
  rewrite one_mod in H1. discriminate.
Qed.

(** The decoder returns the values of the message polynomial. *)
Lemma decode_from_solution :
  solve_right q n (equations q received) (result_column q received) =
    Returned (e0 :: e1 :: qs) ->
  rs_decoder q received k 2 =
  Returned (Some (ring q (map (fun index => eval q lp index) (range k)))).
Proof.
  intro Hsolve.
  set (symbols := map (fun index => nth (Z.to_nat index) received 0) survivors).
  destruct (lagrange_polynomial_returns q (combine survivors symbols))
    as [L HL].
  { subst symbols. rewrite map_fst_combine by now rewrite length_map.
    now apply correct_symbol_indices_distinct. }
  destruct (lagrange_polynomial_spec q Hq _ _ HL) as [HlenL Hval].
  assert (Hsame : forall x, eval q L x = eval q lp x).
  { assert (Hz : zero_mod q (padd L (pscale (-1) lp))).
    { apply (roots_bound q Hq survivors).
      - now apply correct_symbol_indices_distinct.
      - rewrite length_padd, length_pscale.
        subst symbols.
        rewrite length_combine, length_map, Nat.min_id in HlenL.
        pose proof many_survivors. lia.
      - intros x Hx. rewrite peval_padd, peval_pscale.
        replace (peval L x + -1 * peval lp x)
          with (peval L x - peval lp x) by ring.
        apply Z.cong_iff_0. rewrite <- !eval_peval.
        rewrite (Hval x (nth (Z.to_nat x) received 0)).
        + now apply survivor_correct.
        + subst symbols.
          exact (in_combine_map
                   (fun index => nth (Z.to_nat index) received 0)
                   survivors x Hx). }
    intro x. pose proof (zero_mod_peval q _ x Hz) as H.
    rewrite peval_padd, peval_pscale in H.
    replace (peval L x + -1 * peval lp x)
      with (peval L x - peval lp x) in H by ring.
    apply Z.cong_iff_0 in H. now rewrite !eval_peval. }
  unfold rs_decoder. rewrite Hlen, Hsolve, locator_divides.
  rewrite error_locator_monic. fold survivors. fold symbols.
  rewrite HL. cbn [bind]. do 3 f_equal.
  apply map_ext. intro x. apply Hsame.
Qed.

End BerlekampWelch.

Lemma in_short_list (l : list nat) (x : nat) :
  (length l <= 2)%nat -> In x l -> x = nth 0 l 0%nat \/ x = nth 1 l 0%nat.
Proof.
  destruct l as [|y [|z [|w l]]]; cbn; intros Hlen Hin; try lia; tauto.
Qed.

(** X1: the decoder with the bound 2.  For [n >= k + 4] points, distinct in
    GF(q), a codeword with at most two altered symbols is decoded to the
    message. *)
Theorem decoder_corrects_two_errors q msg n cw received
  (Hq : Z.prime q) (Hmsg : in_field q msg)
  (Hn : (length msg + 4 <= n)%nat) (Hnq : Z.of_nat n <= q)
  (Hcw : rs_encoder q msg n = Returned cw)
  (Hlen : length received = n)
  (Herr : (length (altered q received cw n) <= 2)%nat) :
  rs_decoder q received (length msg) 2 = Returned (Some (ring q msg)).
Proof.
  destruct (rs_encoder_inv _ _ _ _ Hcw) as (lp & Hlp & _ & Hcoeff).
  destruct (lagrange_polynomial_spec q Hq _ _ Hlp) as [Hlenlp Hval].
  rewrite length_combine, length_range, Nat.min_id in Hlenlp.
  set (a := Z.of_nat (nth 0 (altered q received cw n) 0%nat)).
  set (b := Z.of_nat (nth 1 (altered q received cw n) 0%nat)).
  assert (Hgood : forall i, (i < n)%nat ->
            Z.of_nat i <> a -> Z.of_nat i <> b ->
            nth i received 0 mod q = eval q lp (Z.of_nat i)).
  { intros i Hi Ha Hb.
    destruct (eqF q (nth i received 0) (coeff cw i)) eqn:Heq.
    - unfold eqF in Heq. apply Z.eqb_eq in Heq.
      rewrite Heq, (Hcoeff i Hi). apply eval_mod.
    - exfalso.
      assert (Hin : In i (altered q received cw n)).
      { unfold altered. apply filter_In. split; [apply in_seq; lia|].
        now rewrite Heq. }
      destruct (in_short_list _ _ Herr Hin) as [H0|H1]; subst a b; lia. }
  destruct (system_has_solution q Hq lp received (length msg) n a b
              Hlenlp Hlen Hn Hgood) as (e0 & e1 & qs & Hsolve & Hqs & Hsys).
  rewrite (decode_from_solution q Hq lp received (length msg) n a b
             Hlenlp Hlen Hn Hnq Hgood e0 e1 qs Hqs Hsys Hsolve).
  do 3 f_equal.
  apply (nth_ext _ _ 0 0).
  - now rewrite length_map, length_range.
  - intros j Hj. rewrite length_map, length_range in Hj.
    rewrite nth_map_range by assumption.
    rewrite (Hval _ _ (in_combine_range msg j Hj)).
    apply Z.mod_small. unfold in_field in Hmsg. rewrite Forall_forall in Hmsg.
    apply Hmsg, nth_In, Hj.
Qed.

Lemma decoder_corrects_two_errors_witness :
  rs_decoder 7 [1; 5; 4; 0; 4; 2; 3] 3 2 = Returned (Some [1; 2; 4]).
Proof.
  assert (Hf : in_field 7 [1; 2; 4]) by (repeat constructor; lia).
  assert (Hn : (length [1; 2; 4] + 4 <= 7)%nat) by (simpl; lia).
  assert (Hnq : Z.of_nat 7 <= 7) by (simpl; lia).
  assert (Hcw : rs_encoder 7 [1; 2; 4] 7 = Returned [1; 2; 4; 0; 4; 2; 1])
    by reflexivity.
  assert (Hlen : length ([1; 5; 4; 0; 4; 2; 3] : list Z) = 7%nat)
    by reflexivity.
  assert (Herr : Nat.le (length (altered 7 [1; 5; 4; 0; 4; 2; 3]
                                         [1; 2; 4; 0; 4; 2; 1] 7)) 2)
    by (vm_compute; lia).
  exact (decoder_corrects_two_errors 7 [1; 2; 4] 7 [1; 2; 4; 0; 4; 2; 1]
           [1; 5; 4; 0; 4; 2; 3] prime_7 Hf Hn Hnq Hcw Hlen Herr).
Defined.

(** ** Unique decoder: what it returns *)

Lemma in_strip c p : In c (strip p) -> In c p.
Proof.
  induction p as [|a p IH]; cbn [strip]; [tauto|].
  destruct (strip p) as [|d r] eqn:Hs.
  - destruct (a =? 0); cbn; tauto.
  - intros [->|Hin]; [now left | right; apply IH; exact Hin].
Qed.

Lemma ring_in_field q l : 0 < q -> in_field q (ring q l).
Proof.
  intro Hq. unfold in_field, ring. apply Forall_forall. intros c Hc.
  apply in_strip, in_map_iff in Hc. destruct Hc as (x & <- & _).
  now apply Z.mod_pos_bound.
Qed.

(** X3: for a word of at most [q] symbols over GF(q), [q] prime, the unique
    decoder raises no exception, whatever [k] and the declared bound: it
    returns [None] or a polynomial with at most [k] coefficients, all
    reduced modulo [q]. *)
Theorem decoder_never_raises q codeword k num_of_errors :
  Z.prime q -> Z.of_nat (length codeword) <= q ->
  exists r, rs_decoder q codeword k num_of_errors = Returned r /\
            forall m, r = Some m -> (length m <= k)%nat /\ in_field q m.
Proof.
  intros Hq Hn. unfold rs_decoder.
  destruct (solve_right q (length codeword) (equations q codeword)
                        (result_column q codeword)) as [unknowns|e].
  2:{ exists None. split; [reflexivity | discriminate]. }
  destruct (is_zero (pmod q (q_polynomial q num_of_errors unknowns)
                            (error_locator q num_of_errors unknowns))).
  2:{ exists None. split; [reflexivity | discriminate]. }
  set (E := error_locator q num_of_errors unknowns).
  set (S := correct_symbol_indices q (length codeword) E).
  set (symbols := map (fun index => nth (Z.to_nat index) codeword 0) S).
  destruct (lagrange_polynomial_returns q (combine S symbols)) as [L HL].
  { subst symbols. rewrite map_fst_combine by now rewrite length_map.
    now apply correct_symbol_indices_distinct. }
  rewrite HL. cbn [bind]. eexists. split; [reflexivity|].
  intros m Hm. inversion Hm; subst m. split.
  - etransitivity; [apply length_ring|]. now rewrite length_map, length_range.
  - apply ring_in_field. pose proof (prime_gt_1 q Hq). lia.
Qed.

Lemma decoder_never_raises_witness :
  exists r, rs_decoder 7 [1; 2; 3; 4] 2 1 = Returned r /\
            forall m, r = Some m -> (length m <= 2)%nat /\ in_field 7 m.
Proof.
  apply (decoder_never_raises 7 [1; 2; 3; 4] 2 1 prime_7).
  cbn. lia.
Defined.

Lemma pmod_one q p : pmod q p [1] = [].
Proof. destruct p; reflexivity. Qed.

Lemma nth_range n i : (i < n)%nat -> nth i (range n) 0 = Z.of_nat i.
Proof.
  intro Hi. unfold range.
  replace 0 with (Z.of_nat 0) by reflexivity.
  now rewrite map_nth, seq_nth.
Qed.

Lemma map_nth_range (l : list Z) :
  map (fun index => nth (Z.to_nat index) l 0) (range (length l)) = l.
Proof.
  apply (nth_ext _ _ 0 0).
  - now rewrite length_map, length_range.
  - intros i Hi. rewrite length_map, length_range in Hi.
    rewrite nth_map_range by assumption. now rewrite Nat2Z.id.
Qed.

Lemma nth_map_mod q l i :
  nth i (map (fun c => c mod q) l) 0 = nth i l 0 mod q.
Proof.
  change 0 with ((fun c => c mod q) 0) at 1. now rewrite map_nth.
Qed.

Lemma decoder_zero_bound_cases q codeword k :
  Z.prime q -> Z.of_nat (length codeword) <= q -> (k <= length codeword)%nat ->
  rs_decoder q codeword k 0 =
  match solve_right q (length codeword) (equations q codeword)
                    (result_column q codeword) with
  | Returned _ => Returned (Some (ring q (firstn k codeword)))
  | Raised _ => Returned None
  end.
Proof.
  intros Hq Hn Hk. unfold rs_decoder.
  destruct (solve_right q (length codeword) (equations q codeword)
                        (result_column q codeword)) as [unknowns|e];
    [|reflexivity].
  pose proof (prime_gt_1 q Hq) as Hq1.
  assert (HE : error_locator q 0 unknowns = [1]).
  { unfold error_locator, ring. cbn [firstn app map strip].
    rewrite Z.mod_1_l by assumption. reflexivity. }
  rewrite HE, pmod_one. cbn [is_zero forallb].
  assert (HS : correct_symbol_indices q (length codeword) [1] =
               range (length codeword)).
  { unfold correct_symbol_indices. apply forallb_filter_id.
    apply forallb_forall. intros x _. cbn [eval].
    rewrite Z.mul_0_r, Z.add_0_r, Z.mod_1_l by assumption. reflexivity. }
  rewrite HS, map_nth_range.
  destruct (lagrange_polynomial_returns q
              (combine (range (length codeword)) codeword)) as [L HL].
  { rewrite map_fst_combine by apply length_range.
    now apply distinct_mod_range. }
  rewrite HL. cbn [bind]. do 2 f_equal.
  destruct (lagrange_polynomial_spec q Hq _ _ HL) as [_ Hval].
  unfold ring. f_equal.
  apply (nth_ext _ _ 0 0).
  - rewrite !length_map, length_range, length_firstn. lia.
  - intros i Hi. rewrite !length_map, length_range in Hi.
    rewrite !nth_map_mod, nth_map_range by assumption.
    rewrite (Hval _ _ (in_combine_range codeword i ltac:(lia))).
    rewrite Zmod_mod. f_equal.
    rewrite nth_firstn. destruct (Nat.ltb_spec i k); [reflexivity | lia].
Qed.

(** *** The unique decoder with the bound 0 *)

(** X4: with the declared bound 0 the unique decoder checks nothing: any
    message it returns is made of the first [k] received symbols. *)
Theorem decoder_zero_bound q codeword k m
  (Hq : Z.prime q) (Hnq : Z.of_nat (length codeword) <= q)
  (Hk : (k <= length codeword)%nat)
  (H : rs_decoder q codeword k 0 = Returned (Some m)) :
  m = ring q (firstn k codeword).
Proof.
  rewrite decoder_zero_bound_cases in H by assumption.
  destruct (solve_right _ _ _ _); congruence.
Qed.

Lemma decoder_zero_bound_witness :
  [1; 2; 4] = ring 7 (firstn 3 [1; 2; 4; 0; 4; 2; 3]).
Proof.
  assert (Hnq : Z.of_nat (length [1; 2; 4; 0; 4; 2; 3]) <= 7) by (cbn; lia).
  assert (Hk : Nat.le 3 (length ([1; 2; 4; 0; 4; 2; 3]%Z : list Z)))
    by (cbn; lia).
  assert (H : rs_decoder 7 [1; 2; 4; 0; 4; 2; 3] 3 0 =
              Returned (Some [1; 2; 4])) by reflexivity.
  exact (decoder_zero_bound 7 [1; 2; 4; 0; 4; 2; 3] 3 [1; 2; 4]
           prime_7 Hnq Hk H).
Defined.

(** *** The key equations of the unique decoder *)

(** X5: the key equations.  The unknowns the solver returns for the system
    of the unique decoder are the two low coefficients [e0, e1] of a monic
    quadratic [E] and the [n - 2] coefficients of a polynomial [Q] with
    [Q(i) = codeword[i] * E(i)] at every position [i]; the solver returns
    whenever such [E] and [Q] exist. *)
Theorem key_equations q codeword
  (Hq : Z.prime q) (Hn : (2 <= length codeword)%nat) :
  (forall unknowns,
     solve_right q (length codeword) (equations q codeword)
                 (result_column q codeword) = Returned unknowns ->
     exists e0 e1 qs,
       unknowns = e0 :: e1 :: qs /\
       length qs = (length codeword - 2)%nat /\
       forall i, (i < length codeword)%nat ->
         eval q qs (Z.of_nat i) =
         (nth i codeword 0 * eval q [e0; e1; 1] (Z.of_nat i)) mod q) /\
  ((exists e0 e1 qs,
      length qs = (length codeword - 2)%nat /\
      forall i, (i < length codeword)%nat ->
        eval q qs (Z.of_nat i) =
        (nth i codeword 0 * eval q [e0; e1; 1] (Z.of_nat i)) mod q) ->
   exists unknowns,
     solve_right q (length codeword) (equations q codeword)
                 (result_column q codeword) = Returned unknowns).
Proof.
  assert (Hlen : length (equations q codeword) =
                 length (result_column q codeword))
    by now rewrite length_equations, length_result_column.
  split.
  - intros unknowns H. unfold solve_right in H.
    destruct (solve_equations q (length codeword)
                (combine (equations q codeword) (result_column q codeword)))
      as [x|] eqn:Hs; [|discriminate].
    inversion H; subst x. clear H.
    apply (solve_equations_sound q Hq) in Hs. destruct Hs as [Hlx Hsat].
    destruct unknowns as [|e0 [|e1 qs]]; cbn [length] in Hlx; try lia.
    exists e0, e1, qs. split; [reflexivity|]. split; [lia|].
    intros i Hi. apply equation_meaning; [assumption | lia |].
    rewrite Forall_forall in Hsat.
    apply (Hsat (nth i (equations q codeword) [],
                 nth i (result_column q codeword) 0)).
    apply nth_in_combine; [assumption|]. now rewrite length_equations.
  - intros (e0 & e1 & qs & Hqs & Hall).
    destruct (solve_equations_complete q Hq (length codeword)
                (combine (equations q codeword) (result_column q codeword))
                (e0 :: e1 :: qs)) as [x Hx].
    + cbn [length]. lia.
    + apply Forall_forall. intros [ra rb] Hin.
      destruct (in_combine_nth _ _ _ _ Hlen Hin) as (i & Hi & <- & <-).
      rewrite length_equations in Hi. unfold sat. cbn [fst snd].
      apply equation_meaning; [assumption | lia | now apply Hall].
    + exists x. unfold solve_right. now rewrite Hx.
Qed.

Lemma key_equations_witness :
  exists e0 e1 qs,
    [6; 6; 6; 2; 0; 0; 4] = e0 :: e1 :: qs /\
    length qs = Nat.sub (length ([1; 2; 4; 0; 4; 2; 1]%Z : list Z)) 2 /\
    forall i, Nat.lt i (length ([1; 2; 4; 0; 4; 2; 1]%Z : list Z)) ->
      eval 7 qs (Z.of_nat i) =
      (nth i [1; 2; 4; 0; 4; 2; 1] 0 * eval 7 [e0; e1; 1] (Z.of_nat i)) mod 7.
Proof.
  assert (Hn : Nat.le 2 (length ([1; 2; 4; 0; 4; 2; 1]%Z : list Z)))
    by (cbn; lia).
  apply (proj1 (key_equations 7 [1; 2; 4; 0; 4; 2; 1] prime_7 Hn)).
  reflexivity.
Defined.

(** ** Encoder: linearity, distance, round trip *)

Lemma in_field_nth q l i : in_field q l -> 0 < q -> 0 <= nth i l 0 < q.
Proof.
  intros Hl Hq. destruct (Nat.lt_ge_cases i (length l)) as [Hi|Hi].
  - unfold in_field in Hl. rewrite Forall_forall in Hl. now apply Hl, nth_In.
  - rewrite nth_overflow by assumption. lia.
Qed.

(** The interpolant of the encoder takes the message as its values. *)
Lemma encoder_interpolant q msg n cw :
  Z.prime q -> rs_encoder q msg n = Returned cw ->
  exists lp,
    (length lp <= length msg)%nat /\
    distinct_mod q (range (length msg)) /\
    (forall j, (j < length msg)%nat ->
               eval q lp (Z.of_nat j) = nth j msg 0 mod q) /\
    (forall i, (i < n)%nat -> coeff cw i = eval q lp (Z.of_nat i)).
Proof.
  intros Hq Hcw.
  destruct (rs_encoder_inv _ _ _ _ Hcw) as (lp & Hlp & _ & Hcoeff).
  destruct (lagrange_polynomial_spec q Hq _ _ Hlp) as [Hlen Hval].
  rewrite length_combine, length_range, Nat.min_id in Hlen.
  exists lp. split; [exact Hlen|]. split; [|split; [|exact Hcoeff]].
  - unfold lagrange_polynomial in Hlp.
    destruct (distinct_nodes q (map fst (combine (range (length msg)) msg)))
      eqn:Hd; [|discriminate].
    apply (distinct_nodes_spec q) in Hd.
    now rewrite map_fst_combine in Hd by apply length_range.
  - intros j Hj. apply Hval. now apply in_combine_range.
Qed.

(** Two polynomials with at most [k] coefficients that agree at [k] points,
    distinct in GF(q), agree everywhere. *)
Lemma agree_everywhere q (Hq : Z.prime q) p1 p2 roots :
  distinct_mod q roots ->
  (length p1 <= length roots)%nat -> (length p2 <= length roots)%nat ->
  (forall x, In x roots -> eval q p1 x = eval q p2 x) ->
  forall x, eval q p1 x = eval q p2 x.
Proof.
  intros Hd H1 H2 Hagree x.
  assert (Hz : zero_mod q (padd p1 (pscale (-1) p2))).
  { apply (roots_bound q Hq roots); [assumption| |].
    - rewrite length_padd, length_pscale. lia.
    - intros y Hy. rewrite peval_padd, peval_pscale.
      replace (peval p1 y + -1 * peval p2 y)
        with (peval p1 y - peval p2 y) by ring.
      apply Z.cong_iff_0. rewrite <- !eval_peval. now apply Hagree. }
  pose proof (zero_mod_peval q _ x Hz) as H.
  rewrite peval_padd, peval_pscale in H.
  replace (peval p1 x + -1 * peval p2 x)
    with (peval p1 x - peval p2 x) in H by ring.
  apply Z.cong_iff_0 in H. now rewrite !eval_peval.
Qed.

Lemma eval_padd q p r x :
  eval q (padd p r) x = (eval q p x + eval q r x) mod q.
Proof. now rewrite !eval_peval, peval_padd, <- Zplus_mod. Qed.

Lemma length_vadd_min q l1 l2 :
  length (vadd q l1 l2) = Nat.min (length l1) (length l2).
Proof. unfold vadd. now rewrite length_map, length_combine. Qed.

Lemma nth_vadd_eq q l1 l2 i :
  length l1 = length l2 ->
  nth i (vadd q l1 l2) 0 = (nth i l1 0 + nth i l2 0) mod q.
Proof.
  intro Hlen. unfold vadd.
  set (f := fun xy : Z * Z => (fst xy + snd xy) mod q).
  assert (Hf : f (0, 0) = 0) by reflexivity.
  rewrite <- Hf at 1. rewrite map_nth, combine_nth by assumption.
  reflexivity.
Qed.

Lemma range_in_nat n x :
  In x (range n) -> exists i, (i < n)%nat /\ x = Z.of_nat i.
Proof.
  intro Hx. apply in_range in Hx. exists (Z.to_nat x). split; lia.
Qed.

(** X6: the encoder is additive.  The codeword of the sum of two messages of
    the same length has, at every position, the sum of the symbols of their
    codewords. *)
Theorem encoder_linear q msg1 msg2 n cw1 cw2 cw12 :
  Z.prime q -> length msg1 = length msg2 ->
  rs_encoder q msg1 n = Returned cw1 ->
  rs_encoder q msg2 n = Returned cw2 ->
  rs_encoder q (vadd q msg1 msg2) n = Returned cw12 ->
  forall i, (i < n)%nat -> coeff cw12 i = (coeff cw1 i + coeff cw2 i) mod q.
Proof.
  intros Hq Hlen H1 H2 H12 i Hi.
  destruct (encoder_interpolant q _ _ _ Hq H1) as (lp1 & Hl1 & Hd & Hv1 & Hc1).
  destruct (encoder_interpolant q _ _ _ Hq H2) as (lp2 & Hl2 & _ & Hv2 & Hc2).
  destruct (encoder_interpolant q _ _ _ Hq H12) as (lp & Hl & _ & Hv & Hc).
  rewrite length_vadd_min, <- Hlen, Nat.min_id in Hl, Hv.
  rewrite Hc, Hc1, Hc2 by assumption. rewrite <- eval_padd.
  apply (agree_everywhere q Hq lp (padd lp1 lp2) (range (length msg1)));
    try assumption.
  - now rewrite length_range.
  - rewrite length_padd, length_range. lia.
  - intros x Hx. destruct (range_in_nat _ _ Hx) as (j & Hj & ->).
    rewrite eval_padd, Hv, Hv1, Hv2, nth_vadd_eq by (assumption || lia).
    now rewrite Zmod_mod, <- Zplus_mod.
Qed.

Lemma encoder_linear_witness :
  coeff [4; 6; 1; 3] 2 = (coeff [1; 2; 3; 4] 2 + coeff [3; 4; 5; 6] 2) mod 7.
Proof.
  assert (Hlen : length [1; 2] = length [3; 4]) by reflexivity.
  assert (H1 : rs_encoder 7 [1; 2] 4 = Returned [1; 2; 3; 4]) by reflexivity.
  assert (H2 : rs_encoder 7 [3; 4] 4 = Returned [3; 4; 5; 6]) by reflexivity.
  assert (H12 : rs_encoder 7 (vadd 7 [1; 2] [3; 4]) 4 = Returned [4; 6; 1; 3])
    by reflexivity.
  assert (Hi : (2 < 4)%nat) by lia.
  exact (encoder_linear 7 [1; 2] [3; 4] 4 [1; 2; 3; 4] [3; 4; 5; 6]
           [4; 6; 1; 3] prime_7 Hlen H1 H2 H12 2%nat Hi).
Defined.

(** X7: minimum distance.  The codewords of two different messages of
    length [k] over GF(q), at [n <= q] points, agree at fewer than [k] of the
    positions [0..n-1]. *)
Theorem encoder_distance q msg1 msg2 n cw1 cw2 :
  Z.prime q -> in_field q msg1 -> in_field q msg2 ->
  length msg1 = length msg2 -> Z.of_nat n <= q ->
  rs_encoder q msg1 n = Returned cw1 ->
  rs_encoder q msg2 n = Returned cw2 ->
  msg1 <> msg2 ->
  (length (filter (fun i => Z.eqb (coeff cw1 i) (coeff cw2 i)) (seq 0 n))
   < length msg1)%nat.
Proof.
  intros Hq Hf1 Hf2 Hlen Hn H1 H2 Hne.
  destruct (encoder_interpolant q _ _ _ Hq H1) as (lp1 & Hl1 & Hd & Hv1 & Hc1).
  destruct (encoder_interpolant q _ _ _ Hq H2) as (lp2 & Hl2 & _ & Hv2 & Hc2).
  set (agree := filter (fun i => Z.eqb (coeff cw1 i) (coeff cw2 i)) (seq 0 n)).
  destruct (Nat.lt_ge_cases (length agree) (length msg1)) as [|Hge];
    [assumption|].
  exfalso. apply Hne.
  pose proof (prime_gt_1 q Hq) as Hq1.
  assert (Hsame : forall x, eval q lp1 x = eval q lp2 x).
  { apply (agree_everywhere q Hq lp1 lp2 (map Z.of_nat agree)).
    - apply distinct_mod_small.
      + apply NoDup_map_NoDup_ForallPairs;
          [intros a b _ _ Hab; lia | apply NoDup_filter, seq_NoDup].
      + apply Forall_forall. intros x Hx. apply in_map_iff in Hx.
        destruct Hx as (i & <- & Hi). apply filter_In in Hi.
        destruct Hi as [Hi _]. apply in_seq in Hi. lia.
    - rewrite length_map. lia.
    - rewrite length_map. lia.
    - intros x Hx. apply in_map_iff in Hx. destruct Hx as (i & <- & Hi).
      apply filter_In in Hi. destruct Hi as [Hi Heq].
      apply in_seq in Hi. apply Z.eqb_eq in Heq.
      rewrite <- Hc1, <- Hc2 by lia. exact Heq. }
  apply (nth_ext _ _ 0 0); [assumption|].
  intros j Hj.
  rewrite <- (Z.mod_small (nth j msg1 0) q)
    by (apply in_field_nth; [assumption | lia]).
  rewrite <- (Z.mod_small (nth j msg2 0) q)
    by (apply in_field_nth; [assumption | lia]).
  rewrite <- Hv1, <- Hv2 by lia. apply Hsame.
Qed.

Lemma encoder_distance_witness :
  Nat.lt (length (filter (fun i => Z.eqb (coeff ([1; 2; 3; 4]%Z : list Z) i)
                                        (coeff [3; 4; 5; 6] i)) (seq 0 4)))
         (length [1; 2]).
Proof.
  assert (Hf1 : in_field 7 [1; 2]) by (repeat constructor; lia).
  assert (Hf2 : in_field 7 [3; 4]) by (repeat constructor; lia).
  assert (Hlen : length [1; 2] = length [3; 4]) by reflexivity.
  assert (Hn : Z.of_nat 4 <= 7) by (cbn; lia).
  assert (H1 : rs_encoder 7 [1; 2] 4 = Returned [1; 2; 3; 4]) by reflexivity.
  assert (H2 : rs_encoder 7 [3; 4] 4 = Returned [3; 4; 5; 6]) by reflexivity.
  assert (Hne : [1; 2] <> [3; 4]) by discriminate.
  exact (encoder_distance 7 [1; 2] [3; 4] 4 [1; 2; 3; 4] [3; 4; 5; 6]
           prime_7 Hf1 Hf2 Hlen Hn H1 H2 Hne).
Defined.

(** X2: round trip with the bound 0.  For [n >= k + 4] points, distinct in
    GF(q), a codeword that kept its [n] coefficients (its last symbol is not
    zero) is decoded to the message. *)
Theorem round_trip_zero_bound q msg n cw :
  Z.prime q -> in_field q msg ->
  (length msg + 4 <= n)%nat -> Z.of_nat n <= q ->
  rs_encoder q msg n = Returned cw ->
  length (coeffs cw) = n ->
  rs_decoder q (coeffs cw) (length msg) 0 = Returned (Some (ring q msg)).
Proof.
  intros Hq Hf Hn Hnq Hcw Hfull. unfold coeffs in *.
  destruct (encoder_interpolant q _ _ _ Hq Hcw) as (lp & Hl & _ & Hv & Hc).
  pose proof (prime_gt_1 q Hq) as Hq1.
  rewrite decoder_zero_bound_cases by (rewrite ?Hfull; assumption || lia).
  rewrite Hfull.
  destruct (system_has_solution q Hq lp cw (length msg) n (-1) (-1)
              Hl Hfull Hn) as (e0 & e1 & qs & Hsolve & _).
  { intros i Hi _ _. fold (coeff cw i). rewrite Hc by assumption.
    apply eval_mod. }
  rewrite Hsolve. do 3 f_equal.
  apply (nth_ext _ _ 0 0).
  - rewrite length_firstn. lia.
  - intros j Hj. rewrite length_firstn in Hj.
    rewrite nth_firstn. destruct (Nat.ltb_spec j (length msg)); [|lia].
    fold (coeff cw j). rewrite Hc, Hv by lia.
    apply Z.mod_small, in_field_nth; [assumption | lia].
Qed.

Lemma round_trip_zero_bound_witness :
  rs_decoder 7 (coeffs [1; 2; 4; 0; 4; 2; 1]) (length [1; 2; 4]) 0 =
  Returned (Some (ring 7 [1; 2; 4])).
Proof.
  assert (Hf : in_field 7 [1; 2; 4]) by (repeat constructor; lia).
  assert (Hn : Nat.le (length ([1; 2; 4]%Z : list Z) + 4) 7) by (cbn; lia).
  assert (Hnq : Z.of_nat 7 <= 7) by (cbn; lia).
  assert (Hcw : rs_encoder 7 [1; 2; 4] 7 = Returned [1; 2; 4; 0; 4; 2; 1])
    by reflexivity.
  assert (Hfull : length (coeffs [1; 2; 4; 0; 4; 2; 1]) = 7%nat)
    by reflexivity.
  exact (round_trip_zero_bound 7 [1; 2; 4] 7 [1; 2; 4; 0; 4; 2; 1]
           prime_7 Hf Hn Hnq Hcw Hfull).
Defined.

(** *** When the encoder raises *)

Lemma distinct_mod_range_inv q k :
  0 < q -> distinct_mod q (range k) -> Z.of_nat k <= q.
Proof.
  intros Hq Hd. unfold distinct_mod in Hd.
  assert (Hincl : incl (map (fun x => x mod q) (range k))
                       (range (Z.to_nat q))).
  { intros y Hy. apply in_map_iff in Hy. destruct Hy as (x & <- & _).
    pose proof (Z.mod_pos_bound x q Hq). unfold range.
    apply in_map_iff. exists (Z.to_nat (x mod q)). split; [lia|].
    apply in_seq. lia. }
  apply NoDup_incl_length in Hincl; [|assumption].
  rewrite length_map, !length_range in Hincl. lia.
Qed.

(** X8: over GF(q), [q] prime, the encoder raises [ZeroDivisionError]
    exactly for the messages with more than [q] symbols, whose nodes
    [0..k-1] collide in GF(q), and returns a codeword for all the others,
    whatever [n] is. *)
Theorem encoder_raises_iff q msg n (Hq : Z.prime q) :
  (rs_encoder q msg n = Raised ZeroDivisionError <->
   q < Z.of_nat (length msg)) /\
  ((exists cw, rs_encoder q msg n = Returned cw) <->
   Z.of_nat (length msg) <= q).
Proof.
  assert (Hq0 : 0 < q) by (pose proof (prime_gt_1 q Hq); lia).
  unfold rs_encoder, lagrange_polynomial.
  rewrite map_fst_combine by apply length_range.
  destruct (distinct_nodes q (range (length msg))) eqn:Hd; cbn [bind].
  - apply distinct_nodes_spec, distinct_mod_range_inv in Hd; [|assumption].
    split; split; try discriminate; try lia; eauto.
  - assert (Hlt : q < Z.of_nat (length msg)).
    { destruct (Z.lt_ge_cases q (Z.of_nat (length msg))) as [|Hle];
        [assumption|].
      apply (distinct_mod_range q) in Hle. apply distinct_nodes_spec in Hle.
      congruence. }
    split; split; try reflexivity; try lia; auto.
    intros (cw & H). discriminate.
Qed.

Lemma encoder_raises_iff_witness :
  rs_encoder 7 [1; 1; 1; 1; 1; 1; 1; 1] 8 = Raised ZeroDivisionError.
Proof.
  apply (proj2 (proj1 (encoder_raises_iff 7 [1; 1; 1; 1; 1; 1; 1; 1] 8
                         prime_7))).
  cbn. lia.
Defined.

(** ** Candidate filter and factors of the list decoder *)

(** *** Candidate filter *)

Lemma filter_spec q factors xs ys num_of_errors k P :
  In P (get_factors_with_less_errors q factors xs ys num_of_errors k) <->
  In P factors /\ degree q P <= Z.of_nat k /\
  (mismatches q P (combine xs ys) <= num_of_errors)%nat.
Proof.
  unfold get_factors_with_less_errors. rewrite filter_loop. cbn [app].
  rewrite filter_In, andb_true_iff, Z.leb_le, Nat.leb_le. tauto.
Qed.

(** X9: a larger error budget and a larger degree bound keep every
    candidate the filter kept. *)
Theorem filter_monotone q factors xs ys t t' k k' P :
  (t <= t')%nat -> (k <= k')%nat ->
  In P (get_factors_with_less_errors q factors xs ys t k) ->
  In P (get_factors_with_less_errors q factors xs ys t' k').
Proof.
  intros Ht Hk. rewrite !filter_spec. intros (H1 & H2 & H3).
  repeat split; try assumption; lia.
Qed.

Lemma filter_monotone_witness :
  In [0; 1] (get_factors_with_less_errors 7 [[0; 1]] [0; 1] [0; 1] 1 2).
Proof.
  assert (Ht : (0 <= 1)%nat) by lia.
  assert (Hk : (1 <= 2)%nat) by lia.
  apply (filter_monotone 7 [[0; 1]] [0; 1] [0; 1] 0 1 1 2 [0; 1] Ht Hk).
  vm_compute. auto.
Defined.

(** *** Factors of the form [y - P(x)] *)

Lemma padd_nil_r p : padd p [] = p.
Proof. destruct p; reflexivity. Qed.

Lemma ring_ext q l l' :
  map (fun c => c mod q) l = map (fun c => c mod q) l' -> ring q l = ring q l'.
Proof. unfold ring. now intros ->. Qed.

(** X11: from the factor [y - P(x)] the polynomial [P] is read back. *)
Theorem get_p_from_factor_linear q P :
  get_p_from_factor q [pscale (-1) P; [1]] = Some (ring q P).
Proof.
  unfold get_p_from_factor, is_univariate, uses_y, univariate_polynomial,
    uses_y, bineg, y_gen.
  cbn [biadd map pscale padd skipn existsb nth].
  rewrite !padd_nil_r.
  replace (1 + -1 * 1) with 0 by reflexivity.
  replace (ring q [0]) with (@nil Z) by reflexivity.
  cbn [is_zero forallb negb orb andb].
  rewrite andb_false_r. cbn [negb].
  f_equal. apply ring_ext.
  unfold pscale. rewrite !map_map. apply map_ext. intro c.
  f_equal. ring.
Qed.

(** ** Echelon forms *)

(** *** Zero test of a polynomial *)

Lemma is_zero_strip p : is_zero (strip p) = is_zero p.
Proof.
  unfold is_zero. induction p as [|c p IH]; [reflexivity|].
  cbn [strip forallb]. rewrite <- IH.
  destruct (strip p) as [|d r]; cbn [forallb].
  - destruct (c =? 0) eqn:Hc; cbn [forallb]; now rewrite ?Hc.
  - reflexivity.
Qed.

Lemma is_zero_ring q l :
  is_zero (ring q l) = forallb (fun c => c mod q =? 0) l.
Proof.
  unfold ring. rewrite is_zero_strip. unfold is_zero.
  induction l as [|c l IH]; [reflexivity|].
  cbn [map forallb]. now rewrite IH.
Qed.

(** *** Rows of a matrix *)

Lemma nth_scale_row q a r c :
  nth c (scale_row q a r) 0 = (a * nth c r 0) mod q.
Proof.
  unfold scale_row.
  destruct (Nat.lt_ge_cases c (length r)) as [Hc|Hc].
  - rewrite (nth_indep _ 0 ((a * 0) mod q)) by now rewrite length_map.
    now rewrite (map_nth (fun x => (a * x) mod q)).
  - rewrite !nth_overflow by (rewrite ?length_map; assumption).
    now rewrite Z.mul_0_r, Zmod_0_l.
Qed.

Lemma nth_sub_row q r a p c :
  length r = length p ->
  nth c (sub_row q r a p) 0 = (nth c r 0 - a * nth c p 0) mod q.
Proof.
  intro Hlen. unfold sub_row.
  destruct (Nat.lt_ge_cases c (length r)) as [Hc|Hc].
  - rewrite (nth_indep _ 0 ((fun xy => (fst xy - a * snd xy) mod q) (0, 0)))
      by (rewrite length_map, length_combine; lia).
    rewrite (map_nth (fun xy => (fst xy - a * snd xy) mod q)).
    now rewrite combine_nth.
  - rewrite !nth_overflow
      by (rewrite ?length_map, ?length_combine; lia).
    now rewrite Z.mul_0_r, Zmod_0_l.
Qed.

Lemma length_scale_row q a r : length (scale_row q a r) = length r.
Proof. apply length_map. Qed.

Lemma length_sub_row q r a p :
  length r = length p -> length (sub_row q r a p) = length r.
Proof.
  intro H. unfold sub_row. rewrite length_map, length_combine. lia.
Qed.

Lemma find_pivot_some c rows : forall b p a,
  find_pivot c rows = Some (b, p, a) ->
  rows = b ++ p :: a /\ entry p c <> 0 /\
  Forall (fun r => entry r c = 0) b.
Proof.
  induction rows as [|r rows IH]; intros b p a H; [discriminate|].
  cbn [find_pivot] in H.
  destruct (Z.eqb_spec (entry r c) 0) as [H0|H0].
  - destruct (find_pivot c rows) as [[[b' p'] a']|]; [|discriminate].
    inversion H; subst. destruct (IH b' p a eq_refl) as (-> & Hp & Hb).
    split; [reflexivity|]. split; [assumption|]. now constructor.
  - inversion H; subst. split; [reflexivity|]. split; [assumption|constructor].
Qed.

Lemma find_pivot_none c rows :
  find_pivot c rows = None -> Forall (fun r => entry r c = 0) rows.
Proof.
  induction rows as [|r rows IH]; intro H; [constructor|].
  cbn [find_pivot] in H.
  destruct (Z.eqb_spec (entry r c) 0) as [H0|]; [|discriminate].
  constructor; [assumption|]. apply IH.
  destruct (find_pivot c rows) as [[[? ?] ?]|]; [discriminate|reflexivity].
Qed.

(** Every pivot uses up one row. *)
Lemma gauss_jordan_pivots q cols : forall done todo pivots d t p,
  gauss_jordan q cols done todo pivots = (d, t, p) ->
  (length p + length t = length pivots + length todo)%nat.
Proof.
  induction cols as [|c cols IH]; intros done todo pivots d t p H.
  - cbn in H. inversion H; subst. reflexivity.
  - cbn [gauss_jordan] in H.
    destruct (find_pivot c todo) as [[[b p0] a]|] eqn:Hf.
    + apply IH in H. destruct (find_pivot_some _ _ _ _ _ Hf) as (-> & _).
      rewrite length_map, !length_app in H. rewrite length_app.
      cbn [length] in *. lia.
    + now apply IH in H.
Qed.

Lemma length_set_nth c v l : length (set_nth c v l) = length l.
Proof.
  revert c. induction l as [|x l IH]; intros [|c]; cbn; auto.
Qed.

Lemma nth_set_nth_same c v l :
  (c < length l)%nat -> nth c (set_nth c v l) 0 = v.
Proof.
  revert c. induction l as [|x l IH]; intros [|c] H; cbn in *; try lia; auto.
  apply IH. lia.
Qed.

Lemma nth_set_nth_other c c' v l :
  c <> c' -> nth c' (set_nth c v l) 0 = nth c' l 0.
Proof.
  revert c c'. induction l as [|x l IH]; intros [|c] [|c'] H; cbn;
    try reflexivity; try lia.
  apply IH. lia.
Qed.

Lemma length_fold_set_nth (g : nat * row -> Z) ups : forall x,
  length (fold_left (fun x cr => set_nth (fst cr) (g cr) x) ups x) = length x.
Proof.
  induction ups as [|u ups IH]; intro x; cbn [fold_left]; [reflexivity|].
  now rewrite IH, length_set_nth.
Qed.

Lemma nth_fold_set_nth_other (g : nat * row -> Z) f ups : forall x,
  ~ In f (map fst ups) ->
  nth f (fold_left (fun x cr => set_nth (fst cr) (g cr) x) ups x) 0 = nth f x 0.
Proof.
  induction ups as [|u ups IH]; intros x Hf; cbn [fold_left]; [reflexivity|].
  assert (H : fst u <> f /\ ~ In f (map fst ups)) by (cbn in Hf; tauto).
  destruct H as [H1 H2]. rewrite IH by assumption.
  now apply nth_set_nth_other.
Qed.

Lemma length_kernel_vector q ncols done pivots f :
  length (kernel_vector q ncols done pivots f) = ncols.
Proof.
  unfold kernel_vector.
  rewrite (length_fold_set_nth (fun cr => (- entry (snd cr) f) mod q)).
  now rewrite length_set_nth, repeat_length.
Qed.

Lemma in_map_fst_combine {A B : Type} (l : list A) (l' : list B) x :
  In x (map fst (combine l l')) -> In x l.
Proof.
  revert l'. induction l as [|a l IH]; intros [|b l'] H; cbn in *; try tauto.
  destruct H as [H|H]; [now left | right; eauto].
Qed.

Lemma kernel_vector_free q ncols done pivots f :
  (f < ncols)%nat -> ~ In f pivots ->
  nth f (kernel_vector q ncols done pivots f) 0 = 1.
Proof.
  intros Hf Hnp. unfold kernel_vector.
  rewrite (nth_fold_set_nth_other (fun cr => (- entry (snd cr) f) mod q)).
  - apply nth_set_nth_same. now rewrite repeat_length.
  - intro H. apply Hnp. now apply in_map_fst_combine in H.
Qed.

Lemma in_field_set_nth q c v l :
  0 <= v < q -> in_field q l -> in_field q (set_nth c v l).
Proof.
  intros Hv. unfold in_field. revert c.
  induction l as [|x l IH]; intros [|c] H; cbn; try assumption.
  - inversion H; subst. now constructor.
  - inversion H; subst. constructor; auto.
Qed.

Lemma in_field_kernel_vector q ncols done pivots f :
  1 < q -> in_field q (kernel_vector q ncols done pivots f).
Proof.
  intro Hq. unfold kernel_vector.
  assert (H0 : in_field q (set_nth f 1 (repeat 0 ncols))).
  { apply in_field_set_nth; [lia|].
    unfold in_field. apply Forall_forall. intros x Hx.
    apply repeat_spec in Hx. lia. }
  revert H0. generalize (set_nth f 1 (repeat 0 ncols)).
  induction (combine pivots done) as [|u ups IH]; intros x Hx;
    cbn [fold_left]; [assumption|].
  apply IH. apply in_field_set_nth; [|assumption].
  apply Z.mod_pos_bound. lia.
Qed.

Section Echelon.

Variable q : Z.
Hypothesis Hq : Z.prime q.
Variable nc : nat.

Let rows_ok (rows : list row) : Prop :=
  Forall (fun r => length r = nc) rows.

Lemma rows_ok_eliminate c p rows :
  length p = nc -> rows_ok rows -> rows_ok (map (eliminate q c p) rows).
Proof.
  intros Hp H. unfold rows_ok in *. rewrite Forall_forall in *.
  intros r Hr. apply in_map_iff in Hr. destruct Hr as (r0 & <- & Hr0).
  unfold eliminate. rewrite length_sub_row; [auto|]. rewrite Hp. auto.
Qed.

(** Once the first pivot row is there, its leading 1 stays. *)
Lemma gauss_jordan_lead cols : forall d0 rest todo pivots c0,
  entry d0 c0 = 1 -> rows_ok (d0 :: rest) -> rows_ok todo ->
  Forall (fun r => entry r c0 = 0) todo ->
  exists d' rest',
    fst (fst (gauss_jordan q cols (d0 :: rest) todo pivots)) = d' :: rest' /\
    entry d' c0 = 1 /\ length d' = nc.
Proof.
  pose proof (prime_gt_1 q Hq) as Hq1.
  induction cols as [|c cols IH]; intros d0 rest todo pivots c0 H1 Hd Ht H0.
  - cbn. exists d0, rest. split; [reflexivity|]. split; [assumption|].
    now inversion Hd.
  - cbn [gauss_jordan].
    destruct (find_pivot c todo) as [[[b p] a]|] eqn:Hf; [|now apply IH].
    destruct (find_pivot_some _ _ _ _ _ Hf) as (-> & Hpc & _).
    set (p' := scale_row q (Z.invmod (entry p c) q) p).
    assert (Hp : length p = nc /\ entry p c0 = 0).
    { unfold rows_ok in Ht. rewrite Forall_forall in Ht, H0.
      split; [apply Ht | apply H0]; apply in_or_app; right; now left. }
    assert (Hp' : length p' = nc)
      by (unfold p'; rewrite length_scale_row; tauto).
    assert (Hp0 : entry p' c0 = 0).
    { unfold p', entry. rewrite nth_scale_row.
      destruct Hp as [_ Hp]. unfold entry in Hp. rewrite Hp.
      now rewrite Z.mul_0_r, Zmod_0_l. }
    assert (Hba : rows_ok (b ++ a) /\
                  Forall (fun r => entry r c0 = 0) (b ++ a)).
    { unfold rows_ok in *. rewrite !Forall_app in *.
      destruct Ht as [Hb Ha]. destruct H0 as [Hb0 Ha0].
      inversion Ha; inversion Ha0; subst. tauto. }
    cbn [map app].
    apply IH.
    + unfold eliminate, entry in *. rewrite nth_sub_row.
      * rewrite H1, Hp0, Z.mul_0_r, Z.sub_0_r. now apply Z.mod_1_l.
      * rewrite Hp'. now inversion Hd.
    + change (eliminate q c p' d0 :: map (eliminate q c p') rest ++ [p'])
        with (map (eliminate q c p') (d0 :: rest) ++ [p']).
      unfold rows_ok. apply Forall_app. split.
      * now apply rows_ok_eliminate.
      * now constructor.
    + apply rows_ok_eliminate; tauto.
    + destruct Hba as [Hok Hz]. rewrite Forall_forall in *.
      intros r Hr. apply in_map_iff in Hr. destruct Hr as (r0 & <- & Hr0).
      unfold eliminate, entry in *. rewrite nth_sub_row.
      * rewrite (Hz r0 Hr0), Hp0, Z.mul_0_r. reflexivity.
      * rewrite Hp'. unfold rows_ok in Hok. rewrite Forall_forall in Hok. auto.
Qed.

(** Rows with a non-zero entry give an echelon form with a first row, and
    this row has an entry 1. *)
Lemma gauss_jordan_first cols : forall todo pivots,
  rows_ok todo -> Forall (in_field q) todo ->
  (exists r c, In r todo /\ In c cols /\ entry r c <> 0) ->
  exists d' rest' c0,
    fst (fst (gauss_jordan q cols [] todo pivots)) = d' :: rest' /\
    entry d' c0 = 1 /\ length d' = nc.
Proof.
  pose proof (prime_gt_1 q Hq) as Hq1.
  induction cols as [|c cols IH]; intros todo pivots Hok Hfield Hex.
  - destruct Hex as (_ & c & _ & [] & _).
  - cbn [gauss_jordan].
    destruct (find_pivot c todo) as [[[b p] a]|] eqn:Hf.
    + destruct (find_pivot_some _ _ _ _ _ Hf) as (-> & Hpc & _).
      set (p' := scale_row q (Z.invmod (entry p c) q) p).
      assert (Hp : length p = nc /\ in_field q p).
      { unfold rows_ok in Hok. rewrite Forall_forall in Hok, Hfield.
        split; [apply Hok | apply Hfield]; apply in_or_app; right; now left. }
      assert (Hp' : length p' = nc)
        by (unfold p'; rewrite length_scale_row; tauto).
      assert (Hp1 : entry p' c = 1).
      { unfold p', entry. rewrite nth_scale_row.
        apply Z.invmod_prime; [assumption|].
        fold (entry p c). rewrite Z.mod_small; [assumption|].
        apply in_field_nth; [tauto | lia]. }
      assert (Hba : rows_ok (b ++ a)).
      { unfold rows_ok in *. rewrite !Forall_app in *.
        destruct Hok as [Hb Ha]. inversion Ha; subst. tauto. }
      cbn [map app].
      destruct (gauss_jordan_lead cols p' [] (map (eliminate q c p') (b ++ a))
                  (pivots ++ [c]) c Hp1) as (d' & rest' & H & H1 & Hlen).
      * now constructor.
      * now apply rows_ok_eliminate.
      * rewrite Forall_forall. intros r Hr. apply in_map_iff in Hr.
        destruct Hr as (r0 & <- & Hr0).
        unfold eliminate, entry in *. rewrite nth_sub_row.
        -- rewrite Hp1, Z.mul_1_r, Z.sub_diag. reflexivity.
        -- rewrite Hp'. unfold rows_ok in Hba. rewrite Forall_forall in Hba.
           auto.
      * exists d', rest', c. auto.
    + apply IH; try assumption.
      destruct Hex as (r & c1 & Hr & Hc1 & Hne).
      exists r, c1. split; [assumption|]. split; [|assumption].
      destruct Hc1 as [<-|Hc1]; [|assumption].
      apply find_pivot_none in Hf. rewrite Forall_forall in Hf.
      now rewrite (Hf r Hr) in Hne.
Qed.

End Echelon.

Lemma is_zero_ring_false q l :
  is_zero (ring q l) = false <-> exists i, nth i l 0 mod q <> 0.
Proof.
  rewrite is_zero_ring. split.
  - intro H. induction l as [|c l IH]; [discriminate|].
    cbn [forallb] in H. apply andb_false_iff in H. destruct H as [H|H].
    + exists 0%nat. cbn. now apply Z.eqb_neq in H.
    + destruct (IH H) as (i & Hi). now exists (S i).
  - intros (i & Hi). revert i Hi.
    induction l as [|c l IH]; intros i Hi.
    + exfalso. apply Hi. destruct i; reflexivity.
    + cbn [forallb]. apply andb_false_iff. destruct i as [|i].
      * left. now apply Z.eqb_neq.
      * right. now apply (IH i).
Qed.

(** X12: a factor [A(x) + u y] is rejected exactly when [A] is not constant
    and [u] is not 1 in GF(q): a constant multiple [u (y - P(x))] of a
    linear factor is not recognised, and a factor in [y] alone is accepted
    whatever [u] is. *)
Theorem get_p_from_factor_rejects q A u :
  1 < q ->
  (get_p_from_factor q [A; [u]] = None <->
   (exists i, nth (S i) A 0 mod q <> 0) /\ u mod q <> 1).
Proof.
  intro Hq.
  unfold get_p_from_factor, is_univariate, uses_x, uses_y, bineg, y_gen.
  cbn [biadd map pscale padd]. rewrite !padd_nil_r.
  change (skipn 1 [A; [u + -1 * 1]]) with [[u + -1 * 1]].
  cbn [existsb].
  change (skipn 1 [u + -1 * 1]) with (@nil Z).
  replace (ring q []) with (@nil Z) by reflexivity.
  cbn [is_zero forallb negb]. rewrite !orb_false_r.
  assert (Hx : is_zero (ring q (skipn 1 A)) = false <->
               exists i, nth (S i) A 0 mod q <> 0).
  { rewrite is_zero_ring_false. destruct A as [|a A]; cbn [skipn nth].
    - split; intros (i & Hi); exfalso; apply Hi; destruct i; reflexivity.
    - reflexivity. }
  assert (Hy : is_zero (ring q [u + -1 * 1]) = false <-> u mod q <> 1).
  { rewrite is_zero_ring. cbn [forallb]. rewrite andb_true_r.
    rewrite Z.eqb_neq. replace (u + -1 * 1) with (u - 1) by ring.
    rewrite <- (Z.mod_1_l q) at 2 by assumption.
    rewrite Z.cong_iff_0. reflexivity. }
  destruct (is_zero (ring q (skipn 1 A)));
    destruct (is_zero (ring q [u + -1 * 1])); cbn [negb andb]; cbv iota.
  - split; [discriminate|]. intros [H _]. apply Hx in H. discriminate.
  - split; [discriminate|]. intros [H _]. apply Hx in H. discriminate.
  - split; [discriminate|]. intros [_ H]. apply Hy in H. discriminate.
  - split; [|reflexivity]. intros _.
    split; [now apply Hx | now apply Hy].
Qed.

Lemma get_p_from_factor_rejects_witness :
  get_p_from_factor 7 [[0; 5]; [2]] = None.
Proof.
  assert (Hq : 1 < 7) by lia.
  apply (proj2 (get_p_from_factor_rejects 7 [0; 5] 2 Hq)).
  split; [exists 0%nat; vm_compute; discriminate | vm_compute; discriminate].
Defined.

(** *** The factors accepted by [get_p_from_factor] *)

Lemma is_zero_ring_true q l :
  is_zero (ring q l) = true <-> forall i, nth i l 0 mod q = 0.
Proof.
  split.
  - intros H i. destruct (Z.eq_dec (nth i l 0 mod q) 0) as [|Hne];
      [assumption|].
    assert (Hf : is_zero (ring q l) = false)
      by (apply is_zero_ring_false; eauto).
    congruence.
  - intro H. destruct (is_zero (ring q l)) eqn:E; [reflexivity|].
    apply is_zero_ring_false in E. destruct E as (i & Hi).
    now specialize (H i).
Qed.

Lemma existsb_rows_false (g : list Z -> bool) (f : bipoly) :
  g [] = false ->
  (existsb g f = false <-> forall j, g (nth j f []) = false).
Proof.
  intro Hg. induction f as [|r f IH].
  - split; [|reflexivity]. intros _ j. now destruct j.
  - cbn [existsb]. rewrite orb_false_iff, IH. split.
    + intros [Hr Hf] [|j]; [exact Hr | apply Hf].
    + intro H. split; [apply (H 0%nat) | intro j; apply (H (S j))].
Qed.

Lemma nth_skipn_1 (r : list Z) i : nth i (skipn 1 r) 0 = nth (S i) r 0.
Proof. destruct r; [now destruct i | reflexivity]. Qed.

Lemma nth_skipn_rows (f : bipoly) j : nth j (skipn 1 f) [] = nth (S j) f [].
Proof. destruct f; [now destruct j | reflexivity]. Qed.

Lemma uses_x_false q f : uses_x q f = false <-> in_y_alone q f.
Proof.
  unfold uses_x, in_y_alone, bicoeff.
  rewrite existsb_rows_false by reflexivity. split.
  - intros H i j. specialize (H j). apply negb_false_iff in H.
    rewrite is_zero_ring_true in H. specialize (H i).
    now rewrite nth_skipn_1 in H.
  - intros H j. apply negb_false_iff, is_zero_ring_true. intro i.
    rewrite nth_skipn_1. apply H.
Qed.

Lemma uses_y_false q f :
  uses_y q f = false <-> forall i j, bicoeff f i (S j) mod q = 0.
Proof.
  unfold uses_y, bicoeff.
  rewrite existsb_rows_false by reflexivity. split.
  - intros H i j. specialize (H j). apply negb_false_iff in H.
    rewrite is_zero_ring_true in H. specialize (H i).
    now rewrite nth_skipn_rows in H.
  - intros H j. apply negb_false_iff, is_zero_ring_true. intro i.
    rewrite nth_skipn_rows. apply H.
Qed.

Lemma nth_biadd f : forall g j,
  nth j (biadd f g) [] = padd (nth j f []) (nth j g []).
Proof.
  induction f as [|a f IH]; intros [|b g] [|j]; cbn [biadd nth padd];
    rewrite ?padd_nil_r; try reflexivity.
  apply IH.
Qed.

Lemma bicoeff_biadd f g i j :
  bicoeff (biadd f g) i j = bicoeff f i j + bicoeff g i j.
Proof. unfold bicoeff. now rewrite nth_biadd, nth_padd. Qed.

Lemma bicoeff_bineg f i j : bicoeff (bineg f) i j = - bicoeff f i j.
Proof.
  unfold bicoeff, bineg. revert j.
  induction f as [|r f IH]; intros [|j]; cbn [map nth].
  - now destruct i.
  - now destruct i.
  - rewrite nth_pscale. ring.
  - apply IH.
Qed.

Lemma bicoeff_y_gen i j :
  bicoeff y_gen i j = match j, i with S O, O => 1 | _, _ => 0 end.
Proof.
  unfold bicoeff, y_gen.
  destruct j as [|[|[|j]]]; destruct i as [|[|i]]; reflexivity.
Qed.

(** The coefficients of [f - y] and of [y - f]. *)
Lemma bicoeff_minus_y f i j :
  bicoeff (biadd f (bineg y_gen)) i j =
  bicoeff f i j - match j, i with S O, O => 1 | _, _ => 0 end.
Proof. rewrite bicoeff_biadd, bicoeff_bineg, bicoeff_y_gen. ring. Qed.

Lemma bicoeff_y_minus f i j :
  bicoeff (biadd y_gen (bineg f)) i j =
  match j, i with S O, O => 1 | _, _ => 0 end - bicoeff f i j.
Proof. rewrite bicoeff_biadd, bicoeff_bineg, bicoeff_y_gen. ring. Qed.

Lemma uses_x_minus_y q f :
  uses_x q (biadd f (bineg y_gen)) = false <-> in_y_alone q f.
Proof.
  rewrite uses_x_false. unfold in_y_alone.
  split; intros H i j; specialize (H i j);
    rewrite bicoeff_minus_y in *; destruct j as [|[|j]];
    now rewrite Z.sub_0_r in *.
Qed.

Lemma uses_y_minus_y q f :
  uses_y q (biadd f (bineg y_gen)) = false <-> exists P, is_y_minus q f P.
Proof.
  rewrite uses_y_false. split.
  - intro H. exists (pscale (-1) (nth 0 f [])). intros i j.
    destruct j as [|j].
    + rewrite nth_pscale. unfold bicoeff. f_equal. ring.
    + specialize (H i j). rewrite bicoeff_minus_y in H.
      destruct j as [|j]; [destruct i as [|i]|].
      * apply Z.cong_iff_0. exact H.
      * now rewrite Z.sub_0_r in H.
      * now rewrite Z.sub_0_r in H.
  - intros (P & HP) i j. specialize (HP i (S j)).
    rewrite bicoeff_minus_y.
    destruct j as [|j]; [destruct i as [|i]|].
    + apply Z.cong_iff_0. exact HP.
    + now rewrite Z.sub_0_r.
    + now rewrite Z.sub_0_r.
Qed.

(** Coefficient lists that agree in GF(q) are the same polynomial. *)
Lemma strip_zero l : (forall i, nth i l 0 = 0) -> strip l = [].
Proof.
  induction l as [|c l IH]; intro H; [reflexivity|].
  cbn [strip]. rewrite IH by (intro i; apply (H (S i))).
  rewrite (H 0%nat : c = 0). reflexivity.
Qed.

Lemma strip_ext a : forall b,
  (forall i, nth i a 0 = nth i b 0) -> strip a = strip b.
Proof.
  induction a as [|c a IH]; intros b H.
  - symmetry. apply strip_zero. intro i. rewrite <- H. now destruct i.
  - destruct b as [|d b].
    + apply strip_zero. intro i. rewrite H. now destruct i.
    + cbn [strip]. rewrite (IH b) by (intro i; apply (H (S i))).
      now rewrite (H 0%nat : c = d).
Qed.

Lemma ring_peq q a b :
  (forall i, nth i a 0 mod q = nth i b 0 mod q) -> ring q a = ring q b.
Proof.
  intro H. unfold ring. apply strip_ext. intro i.
  rewrite !nth_map_mod. apply H.
Qed.

Lemma nth_along_y f j : nth j (along_y f) 0 = bicoeff f 0 j.
Proof.
  unfold along_y, bicoeff.
  exact (map_nth (fun r : list Z => nth 0 r 0) f [] j).
Qed.

(** The polynomial read from an accepted factor. *)
Lemma univariate_y_minus q f P :
  is_y_minus q f P ->
  univariate_polynomial q (biadd y_gen (bineg f)) = ring q P.
Proof.
  intro HP. unfold univariate_polynomial.
  assert (Hy : uses_y q (biadd y_gen (bineg f)) = false).
  { apply uses_y_false. intros i j. rewrite bicoeff_y_minus.
    specialize (HP i (S j)).
    destruct j as [|j]; [destruct i as [|i]|].
    - apply Z.cong_iff_0. symmetry. exact HP.
    - rewrite Z.sub_0_l. now apply Z_mod_zero_opp_full.
    - rewrite Z.sub_0_l. now apply Z_mod_zero_opp_full. }
  rewrite Hy. apply ring_peq. intro i.
  change (nth i (nth 0 (biadd y_gen (bineg f)) []) 0)
    with (bicoeff (biadd y_gen (bineg f)) i 0).
  rewrite bicoeff_y_minus. specialize (HP i 0%nat). cbn beta iota in HP.
  rewrite Z.sub_0_l.
  apply Z.cong_iff_0. apply Z.cong_iff_0 in HP.
  replace (- bicoeff f i 0 - nth i P 0)
    with (- (bicoeff f i 0 - - nth i P 0)) by ring.
  now apply Z_mod_zero_opp_full.
Qed.

Lemma univariate_in_y q f :
  in_y_alone q f ->
  univariate_polynomial q (biadd y_gen (bineg f)) =
  ring q (along_y (biadd y_gen (bineg f))).
Proof.
  intro Hf. unfold univariate_polynomial.
  destruct (uses_y q (biadd y_gen (bineg f))) eqn:Hy; [reflexivity|].
  rewrite uses_y_false in Hy. apply ring_peq. intro i.
  rewrite nth_along_y.
  change (nth i (nth 0 (biadd y_gen (bineg f)) []) 0)
    with (bicoeff (biadd y_gen (bineg f)) i 0).
  destruct i as [|i]; [reflexivity|].
  rewrite (Hy 0%nat i), bicoeff_y_minus, Z.sub_0_l.
  apply Z_mod_zero_opp_full, Hf.
Qed.

Lemma get_p_from_factor_some q f p :
  get_p_from_factor q f = Some p <-> read_from q f p.
Proof.
  unfold get_p_from_factor, is_univariate, read_from.
  destruct (uses_x q (biadd f (bineg y_gen))) eqn:Hx;
    destruct (uses_y q (biadd f (bineg y_gen))) eqn:Hy; cbn [andb negb].
  - split; [discriminate|]. intros [(P & HP & _)|[Hf _]].
    + assert (H : exists P, is_y_minus q f P) by eauto.
      apply uses_y_minus_y in H. congruence.
    + apply uses_x_minus_y in Hf. congruence.
  - apply uses_y_minus_y in Hy. destruct Hy as (P & HP).
    rewrite (univariate_y_minus q f P HP). split.
    + intro H. inversion H. left. eauto.
    + intros [(P' & HP' & ->)|[Hf _]].
      * f_equal. apply ring_peq. intro i.
        pose proof (HP i 0%nat) as H1. pose proof (HP' i 0%nat) as H2.
        cbn beta iota in H1, H2. rewrite H1 in H2.
        apply Z.cong_iff_0. apply Z.cong_iff_0 in H2.
        replace (nth i P 0 - nth i P' 0)
          with (- (- nth i P 0 - - nth i P' 0)) by ring.
        now apply Z_mod_zero_opp_full.
      * apply uses_x_minus_y in Hf. congruence.
  - apply uses_x_minus_y in Hx. rewrite (univariate_in_y q f Hx). split.
    + intro H. inversion H. right. auto.
    + intros [(P & HP & _)|[_ ->]]; [|reflexivity].
      assert (H : exists P, is_y_minus q f P) by eauto.
      apply uses_y_minus_y in H. congruence.
  - apply uses_x_minus_y in Hx. apply uses_y_minus_y in Hy.
    destruct Hy as (P & HP).
    rewrite (univariate_y_minus q f P HP). split.
    + intro H. inversion H. left. eauto.
    + intros [(P' & HP' & ->)|[_ ->]].
      * f_equal. apply ring_peq. intro i.
        pose proof (HP i 0%nat) as H1. pose proof (HP' i 0%nat) as H2.
        cbn beta iota in H1, H2. rewrite H1 in H2.
        apply Z.cong_iff_0. apply Z.cong_iff_0 in H2.
        replace (nth i P 0 - nth i P' 0)
          with (- (- nth i P 0 - - nth i P' 0)) by ring.
        now apply Z_mod_zero_opp_full.
      * f_equal. rewrite <- (univariate_in_y q f Hx).
        symmetry. now apply univariate_y_minus.
Qed.

Lemma get_p_from_factor_none q f :
  get_p_from_factor q f = None <-> forall p, ~ read_from q f p.
Proof.
  split.
  - intros H p Hp. apply get_p_from_factor_some in Hp. congruence.
  - intro H. destruct (get_p_from_factor q f) as [p|] eqn:E; [|reflexivity].
    apply get_p_from_factor_some in E. now apply H in E.
Qed.

Lemma in_factors_list
  (factor : bipoly -> list (bipoly * nat)) q Q p :
  In p (factors_list factor q Q) <->
  exists f, In f (map fst (factor Q)) /\ read_from q f p.
Proof.
  unfold factors_list. rewrite in_flat_map. split.
  - intros (fm & Hfm & Hp).
    destruct (get_p_from_factor q (fst fm)) as [p'|] eqn:E; [|destruct Hp].
    destruct Hp as [<-|[]]. exists (fst fm). split; [now apply in_map|].
    now apply get_p_from_factor_some.
  - intros (f & Hf & Hp). apply in_map_iff in Hf.
    destruct Hf as (fm & <- & Hfm). exists fm. split; [assumption|].
    apply get_p_from_factor_some in Hp. rewrite Hp. now left.
Qed.

(** *** The number of monomials *)

Lemma length_monomials k D :
  length (monomials k D) = list_sum (row_lengths k D).
Proof.
  unfold monomials, row_lengths.
  induction (seq 0 (D / k + 1)) as [|j js IH]; [reflexivity|].
  change (list_sum (map (fun j0 => D - k * j0 + 1) (j :: js))%nat)
    with ((D - k * j + 1) + list_sum (map (fun j0 => D - k * j0 + 1) js))%nat.
  cbn [flat_map]. rewrite length_app, IH, length_map, length_seq.
  reflexivity.
Qed.

Lemma length_list_equation q k D alpha c :
  length (list_equation q k D alpha c) = list_sum (row_lengths k D).
Proof.
  now rewrite list_equation_monomials, length_map, length_monomials.
Qed.

Lemma list_sum_snoc l a : list_sum (l ++ [a]) = (list_sum l + a)%nat.
Proof. rewrite list_sum_app. cbn. lia. Qed.

Lemma row_lengths_sum k D t :
  (1 <= k)%nat -> (t <= D / k + 1)%nat ->
  2 * Z.of_nat (list_sum (map (fun j => D - k * j + 1)%nat (seq 0 t))) =
  Z.of_nat t * (2 * (Z.of_nat D + 1) - Z.of_nat k * (Z.of_nat t - 1)).
Proof.
  intros Hk. induction t as [|t IH]; intro Ht; [reflexivity|].
  rewrite seq_S, map_app, Nat.add_0_l. cbn [map]. rewrite list_sum_snoc.
  assert (Hkt : (k * t <= D)%nat).
  { transitivity (k * (D / k))%nat.
    - apply Nat.mul_le_mono_l. lia.
    - apply Nat.Div0.mul_div_le. }
  rewrite Nat2Z.inj_add, Z.mul_add_distr_l, IH by lia.
  replace (Z.of_nat (D - k * t + 1))
    with (Z.of_nat D - Z.of_nat k * Z.of_nat t + 1) by lia.
  rewrite Nat2Z.inj_succ. ring.
Qed.

(** The system has more unknowns than equations. *)
Lemma more_monomials_than_points k n :
  (1 <= k)%nat ->
  (n < list_sum (row_lengths k (interpolation_degree k n)))%nat.
Proof.
  intro Hk. pose proof (interpolation_degree_spec k n) as HD. cbn zeta in HD.
  set (D := interpolation_degree k n) in *.
  pose proof (row_lengths_sum k D (D / k + 1) Hk (le_n _)) as Hsum.
  fold (row_lengths k D) in Hsum.
  set (S := list_sum (row_lengths k D)) in *.
  pose proof (Nat.div_mod_eq D k) as Hdm.
  assert (Hr : (D mod k < k)%nat) by (apply Nat.mod_upper_bound; lia).
  set (m := (D / k)%nat) in *. set (r := (D mod k)%nat) in *.
  rewrite Nat2Z.inj_add in Hsum. change (Z.of_nat 1) with 1 in Hsum.
  assert (HDz : Z.of_nat D = Z.of_nat k * Z.of_nat m + Z.of_nat r) by lia.
  assert (H1 : Z.of_nat k * (Z.of_nat m + 1) >= Z.of_nat D + 1) by lia.
  assert (H2 : 2 * (Z.of_nat D + 1) - Z.of_nat k * (Z.of_nat m + 1 - 1)
               >= Z.of_nat D + 2) by lia.
  assert (H3 : 2 * Z.of_nat k * Z.of_nat S >=
               (Z.of_nat D + 1) * (Z.of_nat D + 2)).
  { replace (2 * Z.of_nat k * Z.of_nat S)
      with (Z.of_nat k * (2 * Z.of_nat S)) by ring.
    rewrite Hsum.
    replace (Z.of_nat k * ((Z.of_nat m + 1) *
               (2 * (Z.of_nat D + 1) - Z.of_nat k * (Z.of_nat m + 1 - 1))))
      with ((Z.of_nat k * (Z.of_nat m + 1)) *
            (2 * (Z.of_nat D + 1) - Z.of_nat k * (Z.of_nat m + 1 - 1)))
      by ring.
    nia. }
  nia.
Qed.

(** *** Cutting the kernel vector into rows *)

Lemma firstn_add {A : Type} (a b : nat) (u : list A) :
  firstn (a + b) u = firstn a u ++ firstn b (skipn a u).
Proof.
  revert u. induction a as [|a IH]; intro u; [reflexivity|].
  destruct u as [|x u]; cbn [Nat.add firstn skipn app].
  - now rewrite firstn_nil.
  - now rewrite IH.
Qed.

Lemma concat_split_rows lens : forall unknowns,
  concat (split_rows lens unknowns) = firstn (list_sum lens) unknowns.
Proof.
  induction lens as [|l lens IH]; intro u; [reflexivity|].
  change (list_sum (l :: lens)) with (l + list_sum lens)%nat.
  cbn [split_rows concat]. now rewrite IH, firstn_add.
Qed.

Lemma split_rows_not_zero q lens unknowns c0 :
  1 < q -> length unknowns = list_sum lens -> nth c0 unknowns 0 = 1 ->
  forallb (fun r => is_zero (ring q r)) (split_rows lens unknowns) = false.
Proof.
  intros Hq Hlen H1.
  destruct (forallb _ _) eqn:Hall; [exfalso|reflexivity].
  rewrite forallb_forall in Hall.
  assert (Hin : In 1 (concat (split_rows lens unknowns))).
  { rewrite concat_split_rows, <- Hlen, firstn_all. rewrite <- H1.
    apply nth_In.
    destruct (Nat.lt_ge_cases c0 (length unknowns)); [assumption|].
    rewrite nth_overflow in H1 by assumption. discriminate. }
  apply in_concat in Hin. destruct Hin as (r & Hr & H1r).
  specialize (Hall r Hr). rewrite is_zero_ring, forallb_forall in Hall.
  specialize (Hall 1 H1r). rewrite Z.mod_1_l in Hall by assumption.
  discriminate.
Qed.

(** *** The kernel basis has a first row *)

Lemma right_kernel_matrix_first q A :
  Z.prime q -> (length A < length (hd [] A))%nat ->
  exists u rest c0,
    right_kernel_matrix q A = u :: rest /\
    nth c0 u 0 = 1 /\ length u = length (hd [] A).
Proof.
  intros Hq Hlen. pose proof (prime_gt_1 q Hq) as Hq1.
  unfold right_kernel_matrix.
  set (nc := length (hd [] A)) in *.
  destruct (gauss_jordan q (seq 0 nc) [] (reduce_rows q A) [])
    as [[done todo] pivots] eqn:H1.
  apply gauss_jordan_pivots in H1.
  unfold reduce_rows in H1. rewrite length_map in H1. cbn [length] in H1.
  set (free := filter (fun c => negb (existsb (Nat.eqb c) pivots)) (seq 0 nc)).
  assert (Hfree : exists f, In f free).
  { destruct free as [|f free'] eqn:Hf; [exfalso | exists f; now left].
    assert (Hincl : incl (seq 0 nc) pivots).
    { intros c Hc.
      destruct (existsb (Nat.eqb c) pivots) eqn:He.
      - apply existsb_exists in He. destruct He as (c' & Hc' & Heq).
        apply Nat.eqb_eq in Heq. now subst.
      - assert (Hin : In c free)
          by (unfold free; apply filter_In; rewrite He; auto).
        rewrite Hf in Hin. destruct Hin. }
    apply NoDup_incl_length in Hincl; [|apply seq_NoDup].
    rewrite length_seq in Hincl. lia. }
  destruct Hfree as (f & Hf).
  unfold free in Hf. apply filter_In in Hf. destruct Hf as [Hfc Hfp].
  apply in_seq in Hfc.
  assert (Hnp : ~ In f pivots).
  { intro Hin. apply negb_true_iff in Hfp.
    assert (He : existsb (Nat.eqb f) pivots = true)
      by (apply existsb_exists; exists f; split;
          [assumption | apply Nat.eqb_refl]).
    congruence. }
  set (basis := map (kernel_vector q nc done pivots) free).
  destruct (gauss_jordan_first q Hq nc (seq 0 nc) basis []) as
    (d' & rest' & c0 & Hd & Hc0 & Hlen').
  - apply Forall_forall. intros r Hr. apply in_map_iff in Hr.
    destruct Hr as (f' & <- & _). apply length_kernel_vector.
  - apply Forall_forall. intros r Hr. apply in_map_iff in Hr.
    destruct Hr as (f' & <- & _). now apply in_field_kernel_vector.
  - exists (kernel_vector q nc done pivots f), f.
    split; [|split].
    + apply in_map. unfold free. apply filter_In. split; [|assumption].
      apply in_seq. lia.
    + apply in_seq. lia.
    + unfold entry. rewrite kernel_vector_free by (assumption || lia).
      discriminate.
  - fold free. fold basis.
    destruct (gauss_jordan q (seq 0 nc) [] basis []) as [[echelon t2] p2].
    cbn [fst] in Hd. exists d', rest', c0. subst echelon. auto.
Qed.

Lemma interpolation_polynomial_returns q codeword k :
  Z.prime q -> (1 <= k)%nat -> codeword <> [] ->
  exists u rest,
    right_kernel_matrix q (list_equations q codeword k) = u :: rest /\
    length u = list_sum (row_lengths k
                           (interpolation_degree k (length codeword))) /\
    interpolation_polynomial q codeword k =
    Returned (split_rows
                (row_lengths k (interpolation_degree k (length codeword))) u) /\
    forallb (fun r => is_zero (ring q r))
      (split_rows (row_lengths k (interpolation_degree k (length codeword))) u)
    = false.
Proof.
  intros Hq Hk Hne. pose proof (prime_gt_1 q Hq) as Hq1.
  set (n := length codeword). set (D := interpolation_degree k n).
  assert (Hn : (1 <= n)%nat).
  { unfold n. destruct codeword; [contradiction | cbn; lia]. }
  assert (Hhd : length (hd [] (list_equations q codeword k)) =
                list_sum (row_lengths k D)).
  { unfold list_equations. fold n. fold D.
    destruct n as [|n']; [lia|]. cbn [seq map hd].
    apply length_list_equation. }
  destruct (right_kernel_matrix_first q (list_equations q codeword k) Hq)
    as (u & rest & c0 & Hker & Hc0 & Hlen).
  { rewrite Hhd. unfold list_equations. rewrite length_map, length_seq.
    apply more_monomials_than_points. assumption. }
  rewrite Hhd in Hlen.
  exists u, rest. split; [assumption|]. split; [assumption|]. split.
  - unfold interpolation_polynomial. fold n. fold D.
    destruct (Nat.eqb_spec k 0) as [->|_]; [lia|].
    rewrite andb_false_r, Hker. reflexivity.
  - now apply (split_rows_not_zero q _ u c0).
Qed.

(** X13: for [k >= 1], a word that is not empty and [q] prime the list
    decoder raises no exception: the kernel of its system has a first row,
    and the interpolation polynomial is not zero. *)
Theorem list_decoder_never_raises
  (factor : bipoly -> list (bipoly * nat)) q codeword k num_of_errors :
  Z.prime q -> (1 <= k)%nat -> codeword <> [] ->
  exists r, rs_list_decoder factor q codeword k num_of_errors = Returned r.
Proof.
  intros Hq Hk Hne.
  destruct (interpolation_polynomial_returns q codeword k Hq Hk Hne)
    as (u & rest & _ & _ & HQ & Hnz).
  unfold rs_list_decoder. rewrite HQ. cbn [bind]. rewrite Hnz.
  destruct (length _ =? 0)%nat; eauto.
Qed.

Lemma list_decoder_never_raises_witness :
  exists r, rs_list_decoder factor_irreducible 7 [6; 0; 1; 2] 2 1 = Returned r.
Proof.
  assert (Hk : (1 <= 2)%nat) by lia.
  assert (Hne : [6; 0; 1; 2] <> []) by discriminate.
  exact (list_decoder_never_raises factor_irreducible 7 [6; 0; 1; 2] 2 1
           prime_7 Hk Hne).
Defined.

(** *** The candidates of the list decoder *)

(** X10: when the list decoder returns a list, for any factorisation
    routine, its entries are exactly the values at [0..k-1] of the
    polynomials read from the factors of the interpolation polynomial
    ([P] for a factor [y - P(x)], and [y - f(y)] taken as a polynomial in
    [x] for a factor [f] in [y] alone) that have degree at most [k] and
    miss at most [num_of_errors] of the received symbols. *)
Theorem list_decoder_candidates
  (factor : bipoly -> list (bipoly * nat)) q codeword k num_of_errors msgs
  (H : rs_list_decoder factor q codeword k num_of_errors
       = Returned (Some msgs)) :
  exists Q,
    interpolation_polynomial q codeword k = Returned Q /\
    forall msg,
      In msg msgs <->
      exists f p,
        In f (map fst (factor Q)) /\ read_from q f p /\
        degree q p <= Z.of_nat k /\
        (mismatches q p (combine (range (length codeword)) codeword)
         <= num_of_errors)%nat /\
        msg = map (fun a => eval q p a) (range k).
Proof.
  unfold rs_list_decoder in H.
  destruct (interpolation_polynomial q codeword k) as [Q|e] eqn:HQ;
    cbn [bind] in H; [|discriminate].
  exists Q. split; [reflexivity|].
  destruct (forallb (fun r => is_zero (ring q r)) Q); [discriminate|].
  destruct (length (factors_list factor q Q) =? 0)%nat; [discriminate|].
  injection H as <-. intro msg. rewrite in_map_iff. split.
  - intros (p & <- & Hp). apply filter_spec in Hp.
    destruct Hp as (Hin & Hdeg & Hmis).
    apply in_factors_list in Hin. destruct Hin as (f & Hf & Hread).
    exists f, p. auto.
  - intros (f & p & Hf & Hread & Hdeg & Hmis & ->).
    exists p. split; [reflexivity|]. apply filter_spec.
    split; [|split; assumption]. apply in_factors_list. eauto.
Qed.

Lemma list_decoder_candidates_witness :
  exists Q,
    interpolation_polynomial 7 [6] 1 = Returned Q /\
    forall msg,
      In msg [[6]] <->
      exists f p,
        In f (map fst (factor_irreducible Q)) /\ read_from 7 f p /\
        degree 7 p <= Z.of_nat 1 /\
        Nat.le (mismatches 7 p (combine (range (length ([6]%Z : list Z)))
                                        ([6]%Z : list Z))) 0 /\
        msg = map (fun a => eval 7 p a) (range 1).
Proof.
  assert (H : rs_list_decoder factor_irreducible 7 [6] 1 0 =
              Returned (Some [[6]])) by reflexivity.
  exact (list_decoder_candidates factor_irreducible 7 [6] 1 0 [[6]] H).
Defined.

(** ** List decoder: outcomes *)



(** The empty word: the system has no column, its kernel basis has no row,
    and reading its first row raises. *)
Lemma list_decoder_empty_word
  (factor : bipoly -> list (bipoly * nat)) q k num_of_errors :
  rs_list_decoder factor q [] k num_of_errors = Raised IndexError.
Proof. reflexivity. Qed.


(** ** The right kernel *)

(** *** Products of rows by vectors *)

Lemma dot_comm r u : dot r u = dot u r.
Proof.
  revert u. induction r as [|a r IH]; intros [|b u]; try reflexivity.
  rewrite !dot_cons, IH. ring.
Qed.

Lemma sub_row_padd q r e p :
  length r = length p ->
  sub_row q r e p = map (fun c => c mod q) (padd r (pscale (- e) p)).
Proof.
  unfold sub_row. revert p.
  induction r as [|a r IH]; intros [|b p] Hlen; try discriminate;
    [reflexivity|].
  cbn [combine map padd pscale fst snd]. fold (pscale (- e) p).
  rewrite IH by (cbn in Hlen; lia). do 2 f_equal. ring.
Qed.

Lemma dot_sub_row q r e p x :
  length r = length p ->
  dot (sub_row q r e p) x mod q = (dot r x - e * dot p x) mod q.
Proof.
  intro Hlen. rewrite sub_row_padd by assumption.
  rewrite dot_map_mod, dot_padd, dot_pscale. f_equal. ring.
Qed.

Lemma dot_scale_row q a r x :
  dot (scale_row q a r) x mod q = (a * dot r x) mod q.
Proof. apply dot_scale_mod. Qed.

Lemma dot_zero_row r x : (forall c, nth c r 0 = 0) -> dot r x = 0.
Proof.
  revert x. induction r as [|a r IH]; intros [|b x] H; try reflexivity.
  rewrite dot_cons, IH.
  - rewrite (H 0%nat : a = 0). ring.
  - intro c. apply (H (S c)).
Qed.

Lemma dot_repeat_zero d n : dot d (repeat 0 n) = 0.
Proof. rewrite dot_comm. apply dot_zero_row. intro c. apply nth_repeat_0. Qed.

Lemma dot_set_nth d c v x :
  (c < length x)%nat ->
  dot d (set_nth c v x) = dot d x + nth c d 0 * (v - nth c x 0).
Proof.
  revert c d. induction x as [|b x IH]; intros c d Hc; [cbn in Hc; lia|].
  destruct d as [|a d].
  - rewrite !dot_nil_l. destruct c; cbn; ring.
  - destruct c as [|c]; cbn [set_nth nth].
    + rewrite !dot_cons. ring.
    + rewrite !dot_cons, IH by (cbn in Hc; lia). ring.
Qed.

(** *** Sums with a single non-zero term *)

Lemma zsum_zero {X : Type} (t : X -> Z) L :
  (forall x, In x L -> t x = 0) -> zsum t L = 0.
Proof.
  unfold zsum. induction L as [|x L IH]; intro H; [reflexivity|].
  cbn [map fold_right]. rewrite IH.
  - rewrite (H x); [reflexivity | now left].
  - intros x' Hx'. apply H. now right.
Qed.

Lemma zsum_single {X : Type} (t : X -> Z) (key : X -> nat) L x0 :
  NoDup (map key L) -> In x0 L ->
  (forall x, In x L -> key x <> key x0 -> t x = 0) ->
  zsum t L = t x0.
Proof.
  induction L as [|x L IH]; intros Hnd Hin Hz; [destruct Hin|].
  cbn [map] in Hnd. inversion Hnd as [|? ? Hx HL]; subst.
  change (zsum t (x :: L)) with (t x + zsum t L).
  destruct Hin as [->|Hin].
  - rewrite zsum_zero; [ring|].
    intros x Hx'. apply Hz; [now right|].
    intro Heq. apply Hx. rewrite <- Heq. now apply in_map.
  - rewrite IH; try assumption.
    + rewrite (Hz x); [ring | now left |].
      intro Heq. apply Hx. rewrite Heq. now apply in_map.
    + intros x' Hx' Hk. apply Hz; [now right | assumption].
Qed.

(** *** Lists of pairs *)

Lemma combine_app {A B : Type} (l1 l2 : list A) (m1 m2 : list B) :
  length l1 = length m1 ->
  combine (l1 ++ l2) (m1 ++ m2) = combine l1 m1 ++ combine l2 m2.
Proof.
  revert m1. induction l1 as [|a l1 IH]; intros [|b m1] H; try discriminate;
    [reflexivity|].
  cbn [app combine]. now rewrite IH by (cbn in H; lia).
Qed.

Lemma combine_map_r {A B C : Type} (g : B -> C) (l : list A) (m : list B) :
  combine l (map g m) = map (fun cd => (fst cd, g (snd cd))) (combine l m).
Proof.
  revert m. induction l as [|a l IH]; intros [|b m]; try reflexivity.
  cbn [map combine fst snd]. now rewrite IH.
Qed.

Lemma in_combine_of_r {A B : Type} (l : list A) (m : list B) y :
  length l = length m -> In y m -> exists x, In (x, y) (combine l m).
Proof.
  revert m. induction l as [|a l IH]; intros [|b m] H Hin; try discriminate;
    [destruct Hin|].
  destruct Hin as [->|Hin].
  - exists a. now left.
  - destruct (IH m) as (x & Hx); [cbn in H; lia | assumption|].
    exists x. now right.
Qed.

Lemma in_field_sub_row q r e p : 0 < q -> in_field q (sub_row q r e p).
Proof.
  intro Hq. unfold in_field, sub_row. apply Forall_forall.
  intros x Hx. apply in_map_iff in Hx. destruct Hx as (xy & <- & _).
  now apply Z.mod_pos_bound.
Qed.

Section KernelBasis.

Variable q : Z.
Hypothesis Hq : Z.prime q.
Variable nc : nat.

Lemma entry_eliminate c p r col :
  length r = nc -> length p = nc ->
  entry (eliminate q c p r) col = (entry r col - entry r c * entry p col) mod q.
Proof.
  intros Hr Hp. unfold eliminate, entry. apply nth_sub_row. congruence.
Qed.

Lemma length_eliminate c p r :
  length r = nc -> length p = nc -> length (eliminate q c p r) = nc.
Proof.
  intros Hr Hp. unfold eliminate. rewrite length_sub_row; congruence.
Qed.

(** One pivot: the state after the column [c] is cleared with the row [p]. *)
Lemma echelon_step processed done b p a pivots c :
  echelon_state q nc processed done (b ++ p :: a) pivots ->
  ~ In c processed -> entry p c <> 0 ->
  echelon_state q nc (processed ++ [c])
    (map (eliminate q c (scale_row q (Z.invmod (entry p c) q) p)) done ++
     [scale_row q (Z.invmod (entry p c) q) p])
    (map (eliminate q c (scale_row q (Z.invmod (entry p c) q) p)) (b ++ a))
    (pivots ++ [c]).
Proof.
  pose proof (prime_gt_1 q Hq) as Hq1.
  intros (Hlen & Hok & Hfield & (Hnd & Hdiag & Hoff) & Hpiv & Hzero) Hc Hpc.
  set (p' := scale_row q (Z.invmod (entry p c) q) p).
  rewrite Forall_app in Hok. destruct Hok as [Hokd Hokt].
  rewrite Forall_forall in Hokd, Hokt, Hfield.
  assert (Hinp : In p (b ++ p :: a)) by (apply in_or_app; right; now left).
  assert (Hba : forall r, In r (b ++ a) -> In r (b ++ p :: a)).
  { intros r Hr. apply in_app_or in Hr. apply in_or_app.
    destruct Hr; [now left | right; now right]. }
  assert (Hp' : length p' = nc)
    by (unfold p'; rewrite length_scale_row; auto).
  assert (Hp1 : entry p' c = 1).
  { unfold p', entry. rewrite nth_scale_row.
    apply Z.invmod_prime; [assumption|].
    fold (entry p c). rewrite Z.mod_small; [assumption|].
    apply in_field_nth; [auto | lia]. }
  assert (Hp0 : forall c', In c' processed -> entry p' c' = 0).
  { intros c' Hc'. unfold p', entry. rewrite nth_scale_row.
    fold (entry p c'). rewrite (Hzero p c' Hinp Hc').
    now rewrite Z.mul_0_r, Zmod_0_l. }
  assert (Hpd : forall cd, In cd (combine pivots done) ->
                  In (fst cd) processed /\ length (snd cd) = nc).
  { intros [c' d] Hin. split.
    - apply Hpiv. now apply in_combine_l in Hin.
    - apply Hokd. now apply in_combine_r in Hin. }
  split; [now rewrite !length_app, length_map, Hlen|].
  split.
  { rewrite !Forall_app. split; [split|].
    - apply Forall_forall. intros r Hr. apply in_map_iff in Hr.
      destruct Hr as (r0 & <- & Hr0). apply length_eliminate; auto.
    - now constructor.
    - apply Forall_forall. intros r Hr. apply in_map_iff in Hr.
      destruct Hr as (r0 & <- & Hr0). apply length_eliminate; auto. }
  split.
  { apply Forall_forall. intros r Hr. apply in_map_iff in Hr.
    destruct Hr as (r0 & <- & _). apply in_field_sub_row. lia. }
  split.
  { rewrite combine_app by now rewrite length_map.
    rewrite combine_map_r. cbn [combine].
    set (g := fun cd : nat * row => (fst cd, eliminate q c p' (snd cd))).
    split; [|split].
    - rewrite map_app, map_map. cbn [map fst].
      rewrite (map_ext (fun x => fst (g x)) fst) by reflexivity.
      apply NoDup_app; [assumption | repeat constructor; auto |].
      intros c' Hc' [<-|[]]. apply Hc.
      apply in_map_iff in Hc'. destruct Hc' as (cd & <- & Hcd).
      now apply Hpd.
    - intros cd Hcd. apply in_app_or in Hcd. destruct Hcd as [Hcd|[<-|[]]].
      + apply in_map_iff in Hcd. destruct Hcd as (cd0 & <- & Hcd0).
        destruct (Hpd cd0 Hcd0) as [Hin0 Hl0]. cbn [g fst snd].
        rewrite entry_eliminate by assumption.
        rewrite (Hdiag cd0 Hcd0), (Hp0 _ Hin0), Z.mul_0_r, Z.sub_0_r.
        now apply Z.mod_1_l.
      + exact Hp1.
    - intros cd cd' Hcd Hcd' Hne.
      apply in_app_or in Hcd. apply in_app_or in Hcd'.
      destruct Hcd as [Hcd|[<-|[]]]; destruct Hcd' as [Hcd'|[<-|[]]].
      + apply in_map_iff in Hcd. destruct Hcd as (cd0 & <- & Hcd0).
        apply in_map_iff in Hcd'. destruct Hcd' as (cd1 & <- & Hcd1).
        destruct (Hpd cd0 Hcd0) as [Hin0 Hl0].
        destruct (Hpd cd1 Hcd1) as [Hin1 Hl1]. cbn [g fst snd] in *.
        rewrite entry_eliminate by assumption.
        rewrite (Hoff cd0 cd1 Hcd0 Hcd1 Hne), (Hp0 _ Hin1), Z.mul_0_r.
        reflexivity.
      + apply in_map_iff in Hcd. destruct Hcd as (cd0 & <- & Hcd0).
        destruct (Hpd cd0 Hcd0) as [Hin0 Hl0]. cbn [g fst snd] in *.
        rewrite entry_eliminate by assumption.
        rewrite Hp1, Z.mul_1_r, Z.sub_diag. reflexivity.
      + apply in_map_iff in Hcd'. destruct Hcd' as (cd1 & <- & Hcd1).
        destruct (Hpd cd1 Hcd1) as [Hin1 Hl1]. cbn [g fst snd] in *.
        now apply Hp0.
      + cbn [fst] in Hne. congruence. }
  split.
  { intros c' Hc'. apply in_app_or in Hc'. apply in_or_app.
    destruct Hc' as [Hc'|Hc']; [left; auto | now right]. }
  intros r c' Hr Hc'. apply in_map_iff in Hr. destruct Hr as (r0 & <- & Hr0).
  rewrite entry_eliminate by auto.
  apply in_app_or in Hc'. destruct Hc' as [Hc'|[<-|[]]].
  - rewrite (Hzero r0 c' (Hba r0 Hr0) Hc'), (Hp0 c' Hc'), Z.mul_0_r.
    reflexivity.
  - rewrite Hp1, Z.mul_1_r, Z.sub_diag. reflexivity.
Qed.

(** The rows before the step vanish on every vector the rows after it
    vanish on. *)
Lemma kernel_step done b p a c x :
  Forall (fun r => length r = nc) (done ++ b ++ p :: a) ->
  in_field q p -> entry p c <> 0 ->
  in_kernel q
    ((map (eliminate q c (scale_row q (Z.invmod (entry p c) q) p)) done ++
      [scale_row q (Z.invmod (entry p c) q) p]) ++
     map (eliminate q c (scale_row q (Z.invmod (entry p c) q) p)) (b ++ a)) x ->
  in_kernel q (done ++ b ++ p :: a) x.
Proof.
  pose proof (prime_gt_1 q Hq) as Hq1.
  intros Hok Hfp Hpc. set (p' := scale_row q (Z.invmod (entry p c) q) p).
  unfold in_kernel. rewrite !Forall_app. intros [[Hd Hp'] Hba].
  rewrite Forall_forall in Hok, Hd, Hba.
  inversion Hp' as [|? ? Hp'0 _]; subst.
  assert (Hinp : In p (done ++ b ++ p :: a))
    by (apply in_or_app; right; apply in_or_app; right; now left).
  assert (Hlp : length p' = nc)
    by (unfold p'; rewrite length_scale_row; auto).
  assert (Hinv : (Z.invmod (entry p c) q * entry p c) mod q = 1).
  { apply Z.invmod_prime; [assumption|].
    rewrite Z.mod_small; [assumption|]. apply in_field_nth; [auto | lia]. }
  assert (Hp : dot p x mod q = 0).
  { unfold p' in Hp'0. rewrite dot_scale_row in Hp'0.
    assert (E : (Z.invmod (entry p c) q * entry p c * dot p x) mod q =
                dot p x mod q)
      by (rewrite Zmult_mod, Hinv, Z.mul_1_l, Zmod_mod; reflexivity).
    rewrite <- E.
    replace (Z.invmod (entry p c) q * entry p c * dot p x)
      with (entry p c * (Z.invmod (entry p c) q * dot p x)) by ring.
    now rewrite Zmult_mod, Hp'0, Z.mul_0_r, Zmod_0_l. }
  assert (Hrow : forall r, length r = nc ->
            dot (eliminate q c p' r) x mod q = 0 -> dot r x mod q = 0).
  { intros r Hr H. unfold eliminate in H.
    rewrite dot_sub_row in H by congruence.
    replace (dot r x) with ((dot r x - entry r c * dot p' x)
                            + entry r c * dot p' x) by ring.
    rewrite Zplus_mod, H, Zmult_mod, Hp'0, Z.mul_0_r, Zmod_0_l.
    reflexivity. }
  assert (Hall : forall rows,
            (forall r, In r rows -> length r = nc) ->
            (forall r, In r (map (eliminate q c p') rows) ->
                       dot r x mod q = 0) ->
            Forall (fun r => dot r x mod q = 0) rows).
  { intros rows Hl H. apply Forall_forall. intros r Hr.
    apply Hrow; [auto|]. apply H. now apply in_map. }
  split; [|split].
  - apply Hall; [|assumption].
    intros r Hr. apply Hok. apply in_or_app. now left.
  - apply Forall_forall. intros r Hr.
    assert (Hr' : In r (map (eliminate q c p') (b ++ a)) ->
                  dot r x mod q = 0) by apply Hba.
    apply Hrow.
    + apply Hok. apply in_or_app. right. apply in_or_app. now left.
    + apply Hba. apply in_map. apply in_or_app. now left.
  - constructor; [assumption|].
    apply Forall_forall. intros r Hr. apply Hrow.
    + apply Hok. apply in_or_app. right. apply in_or_app. right. now right.
    + apply Hba. apply in_map. apply in_or_app. now right.
Qed.

(** The elimination along the columns [cols] keeps the state, and the
    kernel of the rows. *)
Lemma gauss_jordan_state cols : forall processed done todo pivots d t pv,
  echelon_state q nc processed done todo pivots ->
  (forall c, In c cols -> ~ In c processed) -> NoDup cols ->
  gauss_jordan q cols done todo pivots = (d, t, pv) ->
  echelon_state q nc (processed ++ cols) d t pv /\
  (forall x, in_kernel q (d ++ t) x -> in_kernel q (done ++ todo) x).
Proof.
  induction cols as [|c cols IH];
    intros processed done todo pivots d t pv Hst Hfresh Hnd H.
  - cbn in H. inversion H; subst. rewrite app_nil_r. auto.
  - cbn [gauss_jordan] in H. inversion Hnd as [|? ? Hc Hnd']; subst.
    assert (Hfresh' : forall c', In c' cols -> ~ In c' (processed ++ [c])).
    { intros c' Hc' Hin. apply in_app_or in Hin.
      destruct Hin as [Hin|[<-|[]]]; [|contradiction].
      apply (Hfresh c'); [now right | assumption]. }
    replace (processed ++ c :: cols) with ((processed ++ [c]) ++ cols)
      by now rewrite <- app_assoc.
    destruct (find_pivot c todo) as [[[b p] a]|] eqn:Hf.
    + destruct (find_pivot_some _ _ _ _ _ Hf) as (-> & Hpc & _).
      assert (Hstep := echelon_step processed done b p a pivots c Hst
                         (Hfresh c (or_introl eq_refl)) Hpc).
      destruct (IH _ _ _ _ _ _ _ Hstep Hfresh' Hnd' H) as [Hst' Hker].
      split; [assumption|].
      intros x Hx. apply (kernel_step done b p a c x).
      * destruct Hst as (_ & Hok & _). exact Hok.
      * destruct Hst as (_ & _ & Hfield & _).
        rewrite Forall_forall in Hfield. apply Hfield.
        apply in_or_app. right. now left.
      * assumption.
      * now apply Hker.
    + apply (IH (processed ++ [c])) in H; try assumption.
      destruct Hst as (Hlen & Hok & Hfield & Hred & Hpiv & Hzero).
      repeat split; try assumption.
      * apply Hred.
      * apply Hred.
      * apply Hred.
      * intros c' Hc'. apply in_or_app. left. auto.
      * intros r c' Hr Hc'. apply in_app_or in Hc'.
        destruct Hc' as [Hc'|[<-|[]]]; [auto|].
        apply find_pivot_none in Hf. rewrite Forall_forall in Hf. auto.
Qed.

End KernelBasis.

(** *** The kernel basis read off the echelon form *)

Lemma dot_kernel_fold q f d ups : forall x,
  NoDup (map fst ups) ->
  (forall cd, In cd ups ->
     (fst cd < length x)%nat /\ nth (fst cd) x 0 = 0) ->
  dot d (fold_left
           (fun x (cr : nat * row) =>
              set_nth (fst cr) ((- entry (snd cr) f) mod q) x) ups x) mod q =
  (dot d x + zsum (fun cd => entry d (fst cd) * - entry (snd cd) f) ups) mod q.
Proof.
  induction ups as [|[c d'] ups IH]; intros x Hnd Hx.
  - cbn. now rewrite Z.add_0_r.
  - cbn [fold_left fst snd]. cbn [map fst] in Hnd.
    inversion Hnd as [|? ? Hc Hnd']; subst.
    destruct (Hx (c, d') (or_introl eq_refl)) as [Hlt H0]. cbn [fst] in *.
    rewrite IH; [|assumption|].
    + rewrite dot_set_nth, H0, Z.sub_0_r by assumption.
      change (zsum (fun cd => entry d (fst cd) * - entry (snd cd) f)
                   ((c, d') :: ups))
        with (entry d c * - entry d' f +
              zsum (fun cd => entry d (fst cd) * - entry (snd cd) f) ups).
      set (S := zsum (fun cd => entry d (fst cd) * - entry (snd cd) f) ups).
      change (nth c d 0) with (entry d c).
      replace (dot d x + entry d c * ((- entry d' f) mod q) + S)
        with ((dot d x + S) + entry d c * ((- entry d' f) mod q)) by ring.
      rewrite Zplus_mod, Zmult_mod_idemp_r, <- Zplus_mod.
      f_equal. ring.
    + intros cd Hcd. destruct (Hx cd (or_intror Hcd)) as [Hlt' H0'].
      rewrite length_set_nth. split; [assumption|].
      rewrite nth_set_nth_other; [assumption|].
      intro E. apply Hc. rewrite E. now apply in_map.
Qed.

Section KernelVectors.

Variable q : Z.
Hypothesis Hq : Z.prime q.
Variable nc : nat.

Lemma kernel_vector_in_kernel done todo pivots f :
  echelon_state q nc (seq 0 nc) done todo pivots ->
  (f < nc)%nat -> ~ In f pivots ->
  in_kernel q (done ++ todo) (kernel_vector q nc done pivots f).
Proof.
  pose proof (prime_gt_1 q Hq) as Hq1.
  intros (Hlen & Hok & Hfield & (Hnd & Hdiag & Hoff) & Hpiv & Hzero) Hf Hnp.
  rewrite Forall_app in Hok. destruct Hok as [Hokd Hokt].
  rewrite Forall_forall in Hokd, Hokt.
  unfold in_kernel. apply Forall_app. split; apply Forall_forall.
  - intros d Hd.
    destruct (in_combine_of_r pivots done d Hlen Hd) as (ci & Hci).
    unfold kernel_vector. rewrite dot_kernel_fold.
    + rewrite dot_set_nth by now rewrite repeat_length.
      rewrite dot_repeat_zero, nth_repeat_0, Z.sub_0_r, Z.add_0_l, Z.mul_1_r.
      rewrite (zsum_single _ fst _ (ci, d)); try assumption.
      * cbn [fst snd]. rewrite (Hdiag (ci, d) Hci : entry d ci = 1).
        unfold entry. replace (nth f d 0 + 1 * - nth f d 0) with 0 by ring.
        reflexivity.
      * intros cd Hcd Hne. cbn [fst] in Hne.
        pose proof (Hoff (ci, d) cd Hci Hcd) as H0. cbn [fst snd] in H0.
        cbn beta. rewrite H0; [ring | congruence].
    + assumption.
    + intros cd Hcd. rewrite length_set_nth, repeat_length.
      assert (Hin : In (fst cd) pivots)
        by (destruct cd; now apply in_combine_l in Hcd).
      pose proof (Hpiv _ Hin) as Hs. apply in_seq in Hs.
      split; [lia|].
      rewrite nth_set_nth_other; [apply nth_repeat_0|].
      intros ->. contradiction.
  - intros r Hr. rewrite dot_zero_row; [reflexivity|].
    intro c. destruct (Nat.lt_ge_cases c nc) as [Hc|Hc].
    + apply (Hzero r c Hr). apply in_seq. lia.
    + apply nth_overflow. rewrite (Hokt r Hr). assumption.
Qed.

(** Scaling and subtracting rows of the kernel gives rows of the kernel. *)
Lemma gauss_jordan_in_kernel (A : list row) cols : forall done todo pivots,
  Forall (fun r => length r = nc) (done ++ todo) ->
  Forall (in_kernel q A) (done ++ todo) ->
  Forall (in_kernel q A) (fst (fst (gauss_jordan q cols done todo pivots))).
Proof.
  induction cols as [|c cols IH]; intros done todo pivots Hok Hker.
  - cbn. rewrite Forall_app in Hker. tauto.
  - cbn [gauss_jordan].
    destruct (find_pivot c todo) as [[[b p] a]|] eqn:Hf; [|now apply IH].
    destruct (find_pivot_some _ _ _ _ _ Hf) as (-> & _ & _).
    set (p' := scale_row q (Z.invmod (entry p c) q) p).
    rewrite !Forall_app in Hok, Hker.
    destruct Hok as (Hokd & Hokb & Hokpa). destruct Hker as (Hkd & Hkb & Hkpa).
    apply Forall_cons_iff in Hokpa. destruct Hokpa as [Hlp Hoka].
    apply Forall_cons_iff in Hkpa. destruct Hkpa as [Hkp Hka].
    assert (Hlp' : length p' = nc)
      by (unfold p'; now rewrite length_scale_row).
    assert (Hkp' : in_kernel q A p').
    { unfold in_kernel in *. rewrite Forall_forall in *. intros r Hr.
      rewrite dot_comm. unfold p'. rewrite dot_scale_row, dot_comm.
      now rewrite Zmult_mod, (Hkp r Hr), Z.mul_0_r, Zmod_0_l. }
    assert (Hrows : forall rows,
              Forall (fun r => length r = nc) rows ->
              Forall (in_kernel q A) rows ->
              Forall (fun r => length r = nc) (map (eliminate q c p') rows) /\
              Forall (in_kernel q A) (map (eliminate q c p') rows)).
    { intros rows Hl Hk. rewrite Forall_forall in Hl, Hk.
      split; apply Forall_forall; intros r Hr; apply in_map_iff in Hr;
        destruct Hr as (r0 & <- & Hr0).
      - apply length_eliminate; auto.
      - specialize (Hk r0 Hr0). unfold in_kernel in *.
        rewrite Forall_forall in *. intros a0 Ha0.
        rewrite dot_comm. unfold eliminate.
        rewrite dot_sub_row by (rewrite Hlp'; auto).
        rewrite (dot_comm r0), (dot_comm p').
        rewrite Zminus_mod, (Hk a0 Ha0), Zmult_mod, (Hkp' a0 Ha0).
        now rewrite Z.mul_0_r, Zmod_0_l. }
    destruct (Hrows done Hokd Hkd) as [H1 H2].
    assert (Hba : Forall (fun r => length r = nc) (b ++ a) /\
                  Forall (in_kernel q A) (b ++ a))
      by (rewrite !Forall_app; tauto).
    destruct (Hrows (b ++ a) (proj1 Hba) (proj2 Hba)) as [H3 H4].
    apply IH; rewrite !Forall_app; repeat split; try assumption;
      now constructor.
Qed.

Lemma right_kernel_matrix_sound (A : list row) u :
  nc = length (hd [] A) -> Forall (fun r => length r = nc) A ->
  In u (right_kernel_matrix q A) -> in_kernel q A u.
Proof.
  pose proof (prime_gt_1 q Hq) as Hq1.
  intros Hnc HA. unfold right_kernel_matrix. rewrite <- Hnc.
  destruct (gauss_jordan q (seq 0 nc) [] (reduce_rows q A) [])
    as [[done todo] pivots] eqn:H1.
  set (free := filter (fun c => negb (existsb (Nat.eqb c) pivots)) (seq 0 nc)).
  set (basis := map (kernel_vector q nc done pivots) free).
  destruct (gauss_jordan_state q Hq nc (seq 0 nc) [] [] (reduce_rows q A) []
              done todo pivots) as [Hst Hker]; try assumption.
  - split; [reflexivity|]. split; [|split; [|split; [|split]]].
    + cbn [app]. unfold reduce_rows. rewrite Forall_forall in *.
      intros r Hr. apply in_map_iff in Hr. destruct Hr as (r0 & <- & Hr0).
      rewrite length_map. auto.
    + unfold reduce_rows. apply Forall_forall. intros r Hr.
      apply in_map_iff in Hr. destruct Hr as (r0 & <- & _).
      unfold in_field. apply Forall_forall. intros x Hx.
      apply in_map_iff in Hx. destruct Hx as (x0 & <- & _).
      apply Z.mod_pos_bound. lia.
    + cbn [combine]. split; [constructor|].
      split; [intros cd [] | intros cd cd' []].
    + intros c [].
    + intros r c _ [].
  - intros c _ [].
  - apply seq_NoDup.
  - cbn [app] in Hst.
    assert (Hbasis : Forall (in_kernel q A) basis).
    { apply Forall_forall. intros v Hv. apply in_map_iff in Hv.
      destruct Hv as (f & <- & Hf). unfold free in Hf.
      apply filter_In in Hf. destruct Hf as [Hfc Hfp]. apply in_seq in Hfc.
      assert (Hnp : ~ In f pivots).
      { intro Hin. apply negb_true_iff in Hfp.
        assert (He : existsb (Nat.eqb f) pivots = true)
          by (apply existsb_exists; exists f; split;
              [assumption | apply Nat.eqb_refl]).
        congruence. }
      assert (Hk := kernel_vector_in_kernel done todo pivots f Hst
                      (proj2 Hfc) Hnp).
      apply Hker in Hk. cbn [app] in Hk.
      unfold in_kernel, reduce_rows in *. rewrite Forall_forall in *.
      intros a Ha. rewrite <- dot_map_mod. apply Hk. now apply in_map. }
    assert (Hok : Forall (fun r => length r = nc) basis).
    { apply Forall_forall. intros v Hv. apply in_map_iff in Hv.
      destruct Hv as (f & <- & _). apply length_kernel_vector. }
    fold free. fold basis.
    destruct (gauss_jordan q (seq 0 nc) [] basis []) as [[echelon t2] p2]
      eqn:E2.
    assert (Hech : Forall (in_kernel q A) echelon).
    { change echelon with (fst (fst (echelon, t2, p2))). rewrite <- E2.
      apply gauss_jordan_in_kernel; assumption. }
    rewrite Forall_forall in Hech. apply Hech.
Qed.

End KernelVectors.

(** *** The interpolation polynomial of the list decoder *)

Lemma dot_app l1 l2 u :
  dot (l1 ++ l2) u =
  dot l1 (firstn (length l1) u) + dot l2 (skipn (length l1) u).
Proof.
  revert u. induction l1 as [|a l1 IH]; intro u; [reflexivity|].
  destruct u as [|b u].
  - cbn [app length firstn skipn]. now rewrite !dot_nil_r.
  - cbn [app length firstn skipn]. rewrite !dot_cons, IH. ring.
Qed.

Lemma dot_powers q x w len : forall s p,
  dot (map (fun i => (x ^ Z.of_nat i * w) mod q) (seq s len)) p mod q =
  (w * x ^ Z.of_nat s * peval (firstn len p) x) mod q.
Proof.
  induction len as [|len IH]; intros s p.
  - cbn. now rewrite Z.mul_0_r.
  - destruct p as [|b p].
    + cbn [seq map firstn peval]. now rewrite dot_nil_r, Z.mul_0_r.
    + cbn [seq map firstn peval]. rewrite dot_cons.
      rewrite Zplus_mod, IH, Zmult_mod_idemp_l, <- Zplus_mod.
      f_equal. rewrite Nat2Z.inj_succ, Z.pow_succ_r by lia. ring.
Qed.

Lemma bieval_cons q r Q x y :
  bieval q (r :: Q) x y = (peval r x + y * bieval q Q x y) mod q.
Proof.
  cbn [bieval]. rewrite eval_peval.
  now rewrite Zplus_mod_idemp_l.
Qed.

Lemma bieval_mod q Q x y : bieval q Q x y mod q = bieval q Q x y.
Proof. destruct Q; cbn [bieval]; [apply Zmod_0_l | apply Zmod_mod]. Qed.

Lemma dot_list_equation q alpha c (len : nat -> nat) m : forall s u,
  dot (flat_map (fun j => map (fun i => monomial_entry q alpha c i j)
                              (seq 0 (len j))) (seq s m)) u mod q =
  (c ^ Z.of_nat s *
   bieval q (split_rows (map len (seq s m)) u) (Z.of_nat alpha) c) mod q.
Proof.
  induction m as [|m IH]; intros s u.
  - cbn. now rewrite Z.mul_0_r.
  - cbn [seq flat_map map split_rows]. rewrite dot_app, length_map, length_seq.
    rewrite bieval_cons, Zplus_mod, IH.
    rewrite (map_ext (fun i => monomial_entry q alpha c i s)
               (fun i => (Z.of_nat alpha ^ Z.of_nat i * c ^ Z.of_nat s) mod q))
      by (intro i; apply monomial_entry_value).
    rewrite dot_powers, firstn_firstn, Nat.min_id.
    rewrite <- Zplus_mod, Zmult_mod_idemp_r.
    f_equal. rewrite Nat2Z.inj_succ, Z.pow_succ_r by lia.
    change (Z.of_nat 0) with 0. rewrite Z.pow_0_r. ring.
Qed.

Lemma map_length_split_rows lens : forall u : list Z,
  length u = list_sum lens -> map (@length Z) (split_rows lens u) = lens.
Proof.
  induction lens as [|l lens IH]; intros u Hu; [reflexivity|].
  change (list_sum (l :: lens)) with (l + list_sum lens)%nat in Hu.
  cbn [split_rows map]. rewrite IH, length_firstn.
  - f_equal. lia.
  - rewrite length_skipn. lia.
Qed.

(** X14: for [k >= 1], a word that is not empty and [q] prime, the
    interpolation polynomial [Q] of the list decoder is built, is not zero,
    has one row of [D - k j + 1] coefficients for every power [y^j] with
    [j <= D / k], and vanishes at every received point
    [(alpha, codeword[alpha])]. *)
Theorem interpolation_polynomial_vanishes q codeword k :
  Z.prime q -> (1 <= k)%nat -> codeword <> [] ->
  exists Q,
    interpolation_polynomial q codeword k = Returned Q /\
    forallb (fun r => is_zero (ring q r)) Q = false /\
    map (@length Z) Q =
    row_lengths k (interpolation_degree k (length codeword)) /\
    forall alpha, (alpha < length codeword)%nat ->
      bieval q Q (Z.of_nat alpha) (nth alpha codeword 0) = 0.
Proof.
  intros Hq Hk Hne.
  destruct (interpolation_polynomial_returns q codeword k Hq Hk Hne)
    as (u & rest & Hker & Hlen & HQ & Hnz).
  set (D := interpolation_degree k (length codeword)) in *.
  exists (split_rows (row_lengths k D) u).
  split; [assumption|]. split; [assumption|].
  split; [now apply map_length_split_rows|].
  intros alpha Halpha.
  assert (Hin : in_kernel q (list_equations q codeword k) u).
  { apply (right_kernel_matrix_sound q Hq (list_sum (row_lengths k D))).
    - unfold list_equations. fold D.
      destruct (length codeword) as [|n']; [lia|]. cbn [seq map hd].
      now rewrite length_list_equation.
    - unfold list_equations. fold D. apply Forall_forall. intros r Hr.
      apply in_map_iff in Hr. destruct Hr as (a & <- & _).
      apply length_list_equation.
    - rewrite Hker. now left. }
  unfold in_kernel, list_equations in Hin. fold D in Hin.
  rewrite Forall_forall in Hin.
  assert (H : dot (list_equation q k D alpha (nth alpha codeword 0)) u mod q
              = 0).
  { apply Hin. apply in_map_iff. exists alpha. split; [reflexivity|].
    apply in_seq. lia. }
  unfold list_equation in H.
  rewrite (dot_list_equation q alpha (nth alpha codeword 0)
             (fun j => D - k * j + 1)%nat (D / k + 1) 0 u) in H.
  change (Z.of_nat 0) with 0 in H. rewrite Z.pow_0_r, Z.mul_1_l in H.
  now rewrite bieval_mod in H.
Qed.

Lemma interpolation_polynomial_vanishes_witness :
  exists Q,
    interpolation_polynomial 7 [6; 0; 1; 2] 2 = Returned Q /\
    forallb (fun r => is_zero (ring 7 r)) Q = false /\
    map (@length Z) Q =
    row_lengths 2 (interpolation_degree 2 (length [6; 0; 1; 2])) /\
    forall alpha, Nat.lt alpha (length ([6; 0; 1; 2]%Z : list Z)) ->
      bieval 7 Q (Z.of_nat alpha) (nth alpha [6; 0; 1; 2] 0) = 0.
Proof.
  assert (Hk : (1 <= 2)%nat) by lia.
  assert (Hne : [6; 0; 1; 2] <> []) by discriminate.
  exact (interpolation_polynomial_vanishes 7 [6; 0; 1; 2] 2 prime_7 Hk Hne).
Defined.

(** ** Error generator *)

Lemma randint_range a b d : a <= b -> a <= randint a b d <= b.
Proof.
  intro H. unfold randint.
  pose proof (Z.mod_pos_bound d (b - a + 1)). lia.
Qed.

Lemma choose_indices_spec len num draws : forall acc ind rest,
  (num <= len)%nat -> (length acc <= num)%nat ->
  NoDup acc -> Forall (fun i => 0 <= i < Z.of_nat len) acc ->
  choose_indices len num draws acc = Some (ind, rest) ->
  NoDup ind /\ Forall (fun i => 0 <= i < Z.of_nat len) ind /\
  length ind = num.
Proof.
  induction draws as [|d draws IH]; intros acc ind rest Hnum Hacc Hnd Hr H;
    cbn [choose_indices] in H;
    destruct (Nat.ltb_spec (length acc) num) as [Hlt|Hge].
  - discriminate.
  - inversion H; subst. repeat split; try assumption. lia.
  - set (index := randint 0 (Z.of_nat len - 1) d) in *.
    destruct (existsb (Z.eqb index) acc) eqn:He.
    + now apply (IH acc ind rest).
    + apply (IH (acc ++ [index]) ind rest); try assumption.
      * rewrite length_app. cbn. lia.
      * apply NoDup_app; [assumption | repeat constructor; auto |].
        intros x Hx [<-|[]].
        assert (Ht : existsb (Z.eqb index) acc = true)
          by (apply existsb_exists; exists index; split;
              [assumption | apply Z.eqb_refl]).
        congruence.
      * apply Forall_app. split; [assumption|]. constructor; [|constructor].
        pose proof (randint_range 0 (Z.of_nat len - 1) d). fold index in H0.
        lia.
  - inversion H; subst. repeat split; try assumption. lia.
Qed.

Lemma choose_value_spec q is_last cur draws : forall v rest,
  choose_value q is_last cur draws = Some (v, rest) ->
  eqF q v cur = false.
Proof.
  induction draws as [|d draws IH]; intros v rest H; [discriminate|].
  cbn [choose_value] in H.
  destruct (is_last && (randint 0 q d =? 0)); [now apply (IH v rest)|].
  destruct (eqF q (randint 0 q d) cur) eqn:He; cbn [negb] in H.
  - now apply (IH v rest).
  - inversion H; subst. assumption.
Qed.

Lemma change_coeffs_spec q indices : forall coeffs draws coeffs' rest,
  NoDup indices ->
  Forall (fun i => 0 <= i < Z.of_nat (length coeffs)) indices ->
  change_coeffs q coeffs indices draws = Some (coeffs', rest) ->
  length coeffs' = length coeffs /\
  forall i, (i < length coeffs)%nat ->
    (In (Z.of_nat i) indices ->
     eqF q (nth i coeffs' 0) (nth i coeffs 0) = false) /\
    (~ In (Z.of_nat i) indices -> nth i coeffs' 0 = nth i coeffs 0).
Proof.
  induction indices as [|index indices IH];
    intros coeffs draws coeffs' rest Hnd Hr H.
  - cbn in H. inversion H; subst. split; [reflexivity|].
    intros i _. split; [intros [] | reflexivity].
  - cbn [change_coeffs] in H.
    destruct (choose_value q (index =? Z.of_nat (length coeffs) - 1)
                (nth (Z.to_nat index) coeffs 0) draws)
      as [[v draws']|] eqn:Hv; [|discriminate].
    apply choose_value_spec in Hv.
    inversion Hnd as [|? ? Hnotin Hnd']; subst.
    inversion Hr as [|? ? Hidx Hr']; subst.
    apply IH in H; [|assumption | now rewrite length_set_nth].
    rewrite length_set_nth in H. destruct H as [Hlen Hall].
    split; [assumption|]. intros i Hi. destruct (Hall i Hi) as [Hin Hout].
    destruct (Z.eq_dec (Z.of_nat i) index) as [<-|Hne].
    + rewrite Nat2Z.id in *. split.
      * intros _. rewrite (Hout Hnotin).
        now rewrite nth_set_nth_same.
      * intro Hn. exfalso. apply Hn. now left.
    + assert (Hne' : Z.to_nat index <> i) by lia.
      rewrite (nth_set_nth_other _ _ _ _ Hne') in Hin, Hout.
      split.
      * intros [Heq|Hin']; [congruence | auto].
      * intro Hn. apply Hout. intro. apply Hn. now right.
Qed.

Lemma eqF_mod_l q a b : eqF q (a mod q) b = eqF q a b.
Proof. unfold eqF. now rewrite Zmod_mod. Qed.

Lemma eqF_refl q a : eqF q a a = true.
Proof. unfold eqF. apply Z.eqb_refl. Qed.

(** The positions of a list of distinct indices below [n]. *)
Lemma count_indices (P : nat -> bool) n (indices : list Z) :
  NoDup indices -> Forall (fun i => 0 <= i < Z.of_nat n) indices ->
  (forall i, (i < n)%nat -> P i = true <-> In (Z.of_nat i) indices) ->
  length (filter P (seq 0 n)) = length indices.
Proof.
  intros Hnd Hr HP. rewrite Forall_forall in Hr.
  rewrite <- (length_map Z.to_nat indices).
  assert (HndL : NoDup (map Z.to_nat indices)).
  { apply NoDup_map_NoDup_ForallPairs; [|assumption].
    intros a b Ha Hb Hab. pose proof (Hr a Ha). pose proof (Hr b Hb). lia. }
  assert (HndF : NoDup (filter P (seq 0 n)))
    by apply NoDup_filter, seq_NoDup.
  apply Nat.le_antisymm; apply NoDup_incl_length; try assumption.
  - intros i Hi. apply filter_In in Hi. destruct Hi as [Hi HPi].
    apply in_seq in Hi. apply in_map_iff. exists (Z.of_nat i).
    split; [apply Nat2Z.id|]. apply HP; [lia | assumption].
  - intros i Hi. apply in_map_iff in Hi. destruct Hi as (z & <- & Hz).
    pose proof (Hr z Hz). apply filter_In. split; [apply in_seq; lia|].
    apply HP; [lia|]. now rewrite Z2Nat.id by lia.
Qed.

(** X15: when the error generator returns, the number of errors it reports
    is the requested one, capped at the length of the codeword, and the
    word it returns differs from the codeword in exactly that many
    positions. *)
Theorem error_generator_count q codeword num_of_errors draws cw' e rest :
  1 < q -> ring q codeword = codeword ->
  error_generator q codeword num_of_errors draws = Some (cw', e, rest) ->
  e = Nat.min num_of_errors (length codeword) /\
  length (altered q (coeffs cw') codeword (length codeword)) = e.
Proof.
  intros Hq Hnorm H. unfold error_generator, coeffs in *.
  assert (Hn : Z.to_nat (degree q codeword + 1) = length codeword).
  { unfold degree. rewrite Hnorm. lia. }
  rewrite Hn in H. set (n := length codeword) in *.
  set (t := if (n <? num_of_errors)%nat then n else num_of_errors) in *.
  assert (Ht : t = Nat.min num_of_errors n).
  { unfold t. destruct (Nat.ltb_spec n num_of_errors); lia. }
  destruct (choose_indices n t draws []) as [[ind draws1]|] eqn:Hci;
    [|discriminate].
  destruct (change_coeffs q codeword ind draws1) as [[coeffs' draws2]|] eqn:Hcc;
    [|discriminate].
  inversion H; subst cw' e rest. clear H.
  apply choose_indices_spec in Hci;
    [|lia | cbn; lia | constructor | constructor].
  destruct Hci as (Hnd & Hr & Hlen).
  apply change_coeffs_spec in Hcc; [|assumption | assumption].
  destruct Hcc as [Hlen' Hall].
  split; [assumption|].
  unfold altered. rewrite <- Hlen. apply count_indices; try assumption.
  intros i Hi. destruct (Hall i Hi) as [Hin Hout].
  fold (coeff (ring q coeffs') i). rewrite coeff_ring, eqF_mod_l.
  unfold coeff. split.
  - intro Hneq. destruct (in_dec Z.eq_dec (Z.of_nat i) ind) as [|Hnot];
      [assumption|].
    rewrite (Hout Hnot), eqF_refl in Hneq. discriminate.
  - intro Hi'. now rewrite (Hin Hi').
Qed.

Lemma error_generator_count_witness :
  2%nat = Nat.min 2 (length ([1; 2; 4; 0; 4; 2; 1]%Z : list Z)) /\
  length (altered 7 (coeffs [1; 5; 4; 0; 4; 2; 3]) [1; 2; 4; 0; 4; 2; 1]
                  (length ([1; 2; 4; 0; 4; 2; 1]%Z : list Z))) = 2%nat.
Proof.
  assert (Hq : 1 < 7) by lia.
  assert (Hnorm : ring 7 [1; 2; 4; 0; 4; 2; 1] = [1; 2; 4; 0; 4; 2; 1])
    by reflexivity.
  assert (H : error_generator 7 [1; 2; 4; 0; 4; 2; 1] 2 [1; 1; 6; 2; 5; 3; 3] =
              Some ([1; 5; 4; 0; 4; 2; 3], 2%nat, [3])) by reflexivity.
  exact (error_generator_count 7 [1; 2; 4; 0; 4; 2; 1] 2
           [1; 1; 6; 2; 5; 3; 3] [1; 5; 4; 0; 4; 2; 3] 2 [3] Hq Hnorm H).
Defined.

(** *** Zeroing the leading coefficient *)

Lemma strip_snoc_zero l : strip (l ++ [0]) = strip l.
Proof.
  induction l as [|c l IH]; [reflexivity|].
  cbn [app strip]. now rewrite IH.
Qed.

Lemma set_nth_last (l : list Z) v :
  l <> [] -> set_nth (length l - 1) v l = removelast l ++ [v].
Proof.
  induction l as [|c l IH]; intro H; [contradiction|].
  destruct l as [|c' l]; [reflexivity|].
  replace (length (c :: c' :: l) - 1)%nat with (S (length (c' :: l) - 1))
    by (cbn [length]; lia).
  change (set_nth (S (length (c' :: l) - 1)) v (c :: c' :: l))
    with (c :: set_nth (length (c' :: l) - 1) v (c' :: l)).
  rewrite IH by discriminate. reflexivity.
Qed.

Lemma strip_last_nonzero p : strip p <> [] -> last (strip p) 0 <> 0.
Proof.
  induction p as [|c p IH]; intro H; [contradiction|].
  cbn [strip] in *. destruct (strip p) as [|d r] eqn:Hs.
  - destruct (Z.eqb_spec c 0); [contradiction|]. assumption.
  - change (last (c :: d :: r) 0) with (last (d :: r) 0).
    apply IH. discriminate.
Qed.

Lemma nth_last (l : list Z) : nth (length l - 1) l 0 = last l 0.
Proof.
  induction l as [|c l IH]; [reflexivity|].
  destruct l as [|c' l]; [reflexivity|].
  replace (length (c :: c' :: l) - 1)%nat with (S (length (c' :: l) - 1))
    by (cbn [length]; lia).
  change (nth (S (length (c' :: l) - 1)) (c :: c' :: l) 0)
    with (nth (length (c' :: l) - 1) (c' :: l) 0).
  rewrite IH. reflexivity.
Qed.

(** X16: the value [q] may be drawn for the last coefficient: it is
    accepted, it is zero in GF(q), and the word returned has fewer symbols
    than the codeword. *)
Theorem error_generator_shortens q codeword :
  1 < q -> ring q codeword = codeword -> codeword <> [] ->
  exists cw',
    error_generator q codeword 1 [Z.of_nat (length codeword) - 1; q] =
    Some (cw', 1%nat, []) /\
    (length (coeffs cw') < length codeword)%nat.
Proof.
  intros Hq Hnorm Hne. unfold error_generator, coeffs.
  assert (Hn : Z.to_nat (degree q codeword + 1) = length codeword).
  { unfold degree. rewrite Hnorm. lia. }
  rewrite Hn. set (n := length codeword).
  assert (Hn1 : (1 <= n)%nat).
  { unfold n. destruct codeword; [contradiction | cbn; lia]. }
  destruct (Nat.ltb_spec n 1) as [|_]; [lia|].
  assert (Hidx : randint 0 (Z.of_nat n - 1) (Z.of_nat n - 1) = Z.of_nat n - 1).
  { unfold randint. rewrite Z.mod_small; lia. }
  cbn [choose_indices length Nat.ltb Nat.leb existsb app]. rewrite Hidx.
  cbn [change_coeffs]. fold n. rewrite Z.eqb_refl.
  assert (Hval : randint 0 q q = q).
  { unfold randint. rewrite Z.mod_small; lia. }
  assert (Hlast : nth (Z.to_nat (Z.of_nat n - 1)) codeword 0 mod q <> 0).
  { replace (Z.to_nat (Z.of_nat n - 1)) with (n - 1)%nat by lia.
    unfold n. rewrite nth_last.
    assert (Hl : last codeword 0 <> 0).
    { rewrite <- Hnorm. unfold ring. apply strip_last_nonzero.
      fold (ring q codeword). now rewrite Hnorm. }
    assert (Hf : in_field q codeword)
      by (rewrite <- Hnorm; apply ring_in_field; lia).
    unfold in_field in Hf. rewrite Forall_forall in Hf.
    rewrite Z.mod_small; [assumption|].
    apply Hf. destruct codeword; [contradiction|].
    apply (exists_last (l := z :: codeword)) in Hne.
    destruct Hne as (l' & a & ->). rewrite last_last.
    apply in_or_app. right. now left. }
  cbn [choose_value]. rewrite Hval.
  destruct (Z.eqb_spec q 0) as [|_]; [lia|]. cbn [andb].
  unfold eqF at 1. rewrite Z_mod_same_full.
  destruct (Z.eqb_spec 0 (nth (Z.to_nat (Z.of_nat n - 1)) codeword 0 mod q))
    as [E|_]; [congruence|].
  cbn [negb]. eexists. split; [reflexivity|].
  replace (Z.to_nat (Z.of_nat n - 1)) with (n - 1)%nat by lia.
  unfold n. rewrite set_nth_last by assumption.
  unfold ring. rewrite map_app. cbn [map]. rewrite Z_mod_same_full.
  rewrite strip_snoc_zero.
  pose proof (length_strip (map (fun c => c mod q) (removelast codeword)))
    as Hs.
  rewrite length_map in Hs.
  assert (Hr : (length (removelast codeword) < length codeword)%nat).
  { destruct codeword as [|c l]; [contradiction|].
    apply (exists_last (l := c :: l)) in Hne.
    destruct Hne as (l' & a & ->). rewrite removelast_last, length_app.
    cbn. lia. }
  lia.
Qed.

Lemma error_generator_shortens_witness :
  exists cw',
    error_generator 7 [1; 2; 4; 0; 4; 2; 1] 1
      [Z.of_nat (length [1; 2; 4; 0; 4; 2; 1]) - 1; 7] =
    Some (cw', 1%nat, []) /\
    Nat.lt (length (coeffs cw')) (length ([1; 2; 4; 0; 4; 2; 1]%Z : list Z)).
Proof.
  assert (Hq : 1 < 7) by lia.
  assert (Hnorm : ring 7 [1; 2; 4; 0; 4; 2; 1] = [1; 2; 4; 0; 4; 2; 1])
    by reflexivity.
  assert (Hne : [1; 2; 4; 0; 4; 2; 1] <> []) by discriminate.
  exact (error_generator_shortens 7 [1; 2; 4; 0; 4; 2; 1] Hq Hnorm Hne).
Defined.

(** ** Test harness *)

Lemma rs_decoder_normalised q codeword k num_of_errors m :
  rs_decoder q codeword k num_of_errors = Returned (Some m) ->
  exists l, m = ring q l.
Proof.
  unfold rs_decoder.
  destruct (solve_right _ _ _ _) as [unknowns|]; [|discriminate].
  destruct (is_zero _); [|discriminate].
  destruct (lagrange_polynomial _ _) as [lp|]; cbn [bind]; [|discriminate].
  intro H. inversion H. eauto.
Qed.

Lemma last_combine_eq q (a b : list Z) :
  length a = length b -> a <> [] ->
  forallb (fun xy => eqF q (fst xy) (snd xy)) (combine a b) = true ->
  last a 0 mod q = last b 0 mod q.
Proof.
  revert b. induction a as [|x a IH]; intros [|y b] Hlen Hne H;
    try discriminate; [contradiction|].
  cbn [combine forallb fst snd] in H. apply andb_true_iff in H.
  destruct H as [Hxy H].
  destruct a as [|x' a]; destruct b as [|y' b]; try discriminate.
  - cbn. unfold eqF in Hxy. now apply Z.eqb_eq in Hxy.
  - change (last (x :: x' :: a) 0) with (last (x' :: a) 0).
    change (last (y :: y' :: b) 0) with (last (y' :: b) 0).
    apply IH; [cbn in *; lia | discriminate | assumption].
Qed.

Lemma last_in (l : list Z) : l <> [] -> In (last l 0) l.
Proof.
  intro H. destruct (exists_last H) as (l' & a & ->).
  rewrite last_last. apply in_or_app. right. now left.
Qed.

Lemma list_eqF_trailing_zero q l msg :
  1 < q -> msg <> [] -> last msg 0 mod q = 0 ->
  list_eqF q (ring q l) msg = false.
Proof.
  intros Hq Hne Hz. unfold list_eqF.
  destruct (Nat.eqb_spec (length (ring q l)) (length msg)) as [Hlen|];
    [|reflexivity].
  cbn [andb].
  destruct (forallb _ _) eqn:Hall; [exfalso|reflexivity].
  assert (Hne' : ring q l <> []).
  { intro E. rewrite E in Hlen. destruct msg; [contradiction|discriminate]. }
  apply last_combine_eq in Hall; try assumption.
  rewrite Hz in Hall.
  assert (Hl : last (ring q l) 0 <> 0)
    by (unfold ring in *; now apply strip_last_nonzero).
  assert (Hf : in_field q (ring q l)) by (apply ring_in_field; lia).
  unfold in_field in Hf. rewrite Forall_forall in Hf.
  pose proof (Hf _ (last_in _ Hne')) as Hr.
  rewrite Z.mod_small in Hall by assumption. contradiction.
Qed.

(** X17: for a message whose last symbol is zero in GF(q), [test] reports a
    failure of the unique decoder whatever was decoded: the coefficient
    list of the decoded polynomial never ends with a zero. *)
Theorem test_trailing_zero
  (factor : bipoly -> list (bipoly * nat)) q msg n errors draws r0 r1 rest :
  1 < q -> msg <> [] -> last msg 0 mod q = 0 ->
  test factor q msg n errors draws = Some (Returned (r0, r1), rest) ->
  r0 = false.
Proof.
  intros Hq Hne Hz H. unfold test in H.
  destruct (rs_encoder q msg n) as [cw|]; [|inversion H].
  destruct (error_generator q cw errors draws) as [[[rc e] d]|];
    [|discriminate].
  destruct (rs_decoder q (coeffs rc) (length msg) errors) as [[m|]|] eqn:Hd.
  - apply rs_decoder_normalised in Hd. destruct Hd as (l & ->).
    inversion H. unfold coeffs. now apply list_eqF_trailing_zero.
  - now inversion H.
  - inversion H.
Qed.

Lemma test_trailing_zero_witness : false = false.
Proof.
  assert (Hq : 1 < 7) by lia.
  assert (Hne : [1; 0] <> []) by discriminate.
  assert (Hz : last [1; 0] 0 mod 7 = 0) by reflexivity.
  assert (H : test factor_irreducible 7 [1; 0] 6 0 [] =
              Some (Returned (false, false), [])) by reflexivity.
  exact (test_trailing_zero factor_irreducible 7 [1; 0] 6 0 [] false false
           [] Hq Hne Hz H).
Defined.

(** *** The counters of the test suite *)

Lemma lookup_store key key' v results :
  lookup key' (store key v results) =
  if (key =? key')%nat then Some v else lookup key' results.
Proof.
  induction results as [|[k w] results IH]; cbn [store lookup].
  - reflexivity.
  - destruct (Nat.eqb_spec k key) as [->|Hk]; cbn [lookup].
    + destruct (Nat.eqb_spec key key'); reflexivity.
    + rewrite IH. destruct (Nat.eqb_spec k key') as [->|]; [|reflexivity].
      destruct (Nat.eqb_spec key key'); [congruence | reflexivity].
Qed.

Lemma test_suite_loop_counts
  (factor : bipoly -> list (bipoly * nat)) todo :
  forall results draws count final rest,
  counted count results ->
  test_suite_loop factor todo results draws = Some (Returned final, rest) ->
  counted (fun key => (count key + runs_with key todo)%nat) final.
Proof.
  induction todo as [|[[[msg n] q] errors] todo IH];
    intros results draws count final rest Hinv H.
  - cbn in H. inversion H; subst. intro key. specialize (Hinv key).
    unfold runs_with. cbn. rewrite Nat.add_0_r. exact Hinv.
  - cbn [test_suite_loop] in H.
    destruct (test factor q msg n errors draws) as [[[result|e] d]|];
      [|discriminate|discriminate].
    apply (IH _ _ (fun key =>
                     (count key + if (n =? key)%nat then 1 else 0)%nat))
      in H.
    + intro key. specialize (H key). cbn beta in H.
      unfold runs_with in *. cbn [filter fst snd].
      destruct (n =? key)%nat; cbn [length];
        destruct (lookup key final); try (intuition lia); lia.
    + intro key. rewrite lookup_store. specialize (Hinv key).
      destruct (Nat.eqb_spec n key) as [->|Hne].
      * destruct (lookup key results) as [r|]; cbn [runs ud ld].
        -- destruct (fst result), (snd result); intuition lia.
        -- destruct (fst result), (snd result); lia.
      * destruct (lookup key results); [intuition lia | lia].
Qed.

(** X18: the counters of the test suite.  For every encoding length,
    [runs] is the number of runs with that length, it is at least 1 for a
    length that has an entry, and [ud] and [ld] are at most [runs]; a
    length without entry has no run. *)
Theorem test_suite_counts
  (factor : bipoly -> list (bipoly * nat)) todo draws results rest
  (H : test_suite factor todo draws = Some (Returned results, rest)) :
  forall key,
    match lookup key results with
    | Some r => runs r = runs_with key todo /\ (1 <= runs r)%nat /\
                (ud r <= runs r)%nat /\ (ld r <= runs r)%nat
    | None => runs_with key todo = 0%nat
    end.
Proof.
  unfold test_suite in H.
  apply (test_suite_loop_counts factor todo [] draws (fun _ => 0%nat)) in H.
  - exact H.
  - intro key. reflexivity.
Qed.

Lemma test_suite_counts_witness :
  match lookup 6 [(6%nat, {| runs := 2; ud := 0; ld := 0 |});
                  (7%nat, {| runs := 1; ud := 1; ld := 0 |})] with
  | Some r =>
      runs r = runs_with 6 [([1; 0], 6%nat, 7, 0%nat);
                            ([1; 2; 4], 7%nat, 7, 2%nat);
                            ([2; 0], 6%nat, 7, 0%nat)] /\
      (1 <= runs r)%nat /\ (ud r <= runs r)%nat /\ (ld r <= runs r)%nat
  | None =>
      runs_with 6 [([1; 0], 6%nat, 7, 0%nat);
                   ([1; 2; 4], 7%nat, 7, 2%nat);
                   ([2; 0], 6%nat, 7, 0%nat)] = 0%nat
  end.
Proof.
  assert (H : test_suite factor_irreducible
                [([1; 0], 6%nat, 7, 0%nat); ([1; 2; 4], 7%nat, 7, 2%nat);
                 ([2; 0], 6%nat, 7, 0%nat)] [1; 1; 6; 2; 5; 3; 3] =
              Some (Returned [(6%nat, {| runs := 2; ud := 0; ld := 0 |});
                              (7%nat, {| runs := 1; ud := 1; ld := 0 |})],
                    [3])) by reflexivity.
  exact (test_suite_counts factor_irreducible _ _ _ _ H 6%nat).
Defined.
